(** * QuickScribe-AI: media helpers, shallow embedding and verification

    The development follows the TypeScript sources:
    - [utils/subtitleHelpers]   timeToSeconds, parseSRT, secondsToTime, generateSRT,
                                generateVTT, convertSubtitles (the PDF layout)
    - [utils/audioHelpers]      audioBufferToWav, audioBufferToMp3 (floatTo16BitPCM)
    - [utils/videoProcessor]    burnSubtitles, trimVideo, convertVideo, drawSubtitleText,
                                hexToRgba
    - [services/geminiService]  cleanJsonResponse, calculateAutoSyncOffset,
                                generateSubtitlesFromVideo, translateSubtitles
    - [components/WaveformTimeline], [components/AudioTrimmerTool]   peak envelope,
                                handlePointerMove, handleTrim
    - [components/AudioJoinerTool]      handleMerge
    - [components/VideoTrimmerTool]     handleSetStart, handleSetEnd
    - [components/SubtitleEditorTool]   handleUpdate, handleDelete, handleAdd,
                                formatTimeUI, parseTimeUI

    JavaScript numbers are modelled by [jsnum]: the three special values of
    IEEE-754 and the finite values as exact rationals, with the exact sums,
    products and quotients of [Module JS].  The host rounds these to
    binary64; comparisons, floors, remainders and the arithmetic of whole
    numbers below 2^53 are the same in both.  Where a result depends on the
    rounding of an operation, that operation is a variable of the section
    ([add64], [mul64], [div64]: any function, the host's among them), or
    the statement relates two evaluations of the same expression, or it
    leaves a margin wider than the rounding.  Strings are lists of 8-bit
    code units ([list ascii]); typed arrays are lists updated by index. *)

From Stdlib Require Import ZArith QArith Qround Qreduction Qminmax Lia String Ascii List.
From Stdlib Require Import DecimalString Sorted Qabs Qfield Lqa.
From stdpp Require Import base list.
Import ListNotations.

Local Open Scope Z_scope.

(** ** JavaScript numbers *)

Module JS.

Inductive jsnum : Type :=
| NaN
| PInf
| NInf
| Fin (q : Q).

Definition zero : jsnum := Fin 0.

Definition isNaN (x : jsnum) : bool :=
  match x with NaN => true | _ => false end.

(** [x < y]; every comparison with NaN is false. *)
Definition lt (x y : jsnum) : bool :=
  match x, y with
  | NaN, _ | _, NaN => false
  | Fin a, Fin b => negb (Qle_bool b a)
  | NInf, NInf => false
  | NInf, _ => true
  | _, NInf => false
  | PInf, _ => false
  | Fin _, PInf => true
  end.

(** [x <= y]. *)
Definition le (x y : jsnum) : bool :=
  match x, y with
  | NaN, _ | _, NaN => false
  | Fin a, Fin b => Qle_bool a b
  | NInf, _ => true
  | _, NInf => false
  | _, PInf => true
  | PInf, Fin _ => false
  end.

Definition gt (x y : jsnum) : bool := lt y x.
Definition ge (x y : jsnum) : bool := le y x.

(** Truthiness of a number: [0] and [NaN] are falsy. *)
Definition truthy (x : jsnum) : bool :=
  match x with
  | NaN => false
  | Fin q => negb (Qeq_bool q 0)
  | _ => true
  end.

(** [x || y] on numbers. *)
Definition or_else (x y : jsnum) : jsnum := if truthy x then x else y.

Definition sign (q : Q) : comparison := (Qnum q ?= 0)%Z.

Definition neg (x : jsnum) : jsnum :=
  match x with
  | NaN => NaN
  | PInf => NInf
  | NInf => PInf
  | Fin q => Fin (Qred (- q))
  end.

Definition add (x y : jsnum) : jsnum :=
  match x, y with
  | NaN, _ | _, NaN => NaN
  | Fin a, Fin b => Fin (Qred (a + b))
  | PInf, NInf | NInf, PInf => NaN
  | PInf, _ | _, PInf => PInf
  | NInf, _ | _, NInf => NInf
  end.

Definition sub (x y : jsnum) : jsnum := add x (neg y).

(** An infinity times a finite value: the sign decides, zero gives NaN. *)
Definition scale_inf (pos : bool) (q : Q) : jsnum :=
  match sign q with
  | Eq => NaN
  | Gt => if pos then PInf else NInf
  | Lt => if pos then NInf else PInf
  end.

Definition mul (x y : jsnum) : jsnum :=
  match x, y with
  | NaN, _ | _, NaN => NaN
  | Fin a, Fin b => Fin (Qred (a * b))
  | PInf, Fin q | Fin q, PInf => scale_inf true q
  | NInf, Fin q | Fin q, NInf => scale_inf false q
  | PInf, PInf | NInf, NInf => PInf
  | PInf, NInf | NInf, PInf => NInf
  end.

(** Division; the only zero of the model is the positive one. *)
Definition div (x y : jsnum) : jsnum :=
  match x, y with
  | NaN, _ | _, NaN => NaN
  | Fin a, Fin b =>
      match sign b with
      | Eq => scale_inf true a
      | _ => Fin (Qred (a / b))
      end
  | Fin _, _ => Fin 0
  | PInf, Fin q => match sign q with Lt => NInf | _ => PInf end
  | NInf, Fin q => match sign q with Lt => PInf | _ => NInf end
  | _, _ => NaN
  end.

(** Truncation of a rational toward zero. *)
Definition Qtrunc (q : Q) : Z := Z.quot (Qnum q) (Zpos (Qden q)).

(** The [%] operator: the result has the sign of the dividend. *)
Definition rem (x y : jsnum) : jsnum :=
  match x, y with
  | Fin a, Fin b =>
      match sign b with
      | Eq => NaN
      | _ => Fin (Qred (a - b * inject_Z (Qtrunc (a / b))))
      end
  | Fin a, PInf | Fin a, NInf => Fin a
  | _, _ => NaN
  end.

Definition Math_floor (x : jsnum) : jsnum :=
  match x with Fin q => Fin (inject_Z (Qfloor q)) | _ => x end.

Definition Math_ceil (x : jsnum) : jsnum :=
  match x with Fin q => Fin (inject_Z (Qceiling q)) | _ => x end.

(** [Math.round]: the nearest integer, ties toward +infinity. *)
Definition Math_round (x : jsnum) : jsnum :=
  match x with Fin q => Fin (inject_Z (Qfloor (q + (1 # 2)))) | _ => x end.

Definition Math_min (x y : jsnum) : jsnum :=
  match x, y with
  | NaN, _ | _, NaN => NaN
  | _, _ => if lt y x then y else x
  end.

Definition Math_max (x y : jsnum) : jsnum :=
  match x, y with
  | NaN, _ | _, NaN => NaN
  | _, _ => if lt x y then y else x
  end.

(** ToIntegerOrInfinity followed by the "not finite gives 0" rule shared by
    every fixed-width integer conversion. *)
Definition ToInteger (x : jsnum) : Z :=
  match x with Fin q => Qtrunc q | _ => 0 end.

Definition wrapInt16 (n : Z) : Z := (n + 32768) mod 65536 - 32768.

Definition ToInt16 (x : jsnum) : Z := wrapInt16 (ToInteger x).
Definition ToUint16 (x : jsnum) : Z := ToInteger x mod 65536.
Definition ToUint32 (x : jsnum) : Z := ToInteger x mod 4294967296.

Definition ofZ (z : Z) : jsnum := Fin (inject_Z z).
Definition ofNat (n : nat) : jsnum := ofZ (Z.of_nat n).

End JS.

Import JS.

(** ** 16-bit PCM conversion (audioHelpers) *)

(** [Math.max(-1, Math.min(1, x))] *)
Definition clampSample (x : jsnum) : jsnum :=
  Math_max (Fin (-1)) (Math_min (Fin 1) x).

(** [s < 0 ? s * 0x8000 : s * 0x7FFF] *)
Definition scaleSample (s : jsnum) : jsnum :=
  if lt s (Fin 0) then mul s (Fin 32768) else mul s (Fin 32767).

(** The element store [output[i] = ...] of an [Int16Array]. *)
Definition sampleToInt16 (x : jsnum) : Z :=
  ToInt16 (scaleSample (clampSample x)).

(** [floatTo16BitPCM] of [audioBufferToMp3]. *)
Definition floatTo16BitPCM (input : list jsnum) : list Z :=
  map sampleToInt16 input.

(** ** The WAV writer (audioHelpers) *)

(** A decoded [AudioBuffer]: the channel count, the sample rate and one
    [Float32Array] per channel. *)
Record AudioBuffer : Type := mkAudioBuffer {
  numberOfChannels : nat;
  sampleRate : jsnum;
  channelData : list (list jsnum)
}.

(** Frames per channel ([buffer.length]). *)
Definition frameCount (b : AudioBuffer) : nat :=
  match channelData b with
  | c :: _ => length c
  | [] => 0%nat
  end.

(** The host only hands out buffers with at least one channel, and all
    channels of one buffer have the same length. *)
Definition valid_buffer (b : AudioBuffer) : Prop :=
  (1 <= numberOfChannels b)%nat /\
  length (channelData b) = numberOfChannels b /\
  Forall (fun c => length c = frameCount b) (channelData b).

(** [buffer.getChannelData(c)]; an index that is out of range throws. *)
Definition getChannelData (b : AudioBuffer) (c : nat) : option (list jsnum) :=
  if decide (c < numberOfChannels b)%nat then channelData b !! c else None.

(** A [DataView] over a fresh [ArrayBuffer]: bytes [0..255], updated in place.
    Every setter throws a RangeError ([None]) outside the buffer. *)
Abbreviation DataView := (list Z).

Definition newArrayBuffer (n : nat) : DataView := repeat 0 n.

Notation "'do' x <- m ; k" :=
  (match m with Some x => k | None => None end)
  (at level 10, x name, m at level 100, k at level 200, only parsing).

Definition setUint8 (view : DataView) (offset : nat) (v : Z) : option DataView :=
  if decide (offset + 1 <= length view)%nat
  then Some (<[offset := v mod 256]> view)
  else None.

(** Little-endian stores ([littleEndian = true] at every call site). *)
Definition setUint16 (view : DataView) (offset : nat) (x : jsnum) : option DataView :=
  let v := ToUint16 x in
  if decide (offset + 2 <= length view)%nat
  then Some (<[S offset := (v / 256) mod 256]> (<[offset := v mod 256]> view))
  else None.

Definition setInt16 (view : DataView) (offset : nat) (x : jsnum) : option DataView :=
  let v := ToInt16 x mod 65536 in
  if decide (offset + 2 <= length view)%nat
  then Some (<[S offset := (v / 256) mod 256]> (<[offset := v mod 256]> view))
  else None.

Definition setUint32 (view : DataView) (offset : nat) (x : jsnum) : option DataView :=
  let v := ToUint32 x in
  if decide (offset + 4 <= length view)%nat
  then Some (<[S (S (S offset)) := (v / 16777216) mod 256]>
            (<[S (S offset) := (v / 65536) mod 256]>
            (<[S offset := (v / 256) mod 256]>
            (<[offset := v mod 256]> view))))
  else None.

(** Little-endian loads, used to read a written file back. *)
Definition getUint32 (view : DataView) (offset : nat) : option Z :=
  do b0 <- view !! offset;
  do b1 <- view !! S offset;
  do b2 <- view !! S (S offset);
  do b3 <- view !! S (S (S offset));
  Some (b0 + 256 * b1 + 65536 * b2 + 16777216 * b3).

Definition getInt16 (view : DataView) (offset : nat) : option Z :=
  do b0 <- view !! offset;
  do b1 <- view !! S offset;
  Some (wrapInt16 (b0 + 256 * b1)).

Definition charCodeAt (c : ascii) : Z := Z.of_N (N_of_ascii c).

(** [writeString(view, offset, string)] *)
Fixpoint writeString (view : DataView) (offset : nat) (s : list ascii) : option DataView :=
  match s with
  | [] => Some view
  | c :: s' =>
      do view' <- setUint8 view offset (charCodeAt c);
      writeString view' (S offset) s'
  end.

(** A typed-array element read; past the end it is [undefined], which a
    [Float32Array] store turns into NaN. *)
Definition elemOrNaN (a : list jsnum) (i : nat) : jsnum :=
  match a !! i with Some v => v | None => NaN end.

(** The stereo interleaving loop: [result[i*2] = left[i]; result[i*2+1] = right[i]]. *)
Definition interleave (left right : list jsnum) : list jsnum :=
  fold_left
    (fun result i =>
       <[(i * 2 + 1)%nat := elemOrNaN right i]> (<[(i * 2)%nat := elemOrNaN left i]> result))
    (seq 0 (length left))
    (repeat (Fin 0) (length left + length right)).

(** The loop that writes the samples, threading [offset]. *)
Fixpoint writeSamples (view : DataView) (offset : nat) (result : list jsnum) : option DataView :=
  match result with
  | [] => Some view
  | x :: rest =>
      let s := clampSample x in
      do view' <- setInt16 view offset (scaleSample s);
      writeSamples view' (offset + 2) rest
  end.

Definition str (s : string) : list ascii := list_ascii_of_string s.

(** [audioBufferToWav]: the bytes of the returned Blob, or [None] when a
    call throws. *)
Definition audioBufferToWav (buffer : AudioBuffer) : option (list Z) :=
  let numChannels := numberOfChannels buffer in
  let format := 1 in
  let bitDepth := 16%nat in
  do result <-
    (if decide (numChannels = 2%nat)
     then
       do left <- getChannelData buffer 0;
       do right <- getChannelData buffer 1;
       Some (interleave left right)
     else getChannelData buffer 0);
  let bytesPerSample := (bitDepth / 8)%nat in
  let blockAlign := (numChannels * bytesPerSample)%nat in
  let bufferLength := (44 + length result * bytesPerSample)%nat in
  let view := newArrayBuffer bufferLength in
  do view <- writeString view 0 (str "RIFF");
  do view <- setUint32 view 4 (ofNat (36 + length result * bytesPerSample));
  do view <- writeString view 8 (str "WAVE");
  do view <- writeString view 12 (str "fmt ");
  do view <- setUint32 view 16 (ofZ 16);
  do view <- setUint16 view 20 (ofZ format);
  do view <- setUint16 view 22 (ofNat numChannels);
  do view <- setUint32 view 24 (sampleRate buffer);
  do view <- setUint32 view 28 (mul (sampleRate buffer) (ofNat blockAlign));
  do view <- setUint16 view 32 (ofNat blockAlign);
  do view <- setUint16 view 34 (ofNat bitDepth);
  do view <- writeString view 36 (str "data");
  do view <- setUint32 view 40 (ofNat (length result * bytesPerSample));
  writeSamples view 44 result.

(** ** Peak envelope (WaveformTimeline and AudioTrimmerTool, same code) *)

(** [Math.ceil(channels.length / buckets)] *)
Definition ceilDiv (n d : nat) : nat := ((n + d - 1) / d)%nat.

(** The inner loop over one bucket: running minimum and maximum, started at
    [min = 1.0] and [max = -1.0]. *)
Definition bucketMinMax (channels : list jsnum) (step i : nat) : jsnum * jsnum :=
  fold_left
    (fun (acc : jsnum * jsnum) (j : nat) =>
       let idx := (i * step + j)%nat in
       if decide (idx < length channels)%nat
       then
         let val := elemOrNaN channels idx in
         let min := if lt val (fst acc) then val else fst acc in
         let max := if gt val (snd acc) then val else snd acc in
         (min, max)
       else acc)
    (seq 0 step)
    (Fin 1, Fin (-1)).

(** The outer loop: [peaks[i * 2] = min; peaks[i * 2 + 1] = max]. *)
Definition computePeaks (buckets : nat) (channels : list jsnum) : list jsnum :=
  let peaks := repeat (Fin 0) (buckets * 2) in
  let step := ceilDiv (length channels) buckets in
  fold_left
    (fun peaks i =>
       let mm := bucketMinMax channels step i in
       <[(i * 2 + 1)%nat := snd mm]> (<[(i * 2)%nat := fst mm]> peaks))
    (seq 0 buckets)
    peaks.

(** [const buckets = 2000] *)
Definition buckets : nat := 2000.

Definition waveformPeaks (channels : list jsnum) : list jsnum :=
  computePeaks buckets channels.

(** ** Subtitles (types.ts) and the active-cue lookup of burnSubtitles *)

Record Subtitle : Type := mkSubtitle {
  id : Z;
  startTime : jsnum;
  endTime : jsnum;
  text : list ascii
}.

(** [currentTime >= s.startTime && currentTime <= s.endTime] *)
Definition cueActive (currentTime : jsnum) (s : Subtitle) : bool :=
  ge currentTime (startTime s) && le currentTime (endTime s).

(** [subtitles.find(s => ...)] *)
Definition activeSubtitle (subtitles : list Subtitle) (currentTime : jsnum) : option Subtitle :=
  find (cueActive currentTime) subtitles.

(** ** The render loops of videoProcessor *)

Inductive recorderState : Type := inactive | recording | paused.

(** What a callback does to its collaborators, in program order. *)
#[warnings="-register-all"]
Inductive effect : Type :=
| DrawImage
| DrawSubtitleText (text : list ascii)
| OnProgress (p : jsnum)
| VideoPause
| RecorderStop
| SetTimeout (callback : recorderState -> list effect) (ms : Z)
| RequestFrame.

(** What a frame callback can observe of the [video] element. *)
Record VideoState : Type := mkVideoState {
  currentTime : jsnum;
  duration : jsnum;
  v_paused : bool;
  v_ended : bool
}.

(** [burnSubtitles]: [video.onended] *)
Definition burn_onended : list effect :=
  [ OnProgress (Fin 100);
    SetTimeout
      (fun state => match state with inactive => [] | _ => [RecorderStop] end)
      1500 ].

(** [burnSubtitles]: [renderFrame] *)
Definition burn_renderFrame (subtitles : list Subtitle) (video : VideoState) : list effect :=
  if v_ended video then []
  else
    (if negb (v_paused video) && negb (v_ended video)
     then
       [DrawImage]
       ++ (match activeSubtitle subtitles (currentTime video) with
           | Some s => [DrawSubtitleText (text s)]
           | None => []
           end)
       ++ (if truthy (duration video)
           then
             let progress := mul (div (currentTime video) (duration video)) (Fin 100) in
             [OnProgress (Math_min progress (Fin 99))]
           else [])
     else [])
    ++ [RequestFrame].

(** [trimVideo]: [renderFrame] *)
Definition trim_renderFrame (startTime endTime : jsnum) (video : VideoState) : list effect :=
  if v_paused video || v_ended video then []
  else
    DrawImage ::
    (if ge (currentTime video) endTime
     then [VideoPause; RecorderStop; OnProgress (Fin 100)]
     else
       let duration := sub endTime startTime in
       let current := sub (currentTime video) startTime in
       [ OnProgress (Math_min (mul (div current duration) (Fin 100)) (Fin 99));
         RequestFrame ]).

(** [convertVideo]: [video.onended] *)
Definition convert_onended : list effect :=
  [RecorderStop; OnProgress (Fin 100)].

(** [convertVideo]: [renderFrame]; [hasCanvas] is [ctx && canvas]. *)
Definition convert_renderFrame (hasCanvas : bool) (video : VideoState) : list effect :=
  if v_paused video || v_ended video then []
  else
    (if hasCanvas then [DrawImage] else [])
    ++ (if truthy (duration video)
        then [OnProgress (Math_min (mul (div (currentTime video) (duration video)) (Fin 100))
                                   (Fin 99))]
        else [])
    ++ [RequestFrame].

Definition isRequestFrame (e : effect) : bool :=
  match e with RequestFrame => true | _ => false end.

Definition isRecorderStop (e : effect) : bool :=
  match e with RecorderStop => true | _ => false end.

Definition isVideoPause (e : effect) : bool :=
  match e with VideoPause => true | _ => false end.

(** The render loop: one callback per delivered frame, for as long as the
    callback asks for the next frame. *)
Fixpoint renderLoop (renderFrame : VideoState -> list effect) (frames : list VideoState)
  : list effect :=
  match frames with
  | [] => []
  | video :: rest =>
      let es := renderFrame video in
      es ++ (if existsb isRequestFrame es then renderLoop renderFrame rest else [])
  end.

(** The progress values a trace reports before the recorder is stopped. *)
Fixpoint progressUntilStop (es : list effect) : list jsnum :=
  match es with
  | [] => []
  | RecorderStop :: _ => []
  | OnProgress p :: rest => p :: progressUntilStop rest
  | _ :: rest => progressUntilStop rest
  end.

(** The delay of the first timer of a trace whose callback stops a recorder
    that is still recording. *)
Fixpoint settleDelay (es : list effect) : option Z :=
  match es with
  | [] => None
  | SetTimeout callback ms :: rest =>
      if existsb isRecorderStop (callback recording) then Some ms else settleDelay rest
  | _ :: rest => settleDelay rest
  end.

(** The recorder is stopped by the callback itself, not by a timer. *)
Definition stopsNow (es : list effect) : bool := existsb isRecorderStop es.

(** The source is paused before the recorder is stopped in the same callback. *)
Fixpoint pausedBeforeStop (es : list effect) : bool :=
  match es with
  | [] => false
  | VideoPause :: rest => existsb isRecorderStop rest
  | RecorderStop :: _ => false
  | _ :: rest => pausedBeforeStop rest
  end.

(** ** Format negotiation (videoProcessor) *)

Section Negotiation.

(** [MediaRecorder.isTypeSupported], and the two case conversions of the
    host's strings. *)
Variable isTypeSupported : list ascii -> bool.
Variable toLowerCase : list ascii -> list ascii.
Variable toUpperCase : list ascii -> list ascii.

(** What [onloadedmetadata] does once the format is settled: the promise is
    rejected with [new Error(message)], or a [MediaRecorder] is constructed
    with [mimeType]. *)
Inductive negotiation : Type :=
| Reject (message : list ascii)
| Record (mimeType : list ascii).

(** [candidates.find(type => MediaRecorder.isTypeSupported(type)) || fallback]:
    [undefined] and the empty string are falsy. *)
Definition findOr (candidates : list (list ascii)) (fallback : list ascii) : list ascii :=
  match find isTypeSupported candidates with
  | Some (c :: t) => c :: t
  | _ => fallback
  end.

Definition isEmpty (s : list ascii) : bool :=
  match s with [] => true | _ => false end.

(** [===] on strings. *)
Fixpoint str_eqb (a b : list ascii) : bool :=
  match a, b with
  | [], [] => true
  | x :: a', y :: b' => Ascii.eqb x y && str_eqb a' b'
  | _, _ => false
  end.

Definition includes (l : list (list ascii)) (s : list ascii) : bool :=
  existsb (fun x => str_eqb x s) l.

(** The double-quote character of the codec strings. *)
Definition dquote : ascii := "034"%char.

(** [prefix"inner"] *)
Definition quoted (prefix inner : string) : list ascii :=
  str prefix ++ dquote :: str inner ++ [dquote].

Definition burn_candidates : list (list ascii) :=
  [ str "video/mp4";
    str "video/mp4;codecs=avc1";
    quoted "video/mp4;codecs=" "avc1.42E01E, mp4a.40.2";
    quoted "video/mp4;codecs=" "avc1.4d002a, mp4a.40.2";
    quoted "video/mp4;codecs=" "avc1.64001f, mp4a.40.2";
    str "video/mp4;codecs=h264";
    str "video/webm;codecs=h264";
    str "video/webm;codecs=vp9";
    str "video/webm" ].

Definition burn_negotiate : negotiation :=
  let selectedMimeType := findOr burn_candidates [] in
  if isEmpty selectedMimeType
  then Reject (str "No supported video mime type found for recording.")
  else Record selectedMimeType.

Definition trim_candidates : list (list ascii) :=
  [ str "video/mp4;codecs=avc1";
    str "video/mp4";
    str "video/webm;codecs=h264";
    str "video/webm" ].

Definition trim_negotiate : negotiation :=
  let selectedMimeType := findOr trim_candidates (str "video/webm") in
  Record selectedMimeType.

Definition audioCandidates : list (list ascii) :=
  [ str "audio/webm;codecs=opus"; str "audio/webm"; str "audio/mp4" ].

Definition mp4Compatible : list (list ascii) :=
  [ str "mp4"; str "m4v"; str "mov"; str "qt"; str "3gp"; str "moov" ].

Definition mp4Candidates : list (list ascii) :=
  [ str "video/mp4;codecs=avc1";
    quoted "video/mp4;codecs=" "avc1.42E01E, mp4a.40.2";
    str "video/mp4" ].

Definition webmCandidates : list (list ascii) :=
  [ str "video/webm;codecs=vp9"; str "video/webm;codecs=h264"; str "video/webm" ].

Definition isAudioOnly (targetFormat : list ascii) : bool :=
  includes [str "weba"; str "mpa"] (toLowerCase targetFormat).

Definition convert_negotiate (targetFormat : list ascii) : negotiation :=
  let selectedMimeType :=
    if isAudioOnly targetFormat
    then findOr audioCandidates []
    else
      let selectedMimeType :=
        if includes mp4Compatible targetFormat
        then findOr mp4Candidates []
        else [] in
      if isEmpty selectedMimeType
      then findOr webmCandidates []
      else selectedMimeType in
  if isEmpty selectedMimeType
  then Reject (str "Your browser cannot encode to a format compatible with "
               ++ toUpperCase targetFormat
               ++ str ". Try using Chrome or Edge.")
  else Record selectedMimeType.

(** The candidates [convertVideo] ends up querying, in query order. *)
Definition convert_candidates (targetFormat : list ascii) : list (list ascii) :=
  if isAudioOnly targetFormat then audioCandidates
  else if includes mp4Compatible targetFormat then mp4Candidates ++ webmCandidates
  else webmCandidates.

End Negotiation.

Arguments Reject message%_list.
Arguments Record mimeType%_list.

(** Case conversion of the ASCII letters, for concrete runs. *)
Definition asciiLower (c : ascii) : ascii :=
  let n := nat_of_ascii c in
  if (65 <=? n)%nat && (n <=? 90)%nat then ascii_of_nat (n + 32) else c.

Definition asciiUpper (c : ascii) : ascii :=
  let n := nat_of_ascii c in
  if (97 <=? n)%nat && (n <=? 122)%nat then ascii_of_nat (n - 32) else c.

(** ** Offline mixing (AudioJoinerTool.handleMerge) *)

Record AudioTrack : Type := mkAudioTrack {
  track_id : list ascii;
  track_duration : jsnum;
  track_buffer : option AudioBuffer
}.

(** The arguments of [new OfflineAudioContext(numberOfChannels, length, sampleRate)]. *)
Record OfflineContextArgs : Type := mkOfflineContextArgs {
  ctx_numberOfChannels : Z;
  ctx_length : jsnum;
  ctx_sampleRate : jsnum
}.

(** What a run of [handleMerge] asks of the host and leaves in the state
    of the component: the context it constructs, the
    [source.start(currentTime)] calls it makes, the values it gives to
    [setProgress], the error message it sets and the Blob it stores
    ([None]: [setMergedBlob] is not called). *)
Record MergeRun : Type := mkMergeRun {
  run_ctx : option OfflineContextArgs;
  run_starts : list (AudioBuffer * jsnum);
  run_progress : list jsnum;
  run_error : option (list ascii);
  run_blob : option (list Z)
}.

(** The state of the [tracks.forEach] loop: the calls made, the running
    [currentTime], the progress values set, and whether a call has thrown. *)
Record MixLoop : Type := mkMixLoop {
  mix_starts : list (AudioBuffer * jsnum);
  mix_currentTime : jsnum;
  mix_progress : list jsnum;
  mix_thrown : bool
}.

Definition mergeFailure : list ascii :=
  str "Failed to merge audio files. Browser memory might be full.".

Section OfflineMixing.

(** The sum, the product and the quotient of two numbers as the host
    computes them: the exact result rounded to a number of the host.
    Durations are no whole numbers, so their sums and the length of the
    context depend on that rounding. *)
Variable add64 : jsnum -> jsnum -> jsnum.
Variable mul64 : jsnum -> jsnum -> jsnum.
Variable div64 : jsnum -> jsnum -> jsnum.

(** The calls of the Web Audio API inside the [try] block, each of which
    can throw: the constructor of the context ([false]: it throws); a
    source created, connected and started at a time ([false]: it throws);
    [startRendering] on the context with the sources started ([None]: the
    promise is rejected). *)
Variable newOfflineAudioContext : OfflineContextArgs -> bool.
Variable sourceStart : AudioBuffer -> jsnum -> bool.
Variable startRendering :
  OfflineContextArgs -> list (AudioBuffer * jsnum) -> option AudioBuffer.

Definition totalDuration (tracks : list AudioTrack) : jsnum :=
  fold_left (fun acc track => add64 acc (track_duration track)) tracks (Fin 0).

(** One pass of [tracks.forEach((track, index) => ...)] over [count]
    tracks; after a throw the remaining passes do not happen. *)
Definition scheduleTrack (count : nat) (loop : MixLoop) (item : nat * AudioTrack)
  : MixLoop :=
  let '(index, track) := item in
  if mix_thrown loop then loop
  else
    match track_buffer track with
    | None => loop
    | Some buffer =>
        let calls := mix_starts loop ++ [(buffer, mix_currentTime loop)] in
        if sourceStart buffer (mix_currentTime loop)
        then
          mkMixLoop calls
            (add64 (mix_currentTime loop) (track_duration track))
            (mix_progress loop
             ++ [Math_round
                   (mul64 (div64 (ofNat (index + 1)) (ofNat count)) (Fin 50))])
            false
        else mkMixLoop calls (mix_currentTime loop) (mix_progress loop) true
    end.

Definition handleMerge (tracks : list AudioTrack) : MergeRun :=
  if (length tracks <? 2)%nat
  then mkMergeRun None [] [] (Some (str "Please add at least 2 audio files to join.")) None
  else
    let failed ctx starts progress :=
      mkMergeRun (Some ctx) starts progress (Some mergeFailure) None in
    let sampleRate := Fin 44100 in
    let numberOfChannels := 2 in
    let offlineCtx :=
      mkOfflineContextArgs numberOfChannels (mul64 sampleRate (totalDuration tracks))
        sampleRate in
    if negb (newOfflineAudioContext offlineCtx)
    then failed offlineCtx [] [Fin 0]
    else
      let loop :=
        fold_left (scheduleTrack (length tracks))
          (combine (seq 0 (length tracks)) tracks)
          (mkMixLoop [] (Fin 0) [Fin 0] false) in
      if mix_thrown loop
      then failed offlineCtx (mix_starts loop) (mix_progress loop)
      else
        match startRendering offlineCtx (mix_starts loop) with
        | None => failed offlineCtx (mix_starts loop) (mix_progress loop)
        | Some renderedBuffer =>
            match audioBufferToWav renderedBuffer with
            | None =>
                failed offlineCtx (mix_starts loop) (mix_progress loop ++ [Fin 80])
            | Some wavBlob =>
                mkMergeRun (Some offlineCtx) (mix_starts loop)
                  (mix_progress loop ++ [Fin 80; Fin 100]) None (Some wavBlob)
            end
        end.

End OfflineMixing.

(** The [length] argument of [OfflineAudioContext] is a Web IDL
    [unsigned long]: the number passed is converted like ToUint32, which
    drops its fraction. *)
Definition contextFrames (args : OfflineContextArgs) : Z :=
  ToUint32 (ctx_length args).

(** ** Strings of the host (code units below 256) *)

Definition LF : ascii := "010"%char.
Definition CR : ascii := "013"%char.

(** White space and line terminators: what [\s] matches and [trim] strips
    (TAB, LF, VT, FF, CR, SPACE, NBSP). *)
Definition is_space (c : ascii) : bool :=
  let n := nat_of_ascii c in
  ((9 <=? n)%nat && (n <=? 13)%nat) || (n =? 32)%nat || (n =? 160)%nat.

(** [\d] *)
Definition is_digit (c : ascii) : bool :=
  let n := nat_of_ascii c in (48 <=? n)%nat && (n <=? 57)%nat.

Fixpoint trimStart (s : list ascii) : list ascii :=
  match s with
  | c :: s' => if is_space c then trimStart s' else s
  | [] => []
  end.

Definition trimEnd (s : list ascii) : list ascii := rev (trimStart (rev s)).

Definition trim (s : list ascii) : list ascii := trimEnd (trimStart s).

Fixpoint startsWith (p s : list ascii) : bool :=
  match p, s with
  | [], _ => true
  | x :: p', y :: s' => Ascii.eqb x y && startsWith p' s'
  | _ :: _, [] => false
  end.

(** [s.includes(p)] *)
Fixpoint includesStr (p s : list ascii) : bool :=
  startsWith p s ||
  match s with
  | [] => false
  | _ :: s' => includesStr p s'
  end.

(** [s.split(c)] for a one-character separator. *)
Fixpoint splitChar (c : ascii) (s : list ascii) : list (list ascii) :=
  match s with
  | [] => [[]]
  | x :: s' =>
      if Ascii.eqb x c then [] :: splitChar c s'
      else
        match splitChar c s' with
        | piece :: pieces => (x :: piece) :: pieces
        | [] => [[x]]
        end
  end.

(** [pieces.join(sep)] *)
Fixpoint join (sep : list ascii) (pieces : list (list ascii)) : list ascii :=
  match pieces with
  | [] => []
  | [p] => p
  | p :: rest => p ++ sep ++ join sep rest
  end.

(** [s.replace(a, b)] with one-character strings: the first occurrence only. *)
Fixpoint replaceFirst (a b : ascii) (s : list ascii) : list ascii :=
  match s with
  | [] => []
  | x :: s' => if Ascii.eqb x a then b :: s' else x :: replaceFirst a b s'
  end.

(** [s.replace(/\r\n/g, '\n')] *)
Fixpoint replaceCRLF (s : list ascii) : list ascii :=
  match s with
  | [] => []
  | x :: s' =>
      match s' with
      | y :: s'' =>
          if Ascii.eqb x CR && Ascii.eqb y LF then LF :: replaceCRLF s''
          else x :: replaceCRLF s'
      | [] => [x]
      end
  end.

(** [s.replace(/\r/g, '\n')] *)
Definition replaceCR (s : list ascii) : list ascii :=
  map (fun c => if Ascii.eqb c CR then LF else c) s.

(** [s.slice(-n)] *)
Definition sliceLast (n : nat) (s : list ascii) : list ascii :=
  skipn (length s - n) s.

(** ** Regular expressions

    The fragment the sources use: literals, character classes, greedy [*]
    and [{min,max}] on a class, an optional group, capturing groups that
    are not nested, and sequencing.  Matching is by backtracking, the
    greedy alternative first, as in the host. *)

Inductive regex : Type :=
| Chr (c : ascii)
| Cls (p : ascii -> bool)
| Star (p : ascii -> bool)
| Rep (p : ascii -> bool) (min max : nat)
| Opt (r : regex)
| Grp (r : regex)
| Seq (r1 r2 : regex).

Section Matcher.

Context {R : Type}.

Fixpoint starP (p : ascii -> bool) (s : list ascii) (k : list ascii -> option R) : option R :=
  match s with
  | c :: s' =>
      if p c
      then match starP p s' k with Some r => Some r | None => k s end
      else k s
  | [] => k []
  end.

Fixpoint repP (p : ascii -> bool) (min max : nat) (s : list ascii)
  (k : list ascii -> option R) : option R :=
  let stop := match min with O => k s | S _ => None end in
  match max with
  | O => stop
  | S max' =>
      match s with
      | c :: s' =>
          if p c
          then match repP p (pred min) max' s' k with Some r => Some r | None => stop end
          else stop
      | [] => stop
      end
  end.

Fixpoint rmatch (r : regex) (s : list ascii) (caps : list (list ascii))
  (k : list ascii -> list (list ascii) -> option R) : option R :=
  match r with
  | Chr c =>
      match s with
      | x :: s' => if Ascii.eqb x c then k s' caps else None
      | [] => None
      end
  | Cls p =>
      match s with
      | x :: s' => if p x then k s' caps else None
      | [] => None
      end
  | Star p => starP p s (fun s' => k s' caps)
  | Rep p min max => repP p min max s (fun s' => k s' caps)
  | Opt r' =>
      match rmatch r' s caps k with
      | Some x => Some x
      | None => k s caps
      end
  | Grp r' =>
      rmatch r' s caps
        (fun s' caps' => k s' (caps' ++ [firstn (length s - length s') s]))
  | Seq r1 r2 => rmatch r1 s caps (fun s' caps' => rmatch r2 s' caps' k)
  end.

End Matcher.

(** A match anchored at the start of [s]: the rest of the input after the
    match and the captured groups. *)
Definition matchAt (r : regex) (s : list ascii) : option (list ascii * list (list ascii)) :=
  rmatch r s [] (fun s' caps => Some (s', caps)).

(** [s.match(r)] without the [g] flag: the captures of the leftmost match. *)
Fixpoint regexMatch (r : regex) (s : list ascii) : option (list (list ascii)) :=
  match matchAt r s with
  | Some (_, caps) => Some caps
  | None =>
      match s with
      | [] => None
      | _ :: s' => regexMatch r s'
      end
  end.

(** [s.split(r)] for a separator without groups.  [skip] counts the
    characters of the current match that are still to be passed over,
    [piece] holds the current piece in reverse. *)
Fixpoint splitGo (r : regex) (skip : nat) (piece : list ascii) (s : list ascii)
  : list (list ascii) :=
  match s with
  | [] => [rev piece]
  | c :: s' =>
      match skip with
      | S n => splitGo r n piece s'
      | O =>
          match matchAt r s with
          | Some (rest, _) =>
              match (length s - length rest)%nat with
              | O =>
                  match piece with
                  | [] => splitGo r 0 [c] s'
                  | _ => rev piece :: splitGo r 0 [c] s'
                  end
              | S n => rev piece :: splitGo r n [] s'
              end
          | None => splitGo r 0 (c :: piece) s'
          end
      end
  end.

Definition splitRegex (r : regex) (s : list ascii) : list (list ascii) :=
  splitGo r 0 [] s.

(** ** [Number(string)] and number printing *)

Fixpoint spanDigits (s : list ascii) : list ascii * list ascii :=
  match s with
  | c :: s' =>
      if is_digit c
      then let r := spanDigits s' in (c :: fst r, snd r)
      else ([], s)
  | [] => ([], [])
  end.

(** The value of one digit in a radix up to 16, if it is one. *)
Definition digitValue (radix : Z) (c : ascii) : option Z :=
  let n := Z.of_nat (nat_of_ascii c) in
  let v :=
    if (48 <=? n) && (n <=? 57) then n - 48
    else if (97 <=? n) && (n <=? 102) then n - 87
    else if (65 <=? n) && (n <=? 70) then n - 55
    else 16 in
  if v <? radix then Some v else None.

(** The digits of [s] read in [radix], most significant first. *)
Fixpoint digitsValue (radix : Z) (acc : Z) (s : list ascii) : option Z :=
  match s with
  | [] => Some acc
  | c :: s' =>
      match digitValue radix c with
      | Some v => digitsValue radix (radix * acc + v) s'
      | None => None
      end
  end.

Definition decimalValue (s : list ascii) : Z :=
  match digitsValue 10 0 s with Some v => v | None => 0 end.

(** [10 ^ e] for any integer [e]. *)
Definition pow10 (e : Z) : Q :=
  if 0 <=? e then inject_Z (10 ^ e) else / inject_Z (10 ^ (- e)).

(** ExponentPart, or nothing, up to the end of the string. *)
Definition exponentPart (s : list ascii) : option Z :=
  match s with
  | [] => Some 0
  | c :: s' =>
      if Ascii.eqb c "e" || Ascii.eqb c "E"
      then
        let '(negative, ds) :=
          match s' with
          | "-"%char :: t => (true, t)
          | "+"%char :: t => (false, t)
          | _ => (false, s')
          end in
        match spanDigits ds with
        | (d :: e, []) => Some (if negative then - decimalValue (d :: e) else decimalValue (d :: e))
        | _ => None
        end
      else None
  end.

(** StrUnsignedDecimalLiteral without [Infinity]. *)
Definition unsignedDecimal (s : list ascii) : option Q :=
  let '(ip, r1) := spanDigits s in
  let '(fp, r2) :=
    match r1 with
    | "."%char :: t => spanDigits t
    | _ => ([], r1)
    end in
  match ip ++ fp with
  | [] => None
  | ds =>
      match exponentPart r2 with
      | Some e => Some (inject_Z (decimalValue ds) * pow10 (e - Z.of_nat (length fp)))%Q
      | None => None
      end
  end.

Definition strDecimalLiteral (s : list ascii) : jsnum :=
  let '(negative, u) :=
    match s with
    | "-"%char :: t => (true, t)
    | "+"%char :: t => (false, t)
    | _ => (false, s)
    end in
  if str_eqb u (str "Infinity")
  then (if negative then NInf else PInf)
  else
    match unsignedDecimal u with
    | Some q => Fin (Qred (if negative then - q else q))
    | None => NaN
    end.

Definition nonDecimalLiteral (radix : Z) (ds : list ascii) : jsnum :=
  match ds with
  | [] => NaN
  | _ =>
      match digitsValue radix 0 ds with
      | Some v => ofZ v
      | None => NaN
      end
  end.

(** [Number(s)]: StringToNumber.  The value of a literal is kept exact. *)
Definition Number (s : list ascii) : jsnum :=
  match trim s with
  | [] => Fin 0
  | "0"%char :: "x"%char :: ds | "0"%char :: "X"%char :: ds => nonDecimalLiteral 16 ds
  | "0"%char :: "o"%char :: ds | "0"%char :: "O"%char :: ds => nonDecimalLiteral 8 ds
  | "0"%char :: "b"%char :: ds | "0"%char :: "B"%char :: ds => nonDecimalLiteral 2 ds
  | t => strDecimalLiteral t
  end.

(** The decimal digits of a natural number. *)
Definition natToString (n : nat) : list ascii :=
  list_ascii_of_string (NilZero.string_of_uint (Nat.to_uint n)).

(** [String(x)] for the values this program prints: the special values and
    integers (the results of [Math.floor], [Math.round] and array indices). *)
Definition numberToString (x : jsnum) : list ascii :=
  match x with
  | NaN => str "NaN"
  | PInf => str "Infinity"
  | NInf => str "-Infinity"
  | Fin q =>
      let z := Qfloor q in
      if z <? 0 then "-"%char :: natToString (Z.to_nat (- z))
      else natToString (Z.to_nat z)
  end.

(** ** subtitleHelpers *)

(** [timeToSeconds]; [None] stands for [undefined] and [null].  The
    quotient by 1000 and the sums are exact; the host computes the same
    expression with each result rounded. *)
Definition timeToSeconds (timeString : option (list ascii)) : jsnum :=
  match timeString with
  | None | Some [] => Fin 0
  | Some timeString =>
      let normalized := replaceFirst "." "," timeString in
      let '(timePart, milliseconds) :=
        if includesStr (str ",") normalized
        then
          let split := splitChar "," normalized in
          (nth 0 split [],
           match nth_error split 1 with
           | Some (c :: t) => c :: t
           | _ => str "0"
           end)
        else (normalized, str "0") in
      let parts := map Number (splitChar ":" timePart) in
      let '(hours, minutes, seconds) :=
        match parts with
        | [h; m; s] => (h, m, s)
        | [m; s] => (Fin 0, m, s)
        | [s] => (Fin 0, Fin 0, s)
        | _ => (Fin 0, Fin 0, Fin 0)
        end in
      let result :=
        add (add (add (mul hours (Fin 3600)) (mul minutes (Fin 60))) seconds)
            (div (or_else (Number milliseconds) (Fin 0)) (Fin 1000)) in
      if isNaN result then Fin 0 else result
  end.

(** [/\n\s*\n/] *)
Definition blockSeparator : regex :=
  Seq (Chr LF) (Seq (Star is_space) (Chr LF)).

(** [\d{1,2}:\d{2}:\d{2}(?:[,.]\d{1,3})?] *)
Definition timestampRe : regex :=
  Seq (Rep is_digit 1 2) (Seq (Chr ":") (Seq (Rep is_digit 2 2) (Seq (Chr ":")
  (Seq (Rep is_digit 2 2)
       (Opt (Seq (Cls (fun c => Ascii.eqb c "," || Ascii.eqb c ".")) (Rep is_digit 1 3))))))).

(** [/(timestamp)\s*-->\s*(timestamp)/] *)
Definition timeLineRe : regex :=
  Seq (Grp timestampRe)
  (Seq (Star is_space) (Seq (Chr "-") (Seq (Chr "-") (Seq (Chr ">")
  (Seq (Star is_space) (Grp timestampRe)))))).

(** [lines.findIndex(line => line.includes('-->'))]; [None] is [-1]. *)
Fixpoint findTimeLine (lines : list (list ascii)) : option nat :=
  match lines with
  | [] => None
  | line :: rest =>
      if includesStr (str "-->") line then Some O
      else match findTimeLine rest with Some i => Some (S i) | None => None end
  end.

(** The body of [blocks.forEach]: the subtitles pushed so far, extended. *)
Definition parseBlock (subtitles : list Subtitle) (block : list ascii) : list Subtitle :=
  let lines := splitChar LF (trim block) in
  match findTimeLine lines with
  | None => subtitles
  | Some timeLineIndex =>
      let timeLine := nth timeLineIndex lines [] in
      match regexMatch timeLineRe timeLine with
      | Some [m1; m2] =>
          let startTime := timeToSeconds (Some m1) in
          let endTime := timeToSeconds (Some m2) in
          let text := trim (join [LF] (skipn (timeLineIndex + 1) lines)) in
          match text with
          | [] => subtitles
          | _ =>
              subtitles ++
              [mkSubtitle (Z.of_nat (length subtitles) + 1) startTime endTime text]
          end
      | _ => subtitles
      end
  end.

Definition parseSRT (srtContent : list ascii) : list Subtitle :=
  let normalized := replaceCR (replaceCRLF srtContent) in
  let blocks := splitRegex blockSeparator normalized in
  fold_left parseBlock blocks [].

(** [('000' + num).slice(size * -1)] *)
Definition pad (num : jsnum) (size : nat) : list ascii :=
  sliceLast size (str "000" ++ numberToString num).

(** [secondsToTime], with the exact quotients and the exact product
    [(seconds % 1) * 1000]: where that product is within a rounding error
    of a half, the host may print a millisecond more. *)
Definition secondsToTime (seconds : jsnum) (separator : list ascii) : list ascii :=
  let h := Math_floor (div seconds (Fin 3600)) in
  let m := Math_floor (div (rem seconds (Fin 3600)) (Fin 60)) in
  let s := Math_floor (rem seconds (Fin 60)) in
  let ms := Math_round (mul (rem seconds (Fin 1)) (Fin 1000)) in
  pad h 2 ++ str ":" ++ pad m 2 ++ str ":" ++ pad s 2 ++ separator ++ pad ms 3.

(** One block of [generateSRT], for the cue at [index]. *)
Definition srtBlock (index : nat) (sub : Subtitle) : list ascii :=
  natToString (index + 1) ++ [LF]
  ++ secondsToTime (startTime sub) (str ",") ++ str " --> "
  ++ secondsToTime (endTime sub) (str ",") ++ [LF]
  ++ text sub.

Fixpoint mapi {A B : Type} (f : nat -> A -> B) (index : nat) (l : list A) : list B :=
  match l with
  | [] => []
  | x :: l' => f index x :: mapi f (S index) l'
  end.

Definition generateSRT (subtitles : list Subtitle) : list ascii :=
  join [LF; LF] (mapi srtBlock 0 subtitles).

(** ** Vocabulary of the statements *)

(** *** Audio *)

(** A sample of conventional amplitude: finite and within [-1, 1]. *)
Definition in_unit (x : jsnum) : Prop :=
  exists q : Q, x = Fin q /\ (-1 <= q)%Q /\ (q <= 1)%Q.

(** A track that carries its decoded buffer. *)
Definition decoded_track (track : AudioTrack) (buffer : AudioBuffer) : Prop :=
  track_buffer track = Some buffer.

(** The running sum of the first [i] durations, from [from]. *)
Definition startOf (add64 : jsnum -> jsnum -> jsnum) (tracks : list AudioTrack)
  (from : jsnum) (i : nat) : jsnum :=
  fold_left add64 (take i (map track_duration tracks)) from.

(** *** Video *)

(** [Math.min((x / d) * 100, 99)] for finite [x] and positive [d]. *)
Definition percentCapped (x d : Q) : jsnum :=
  Math_min (mul (div (Fin x) (Fin d)) (Fin 100)) (Fin 99).

(** The first candidate of a list that the host supports. *)
Definition first_supported (isTypeSupported : list ascii -> bool)
  (candidates : list (list ascii)) (t : list ascii) : Prop :=
  exists before after : list (list ascii),
    candidates = before ++ t :: after /\
    isTypeSupported t = true /\
    Forall (fun c => isTypeSupported c = false) before.

Definition none_supported (isTypeSupported : list ascii -> bool)
  (candidates : list (list ascii)) : Prop :=
  Forall (fun c => isTypeSupported c = false) candidates.

(** *** Time strings *)

(** The parts [timeToSeconds] reads from a string: the colon-separated
    pieces of what precedes the first separator, and the piece after it. *)
Definition timeParts (timeString : list ascii) : list (list ascii) :=
  splitChar ":" (nth 0 (splitChar "," (replaceFirst "." "," timeString)) []).

Definition millisecondsPart (timeString : list ascii) : option (list ascii) :=
  nth_error (splitChar "," (replaceFirst "." "," timeString)) 1.

(** What the body of [timeToSeconds] computes once the string is taken apart. *)
Definition timeFromParts (parts : list jsnum) (milliseconds : list ascii) : jsnum :=
  let '(hours, minutes, seconds) :=
    match parts with
    | [h; m; s] => (h, m, s)
    | [m; s] => (Fin 0, m, s)
    | [s] => (Fin 0, Fin 0, s)
    | _ => (Fin 0, Fin 0, Fin 0)
    end in
  let result :=
    add (add (add (mul hours (Fin 3600)) (mul minutes (Fin 60))) seconds)
        (div (or_else (Number milliseconds) (Fin 0)) (Fin 1000)) in
  if isNaN result then Fin 0 else result.

(** A field of [n] digits. *)
Definition digits (n : nat) (ds : list ascii) : Prop :=
  length ds = n /\ Forall (fun c => is_digit c = true) ds.

(** [HH:MM:SS,mmm] from its four fields. *)
Definition timestamp (H M S K : list ascii) : list ascii :=
  H ++ ":"%char :: M ++ ":"%char :: S ++ ","%char :: K.

(** The characters of a generated time line. *)
Definition timeChar (c : ascii) : bool :=
  is_digit c || Ascii.eqb c ":" || Ascii.eqb c "," || Ascii.eqb c " "
  || Ascii.eqb c "-" || Ascii.eqb c ">".

(** The second line of a generated block. *)
Definition timeLine (T1 T2 : list ascii) : list ascii := T1 ++ str " --> " ++ T2.

#[local] Instance Q_eq_dec : EqDecision Q.
Proof. solve_decision. Defined.

#[local] Instance jsnum_eq_dec : EqDecision jsnum.
Proof. solve_decision. Defined.

(** For every [n] below [bound], [pad(n, size)] has [size] characters, all
    digits, and reads back as [n]. *)
Definition padCheck (size bound : nat) : bool :=
  forallb
    (fun n =>
       let p := pad (ofNat n) size in
       (length p =? size)%nat && forallb is_digit p && bool_decide (Number p = ofNat n))
    (seq 0 bound).

(** *** Regular expressions on the greedy path *)

(** The input stops the run of a class: it is empty or its first character
    is outside the class. *)
Definition stops (p : ascii -> bool) (rest : list ascii) : Prop :=
  match rest with
  | [] => True
  | c :: _ => p c = false
  end.

(** What follows [\n] in the block separator: [\s*\n]. *)
Definition afterSeparatorLF (s : list ascii) : option (list ascii * list (list ascii)) :=
  starP is_space s
    (fun s' =>
       match s' with
       | x :: t => if Ascii.eqb x LF then Some (t, []) else None
       | [] => None
       end).

(** *** Cues that survive the SRT format *)

(** A line with a character that is not white space. *)
Definition hasInk (line : list ascii) : bool :=
  existsb (fun c => negb (is_space c)) line.

(** The first line of [s] has ink. *)
Fixpoint inkFirst (s : list ascii) : bool :=
  match s with
  | [] => false
  | c :: s' =>
      if is_space c
      then (if Ascii.eqb c LF then false else inkFirst s')
      else true
  end.

(** Every line of [b] has ink: the first one, and the one after each LF. *)
Definition solid (b : list ascii) : Prop :=
  inkFirst b = true /\
  forall pre post : list ascii, b = pre ++ LF :: post -> inkFirst post = true.

(** Text that an SRT block carries unchanged: no carriage return, no white
    space at either end, and no line that is empty or all white space. *)
Definition srtText (text : list ascii) : Prop :=
  Forall (fun c => c <> CR) text /\
  trim text = text /\
  Forall (fun line => hasInk line = true) (splitChar LF text).

(** A time the [HH:MM:SS,mmm] format can carry: below 100 hours, and with a
    fraction of at most 0.999 s, so that the milliseconds printed stay below
    1000 however the host rounds the product [(seconds % 1) * 1000]. *)
Definition srtTime (q : Q) : Prop :=
  (0 <= q)%Q /\ (q < 360000)%Q /\ (q - inject_Z (Qfloor q) <= 999 # 1000)%Q.

(** [q] rounded to the nearest millisecond, as [secondsToTime] rounds. *)
Definition roundToMs (q : Q) : Q :=
  Qred (inject_Z (Qfloor q)
        + inject_Z (Qfloor ((q - inject_Z (Qfloor q)) * 1000 + (1 # 2))) / 1000).

Definition roundTime (x : jsnum) : jsnum :=
  match x with
  | Fin q => Fin (roundToMs q)
  | _ => x
  end.

Definition srtCue (sub : Subtitle) : Prop :=
  (exists a : Q, startTime sub = Fin a /\ srtTime a) /\
  (exists b : Q, endTime sub = Fin b /\ srtTime b) /\
  srtText (text sub).

(** The cue at [index] with its times rounded to the millisecond. *)
Definition reparsed (index : nat) (sub : Subtitle) : Subtitle :=
  mkSubtitle (Z.of_nat index + 1) (roundTime (startTime sub)) (roundTime (endTime sub))
    (text sub).

(** The cue a round trip gives back for the cue at [index]: its times are
    what [timeToSeconds] reads from the stamps [secondsToTime] printed. *)
Definition reread (separator : list ascii) (index : nat) (sub : Subtitle) : Subtitle :=
  mkSubtitle (Z.of_nat index + 1)
    (timeToSeconds (Some (secondsToTime (startTime sub) separator)))
    (timeToSeconds (Some (secondsToTime (endTime sub) separator)))
    (text sub).

(** ** Concrete inputs *)

(** Three frames of mono audio. *)
Definition mono_buffer : AudioBuffer :=
  mkAudioBuffer 1 (Fin 44100) [[Fin (1 # 2); Fin (-1); Fin 1]].

(** A quarter of a second of mono audio at 8 kHz: 125 frames at 0.5, then
    125 frames at -1. *)
Definition tone_buffer : AudioBuffer :=
  mkAudioBuffer 1 (Fin 8000) [repeat (Fin (1 # 2)) 125 ++ repeat (Fin (-1)) 125].

(** One frame in three channels. *)
Definition three_channel_buffer : AudioBuffer :=
  mkAudioBuffer 3 (Fin 44100) [[Fin (1 # 2)]; [Fin 0]; [Fin 1]].

(** 375 frames decoded at 192 kHz: 1/512 s. *)
Definition short_track : AudioTrack :=
  mkAudioTrack (str "a") (Fin (1 # 512))
    (Some (mkAudioBuffer 1 (Fin 192000) [repeat (Fin 0) 375])).

(** A host that accepts the context and every start, and whose rendering
    is rejected. *)
Definition acceptContext (args : OfflineContextArgs) : bool := true.
Definition acceptStart (buffer : AudioBuffer) (when : jsnum) : bool := true.
Definition rejectRendering (args : OfflineContextArgs)
  (starts : list (AudioBuffer * jsnum)) : option AudioBuffer := None.

(** Cue A ends at 2.0 where cue B starts. *)
Definition cueA : Subtitle := mkSubtitle 1 (Fin 0) (Fin 2) (str "A").
Definition cueB : Subtitle := mkSubtitle 2 (Fin 2) (Fin 4) (str "B").

(** A well-formed two-line cue. *)
Definition hello_cue : Subtitle :=
  mkSubtitle 7 (Fin 1) (Fin (5 # 2)) (str "Hello" ++ LF :: str "world").

(** A cue with a leading space in its text, and one whose start time has a
    fraction that rounds up to 1000 ms. *)
Definition indented_cue : Subtitle := mkSubtitle 1 (Fin 1) (Fin 2) (str " hi").
Definition late_cue : Subtitle := mkSubtitle 1 (Fin (19996 # 10000)) (Fin 3) (str "hi").

(** Three frames of a playing ten-second video, at 1 s, 2 s and 4 s. *)
Definition playing_frames : list VideoState :=
  [ mkVideoState (Fin 1) (Fin 10) false false;
    mkVideoState (Fin 2) (Fin 10) false false;
    mkVideoState (Fin 4) (Fin 10) false false ].

(** A host that can only record plain WebM, and one that can record nothing. *)
Definition webmOnly (t : list ascii) : bool := str_eqb t (str "video/webm").
Definition nothingSupported (_ : list ascii) : bool := false.

(** * Further code of the sources *)

(** *** The layout of a WAV file, written out *)

Definition uint16le (v : Z) : list Z := [v mod 256; (v / 256) mod 256].

Definition uint32le (v : Z) : list Z :=
  [v mod 256; (v / 256) mod 256; (v / 65536) mod 256; (v / 16777216) mod 256].

(** The two bytes of a 16-bit sample, low byte first. *)
Definition int16le (v : Z) : list Z := uint16le (v mod 65536).

Definition codes (s : string) : list Z := map (fun c => charCodeAt c mod 256) (str s).

(** The 44 bytes before the samples. *)
Definition wavHeader (numChannels : nat) (rate : jsnum) (dataBytes : nat) : list Z :=
  codes "RIFF" ++ uint32le (ToUint32 (ofNat (36 + dataBytes)))
  ++ codes "WAVE" ++ codes "fmt " ++ uint32le (ToUint32 (ofZ 16))
  ++ uint16le (ToUint16 (ofZ 1))
  ++ uint16le (ToUint16 (ofNat numChannels))
  ++ uint32le (ToUint32 rate)
  ++ uint32le (ToUint32 (mul rate (ofNat (numChannels * 2))))
  ++ uint16le (ToUint16 (ofNat (numChannels * 2)))
  ++ uint16le (ToUint16 (ofNat 16))
  ++ codes "data" ++ uint32le (ToUint32 (ofNat dataBytes)).

(** Frame by frame: channel 0, then channel 1. *)
Fixpoint frames2 (left right : list jsnum) : list jsnum :=
  match left, right with
  | l :: left', r :: right' => l :: r :: frames2 left' right'
  | _, _ => []
  end.

(** The samples of a buffer in file order. *)
Definition wavSamples (b : AudioBuffer) : list jsnum :=
  match channelData b with
  | [channel0; channel1] => frames2 channel0 channel1
  | channel0 :: _ => channel0
  | [] => []
  end.

Definition getUint16 (view : DataView) (offset : nat) : option Z :=
  do b0 <- view !! offset;
  do b1 <- view !! S offset;
  Some (b0 + 256 * b1).

(** ** Loops over blocks *)

(** [a.subarray(i, j)] and [a.slice(i, j)] for [0 <= i <= j]. *)
Definition slice {A : Type} (a : list A) (i j : nat) : list A := take (j - i) (drop i a).

(** [for (let i = 0; i < a.length; i += size) chunks.push(a.slice(i, i + size))],
    from position [i] on; the loop is entered at most [fuel] times. *)
Fixpoint sliceLoop {A : Type} (fuel : nat) (size : nat) (a : list A) (i : nat)
  : list (list A) :=
  match fuel with
  | O => []
  | S fuel' =>
      if decide (i < length a)%nat
      then slice a i (i + size) :: sliceLoop fuel' size a (i + size)
      else []
  end.

(** ** The MP3 writer (audioHelpers, [audioBufferToMp3]) *)

Section Mp3.

(** The encoder of lamejs: its state, [new Mp3Encoder(channels, sampleRate,
    kbps)], [encodeBuffer(left, right)] and [flush()] with the bytes they
    return. *)
Variable Mp3Encoder : Type.
Variable newMp3Encoder : nat -> jsnum -> nat -> Mp3Encoder.
Variable encodeBuffer : Mp3Encoder -> list Z -> option (list Z) -> Mp3Encoder * list Z.
Variable flush : Mp3Encoder -> list Z.

(** [if (buf.length > 0) mp3Data.push(buf)] *)
Definition pushNonEmpty (mp3Data : list (list Z)) (buf : list Z) : list (list Z) :=
  match buf with
  | [] => mp3Data
  | _ => mp3Data ++ [buf]
  end.

Definition sampleBlockSize : nat := 1152.

(** The block loop from position [i] on, entered at most [fuel] times. *)
Fixpoint encodeBlocks (fuel : nat) (left : list Z) (right : option (list Z)) (i : nat)
  (mp3encoder : Mp3Encoder) (mp3Data : list (list Z)) : Mp3Encoder * list (list Z) :=
  match fuel with
  | O => (mp3encoder, mp3Data)
  | S fuel' =>
      if decide (i < length left)%nat
      then
        let leftChunk := slice left i (i + sampleBlockSize) in
        let rightChunk :=
          match right with
          | Some samples => Some (slice samples i (i + sampleBlockSize))
          | None => None
          end in
        let '(mp3encoder', mp3buf) := encodeBuffer mp3encoder leftChunk rightChunk in
        encodeBlocks fuel' left right (i + sampleBlockSize) mp3encoder'
          (pushNonEmpty mp3Data mp3buf)
      else (mp3encoder, mp3Data)
  end.

(** [audioBufferToMp3]: the parts of the returned Blob, or [None] when a
    call throws.  Every pass of the loop advances [i], so [left.length]
    passes are enough. *)
Definition audioBufferToMp3 (buffer : AudioBuffer) : option (list (list Z)) :=
  let channels := numberOfChannels buffer in
  let kbps := 128%nat in
  let mp3encoder := newMp3Encoder channels (sampleRate buffer) kbps in
  do channel0 <- getChannelData buffer 0;
  let left := floatTo16BitPCM channel0 in
  do right <-
    (if decide (1 < channels)%nat
     then do channel1 <- getChannelData buffer 1; Some (Some (floatTo16BitPCM channel1))
     else Some None);
  let '(mp3encoder', mp3Data) := encodeBlocks (length left) left right 0 mp3encoder [] in
  Some (pushNonEmpty mp3Data (flush mp3encoder')).

(** The encoder fed with a list of blocks, one call per block. *)
Fixpoint feed (blocks : list (list Z * option (list Z))) (mp3encoder : Mp3Encoder)
  (mp3Data : list (list Z)) : Mp3Encoder * list (list Z) :=
  match blocks with
  | [] => (mp3encoder, mp3Data)
  | (leftChunk, rightChunk) :: rest =>
      let '(mp3encoder', mp3buf) := encodeBuffer mp3encoder leftChunk rightChunk in
      feed rest mp3encoder' (pushNonEmpty mp3Data mp3buf)
  end.

End Mp3.

(** The blocks of [size] elements of a list, the last one shorter when the
    length is no multiple of [size]. *)
Definition blocksOf {A : Type} (size : nat) (a : list A) : list (list A) :=
  sliceLoop (length a) size a 0.

(** The calls of [encodeBuffer] the block loop makes, in order. *)
Fixpoint encoderCalls (fuel : nat) (left : list Z) (right : option (list Z)) (i : nat)
  : list (list Z * option (list Z)) :=
  match fuel with
  | O => []
  | S fuel' =>
      if decide (i < length left)%nat
      then
        (slice left i (i + sampleBlockSize),
         match right with
         | Some samples => Some (slice samples i (i + sampleBlockSize))
         | None => None
         end)
        :: encoderCalls fuel' left right (i + sampleBlockSize)
      else []
  end.

(** ** Canvas size and the trim loop (videoProcessor) *)

(** [x === y] on numbers. *)
Definition strictEq (x y : jsnum) : bool :=
  match x, y with
  | Fin a, Fin b => Qeq_bool a b
  | PInf, PInf | NInf, NInf => true
  | _, _ => false
  end.

(** [n % 2 === 0 ? n : n - 1], the width and the height of the canvas in
    [burnSubtitles], [trimVideo] and [convertVideo]. *)
Definition evenDimension (n : jsnum) : jsnum :=
  if strictEq (rem n (Fin 2)) (Fin 0) then n else sub n (Fin 1).

(** The source is playing: neither paused nor ended. *)
Definition playing (video : VideoState) : bool :=
  negb (v_paused video || v_ended video).

(** What the trim loop does at a frame before the end offset. *)
Definition trimStep (startTime endTime : jsnum) (video : VideoState) : list effect :=
  [ DrawImage;
    OnProgress
      (Math_min (mul (div (sub (currentTime video) startTime) (sub endTime startTime))
                     (Fin 100)) (Fin 99));
    RequestFrame ].

(** ** Post-processing of generated subtitles (geminiService) *)

(** [Math.abs] *)
Definition Math_abs (x : jsnum) : jsnum :=
  match x with
  | NaN => NaN
  | PInf | NInf => PInf
  | Fin q => Fin (Qred (Qabs q))
  end.

(** An element of the parsed response; [None] is a field that is absent. *)
Record Item : Type := mkItem {
  item_text : option (list ascii);
  item_startTime : option (list ascii);
  item_endTime : option (list ascii)
}.

Definition SHIFT_AMOUNT : jsnum := Fin (1 # 100).

(** The callback of [json.map]; [None] is [null]. *)
Definition toSubtitle (index : nat) (item : Item) : option Subtitle :=
  match item_text item, item_startTime item with
  | Some (c :: t), Some _ =>
      let start := timeToSeconds (item_startTime item) in
      let end_ := timeToSeconds (item_endTime item) in
      let start := Math_max (Fin 0) (add start SHIFT_AMOUNT) in
      let end_ := Math_max (add start (Fin (1 # 2))) (add end_ SHIFT_AMOUNT) in
      Some (mkSubtitle (Z.of_nat index + 1) start end_ (c :: t))
  | _, _ => None
  end.

(** [json.map(...).filter(s => s !== null)] *)
Definition parsedSubtitles (json : list Item) : list Subtitle :=
  omap (fun s => s) (mapi toSubtitle 0 json).

(** [calculateAutoSyncOffset], given what [detectAudioOnset] resolves to. *)
Definition calculateAutoSyncOffset (actualAudioStart : jsnum) (subtitles : list Subtitle)
  : jsnum :=
  match subtitles with
  | [] => Fin 0
  | first :: _ =>
      let firstSubtitleStart := startTime first in
      let offset := sub actualAudioStart firstSubtitleStart in
      if gt (Math_abs offset) (Fin 5) then Fin 0 else offset
  end.

(** ** Cleaning a reply (geminiService, [cleanJsonResponse]) *)

(** [s.replace(/p/g, '')] for a literal, non-empty [p]: [skip] counts the
    characters of the current match that are still to be dropped. *)
Fixpoint removeGo (p : list ascii) (skip : nat) (s : list ascii) : list ascii :=
  match s with
  | [] => []
  | c :: s' =>
      match skip with
      | S n => removeGo p n s'
      | O =>
          if startsWith p s then removeGo p (length p - 1) s'
          else c :: removeGo p 0 s'
      end
  end.

Definition removeAll (p : string) (s : list ascii) : list ascii := removeGo (str p) 0 s.

Definition cleanJsonResponse (text : list ascii) : list ascii :=
  let cleaned := removeAll "```" (removeAll "```json" text) in
  trim cleaned.

(** ** Translation of subtitles (geminiService, [translateSubtitles]) *)

Definition CHUNK_SIZE : nat := 60.
Definition CONCURRENCY : nat := 3.

(** A value that [JSON.parse] returns; an object is the list of its
    properties, each key once. *)
Inductive json : Type :=
| JNull
| JBool (b : bool)
| JNum (n : jsnum)
| JStr (s : list ascii)
| JArr (items : list json)
| JObj (fields : list (list ascii * json)).

(** [value.key] for the keys [id] and [text], which no prototype defines:
    the access throws on [null] (the outer [None]) and gives [undefined]
    (the inner [None]) where there is no such property. *)
Definition getProperty (key : list ascii) (value : json) : option (option json) :=
  match value with
  | JNull => None
  | JObj fields =>
      Some (match List.find (fun field => str_eqb (fst field) key) fields with
            | Some field => Some (snd field)
            | None => None
            end)
  | _ => Some None
  end.

(** [o.id === tItem.id] for the number [o.id]. *)
Definition sameId (oId : Z) (tItemId : option json) : bool :=
  match tItemId with
  | Some (JNum n) => strictEq (ofZ oId) n
  | _ => false
  end.

(** A cue of the result, [{ ...original, text: tItem.text }]: the text is
    whatever the reply holds under [text] ([None]: [undefined]). *)
Record TranslatedCue : Type := mkTranslatedCue {
  cue_id : Z;
  cue_startTime : jsnum;
  cue_endTime : jsnum;
  cue_text : option json
}.

(** [a.sort((x, y) => x.id - y.id)]: the sort of the host is stable. *)
Fixpoint insertById (sub : TranslatedCue) (sorted : list TranslatedCue)
  : list TranslatedCue :=
  match sorted with
  | [] => [sub]
  | other :: rest =>
      if cue_id sub <=? cue_id other then sub :: sorted else other :: insertById sub rest
  end.

Definition sortById (subtitles : list TranslatedCue) : list TranslatedCue :=
  fold_right insertById [] subtitles.

(** How a call of [translateSubtitles] ends: it throws for want of a key,
    the merge loop throws a TypeError (the promise is rejected), or the
    sorted cues are returned. *)
Inductive translation : Type :=
| MissingKey
| MergeThrows
| Translated (cues : list TranslatedCue).

(** The state of the batch loop: the cues pushed, the chunks processed,
    the progress reported so far, and whether the merge has thrown. *)
Record TranslateState : Type := mkTranslateState {
  translatedSubtitles : list TranslatedCue;
  processedChunks : nat;
  reported : list jsnum;
  thrown : bool
}.

Section Translate.

(** The key of the API; the empty string stands for a key that is empty or
    not defined. *)
Variable API_KEY : list ascii.

(** [response.text] of the request made for the payload of a chunk (and
    the target language): [None] when the request throws, the empty string
    when there is no text. *)
Variable generateContent : list (Z * list ascii) -> option (list ascii).

(** [JSON.parse]; [None] when it throws. *)
Variable JSON_parse : list ascii -> option json.

(** The quotient and the product of two numbers as the host computes
    them; the progress reported depends on their rounding. *)
Variable div64 : jsnum -> jsnum -> jsnum.
Variable mul64 : jsnum -> jsnum -> jsnum.

(** [chunk.map(s => ({ id: s.id, text: s.text }))], as a value. *)
Definition originalItems (chunk : list Subtitle) : json :=
  JArr (map (fun s => JObj [(str "id", JNum (ofZ (id s))); (str "text", JStr (text s))])
            chunk).

(** The callback of [batch.map]: whatever the reply parses to, or the
    original items when the request or the parsing throws or the text is
    empty. *)
Definition translateChunk (chunk : list Subtitle) : json :=
  let simplePayload := map (fun s => (id s, text s)) chunk in
  match generateContent simplePayload with
  | Some (c :: t) =>
      match JSON_parse (cleanJsonResponse (c :: t)) with
      | Some json => json
      | None => originalItems chunk
      end
  | _ => originalItems chunk
  end.

(** The callback of [translatedChunk.forEach]: [find] reads [tItem.id] for
    every cue of the chunk it looks at, which throws on [null]; an item
    whose id is in the chunk pushes the first cue of that id with the
    item's text. *)
Definition mergeItem (originalChunk : list Subtitle)
  (translated : list TranslatedCue) (tItem : json) : option (list TranslatedCue) :=
  match originalChunk with
  | [] => Some translated
  | _ :: _ =>
      do tItemId <- getProperty (str "id") tItem;
      match List.find (fun o => sameId (id o) tItemId) originalChunk with
      | Some original =>
          do tItemText <- getProperty (str "text") tItem;
          Some (translated
                ++ [mkTranslatedCue (id original) (startTime original) (endTime original)
                      tItemText])
      | None => Some translated
      end
  end.

(** [translatedChunk.forEach(...)], which throws when the value is no
    array. *)
Definition mergeChunk (translated : list TranslatedCue)
  (originalChunk : list Subtitle) (translatedChunk : json)
  : option (list TranslatedCue) :=
  match translatedChunk with
  | JArr items =>
      fold_left
        (fun result tItem =>
           do translated <- result; mergeItem originalChunk translated tItem)
        items (Some translated)
  | _ => None
  end.

(** One pass of the batch loop over [batch = chunks.slice(i, i + CONCURRENCY)];
    after a throw nothing more happens. *)
Definition translateBatch (chunkCount : nat) (state : TranslateState)
  (batch : list (list Subtitle)) : TranslateState :=
  if thrown state then state
  else
    let results := map translateChunk batch in
    let merged :=
      fold_left (fun result '(originalChunk, translatedChunk) =>
                   do translated <- result;
                   mergeChunk translated originalChunk translatedChunk)
                (combine batch results) (Some (translatedSubtitles state)) in
    match merged with
    | None =>
        mkTranslateState (translatedSubtitles state) (processedChunks state)
          (reported state) true
    | Some translated =>
        let processed := (processedChunks state + length batch)%nat in
        mkTranslateState translated processed
          (reported state
           ++ [Math_round (mul64 (div64 (ofNat processed) (ofNat chunkCount)) (Fin 100))])
          false
    end.

(** [translateSubtitles]: how the call ends, and the progress reported. *)
Definition translateSubtitles (subtitles : list Subtitle) : translation * list jsnum :=
  match API_KEY with
  | [] => (MissingKey, [])
  | _ :: _ =>
      let chunks := blocksOf CHUNK_SIZE subtitles in
      let final :=
        fold_left (translateBatch (length chunks)) (blocksOf CONCURRENCY chunks)
          (mkTranslateState [] 0 [] false) in
      (if thrown final then MergeThrows
       else Translated (sortById (translatedSubtitles final)),
       reported final)
  end.

End Translate.

(** The part of a cue that translation must not touch. *)
Definition timing (s : Subtitle) : Z * jsnum * jsnum := (id s, startTime s, endTime s).

Definition cueTiming (c : TranslatedCue) : Z * jsnum * jsnum :=
  (cue_id c, cue_startTime c, cue_endTime c).

(** A reply the merge loop gets through: an array without [null]. *)
Definition mergeable (translatedChunk : json) : bool :=
  match translatedChunk with
  | JArr items =>
      forallb (fun tItem => match tItem with JNull => false | _ => true end) items
  | _ => false
  end.

(** The number under [id] of an item of a reply. *)
Definition itemId (tItem : json) : option jsnum :=
  match getProperty (str "id") tItem with
  | Some (Some (JNum n)) => Some n
  | _ => None
  end.

(** A reply that answers a chunk with the same ids in the same order. *)
Definition faithful (chunk : list Subtitle) (translatedChunk : json) : Prop :=
  exists items : list json,
    translatedChunk = JArr items /\
    map itemId items = map (fun s => Some (ofZ (id s))) chunk.

(** The items of a reply that is an array. *)
Definition itemsOf (translatedChunk : json) : list json :=
  match translatedChunk with
  | JArr items => items
  | _ => []
  end.

(** What an item of a reply adds to the result for a chunk: the first cue
    of the item's id with the item's text, or nothing. *)
Definition picked (chunk : list Subtitle) (tItem : json) : list TranslatedCue :=
  match getProperty (str "id") tItem with
  | Some tItemId =>
      match List.find (fun o => sameId (id o) tItemId) chunk with
      | Some original =>
          match getProperty (str "text") tItem with
          | Some tItemText =>
              [mkTranslatedCue (id original) (startTime original) (endTime original)
                 tItemText]
          | None => []
          end
      | None => []
      end
  | None => []
  end.

(** ** Line breaking of a cue (videoProcessor, [drawSubtitleText]) *)

(** [/\s+/] *)
Definition spaces : regex := Seq (Cls is_space) (Star is_space).

Section WordWrap.

(** [ctx.measureText(s).width] under the font in force. *)
Variable measureText : list ascii -> jsnum.

(** The loop over [words[1..]]: [lines] are the lines pushed so far. *)
Fixpoint wrapLoop (maxWidth : jsnum) (words : list (list ascii))
  (lines : list (list ascii)) (currentLine : list ascii) : list (list ascii) :=
  match words with
  | [] => lines ++ [currentLine]
  | word :: words' =>
      let testLine := currentLine ++ str " " ++ word in
      if lt (measureText testLine) maxWidth
      then wrapLoop maxWidth words' lines testLine
      else wrapLoop maxWidth words' (lines ++ [currentLine]) word
  end.

(** The lines [drawSubtitleText] draws.  [split] gives at least one piece;
    were there none, [words[0]] would be [undefined]. *)
Definition wrapLines (text : list ascii) (width : jsnum) : list (list ascii) :=
  let words := splitRegex spaces text in
  let maxWidth := mul width (Fin (9 # 10)) in
  match words with
  | first :: rest => wrapLoop maxWidth rest [] first
  | [] => [str "undefined"]
  end.

(** A line is broken only where the next word does not fit: for
    consecutive blocks of words, the first block extended by the first word
    of the second is not narrower than [maxWidth]. *)
Fixpoint brokenWhenFull (maxWidth : jsnum) (blocks : list (list (list ascii))) : Prop :=
  match blocks with
  | [] => True
  | block :: rest =>
      match rest with
      | (word :: _) :: _ =>
          lt (measureText (join (str " ") block ++ str " " ++ word)) maxWidth = false
      | _ => True
      end /\ brokenWhenFull maxWidth rest
  end.

(** A block of words makes a line: it is one word, or it is narrower than
    [maxWidth] when joined by single spaces. *)
Definition fitsLine (maxWidth : jsnum) (block : list (list ascii)) : Prop :=
  length block = 1%nat \/ lt (measureText (join (str " ") block)) maxWidth = true.

End WordWrap.

(** ** Cue lists *)

(** The ids [1, 2, ..., n]. *)
Definition idsFrom1 (n : nat) : list Z := map (fun k => Z.of_nat k + 1) (seq 0 n).

(** What every parser and generator of cues guarantees of a cue: a text
    that is not empty and times that are numbers. *)
Definition cueOk (s : Subtitle) : Prop :=
  text s <> [] /\ isNaN (startTime s) = false /\ isNaN (endTime s) = false.

(** ** The subtitle editor (SubtitleEditorTool) *)

(** A key of [Subtitle] with the value stored under it. *)
Inductive FieldUpdate : Type :=
| SetId (value : Z)
| SetStartTime (value : jsnum)
| SetEndTime (value : jsnum)
| SetText (value : list ascii).

(** [{ ...sub, [field]: value }] *)
Definition setField (sub : Subtitle) (update : FieldUpdate) : Subtitle :=
  match update with
  | SetId value => mkSubtitle value (startTime sub) (endTime sub) (text sub)
  | SetStartTime value => mkSubtitle (id sub) value (endTime sub) (text sub)
  | SetEndTime value => mkSubtitle (id sub) (startTime sub) value (text sub)
  | SetText value => mkSubtitle (id sub) (startTime sub) (endTime sub) value
  end.

Definition handleUpdate (subtitles : list Subtitle) (id0 : Z) (update : FieldUpdate)
  : list Subtitle :=
  map (fun sub => if id sub =? id0 then setField sub update else sub) subtitles.

Definition handleDelete (subtitles : list Subtitle) (id0 : Z) : list Subtitle :=
  List.filter (fun sub => negb (id sub =? id0)) subtitles.

Definition handleAdd (subtitles : list Subtitle) : list Subtitle :=
  let newId :=
    match subtitles with
    | [] => 1
    | sub :: rest => fold_left Z.max (map id rest) (id sub) + 1
    end in
  let startTime :=
    match last subtitles with
    | Some lastSub => add (endTime lastSub) (Fin (1 # 10))
    | None => Fin 0
    end in
  let endTime := add startTime (Fin 2) in
  subtitles ++ [mkSubtitle newId startTime endTime (str "New Subtitle")].

(** ** The audio trimmer (AudioTrimmerTool) *)

(** [ctx.createBuffer(numberOfChannels, length, sampleRate)] with the
    channel count and rate of a decoded buffer: the length is converted as
    an [unsigned long], and a length of 0 throws.  The new buffer is
    silent. *)
Definition createBuffer (channels : nat) (length : jsnum) (rate : jsnum)
  : option AudioBuffer :=
  let n := Z.to_nat (ToUint32 length) in
  if decide (n = 0%nat) then None
  else Some (mkAudioBuffer channels rate (repeat (repeat (Fin 0) n) channels)).

(** [oldData[index]] stored into a [Float32Array]: [undefined] (an index
    that is no element) becomes NaN. *)
Definition readSample (oldData : list jsnum) (index : jsnum) : jsnum :=
  match index with
  | Fin q =>
      if Qeq_bool q (inject_Z (Qfloor q)) && (0 <=? Qfloor q)
      then elemOrNaN oldData (Z.to_nat (Qfloor q))
      else NaN
  | _ => NaN
  end.

Section Trim.

(** The product of two numbers as the host computes it: the exact product
    rounded to a number of the host.  [startTime * sampleRate] is no whole
    number in general, and its floor depends on that rounding. *)
Variable mul64 : jsnum -> jsnum -> jsnum.

(** [handleTrim]: the bytes of the trimmed Blob; [None] when the [try]
    block throws and the error message is shown.  The difference
    [endSample - startSample] is one of whole numbers.  The copy loop
    stores [newData[i]] for the [i] below the length of the new buffer; a
    store past it would be dropped. *)
Definition handleTrim (audioBuffer : AudioBuffer) (startTime endTime : jsnum)
  : option (list Z) :=
  let rate := sampleRate audioBuffer in
  let startSample := Math_floor (mul64 startTime rate) in
  let endSample := Math_floor (mul64 endTime rate) in
  let frames := sub endSample startSample in
  if le frames (Fin 0) then None
  else
    do newBuffer <- createBuffer (numberOfChannels audioBuffer) frames rate;
    do channels <-
      mapM (fun channel =>
              do oldData <- getChannelData audioBuffer channel;
              Some (map (fun i => readSample oldData (add startSample (ofNat i)))
                        (seq 0 (frameCount newBuffer))))
           (seq 0 (numberOfChannels audioBuffer));
    audioBufferToWav
      (mkAudioBuffer (numberOfChannels newBuffer) (sampleRate newBuffer) channels).

End Trim.

(** The frames [first .. first + count - 1] of every channel. *)
Definition sliceBuffer (b : AudioBuffer) (first count : nat) : AudioBuffer :=
  mkAudioBuffer (numberOfChannels b) (sampleRate b)
    (map (fun c => take count (drop first c)) (channelData b)).

(** The handles of the audio trimmer: the state is the selection and the
    play position, [x] is the pointer's distance from the left edge of the
    waveform, [width] the width of the waveform. *)
Module AudioTrimmer.

Record State : Type := mkState {
  startTime : jsnum;
  endTime : jsnum;
  currentTime : jsnum
}.

Inductive DragTarget : Type := start | end_ | seek.

Definition handlePointerMove (dragTarget : option DragTarget)
  (x width duration : jsnum) (state : State) : State :=
  match dragTarget with
  | None => state
  | Some target =>
      let x := Math_max (Fin 0) (Math_min x width) in
      let time := mul (div x width) duration in
      match target with
      | start =>
          let newStart := Math_min time (sub (endTime state) (Fin (1 # 10))) in
          mkState (Math_max (Fin 0) newStart) (endTime state) (currentTime state)
      | end_ =>
          let newEnd := Math_max time (add (startTime state) (Fin (1 # 10))) in
          mkState (startTime state) (Math_min duration newEnd) (currentTime state)
      | seek => mkState (startTime state) (endTime state) time
      end
  end.

(** A selection inside a track of [d] seconds. *)
Definition selection (state : State) (d : Q) : Prop :=
  exists a e t : Q,
    startTime state = Fin a /\ endTime state = Fin e /\ currentTime state = Fin t /\
    (0 <= a)%Q /\ (a < e)%Q /\ (e <= d)%Q /\ (0 <= t)%Q /\ (t <= d)%Q.

(** The selection is at least a tenth of a second long. *)
Definition wide (state : State) : Prop :=
  le (add (startTime state) (Fin (1 # 10))) (endTime state) = true.

End AudioTrimmer.

(** ** The video trimmer (VideoTrimmerTool, [trimVideo]) *)

(** The range check of [trimVideo] in [onloadedmetadata]: [true] rejects
    with "Invalid trim range." *)
Definition trim_rangeRejected (startTime endTime duration : jsnum) : bool :=
  ge startTime endTime || lt startTime (Fin 0) || gt endTime duration.

Module VideoTrimmer.

Record State : Type := mkState {
  startTime : jsnum;
  endTime : jsnum;
  duration : jsnum
}.

(** The state after [handleFileSelect] and [handleLoadedMetadata]. *)
Definition loaded (dur : jsnum) : State := mkState (Fin 0) dur dur.

(** [time] is [videoRef.current.currentTime]. *)
Definition handleSetStart (time : jsnum) (state : State) : State :=
  mkState time
    (if ge time (endTime state) then duration state else endTime state)
    (duration state).

Definition handleSetEnd (time : jsnum) (state : State) : State :=
  mkState
    (if le time (startTime state) then Fin 0 else startTime state)
    time
    (duration state).

(** The Trim button is disabled: [startTime >= endTime]. *)
Definition trimDisabled (state : State) : bool :=
  ge (startTime state) (endTime state).

(** A range inside the video. *)
Definition range (state : State) : Prop :=
  exists a e d : Q,
    startTime state = Fin a /\ endTime state = Fin e /\ duration state = Fin d /\
    (0 <= a)%Q /\ (a <= e)%Q /\ (e <= d)%Q.

End VideoTrimmer.

(** ** Time strings *)

(** [parseTimeUI] of the subtitle editor; nothing in its [try] block throws
    on a string. *)
Definition parseTimeUI (s : list ascii) : jsnum :=
  let normalized := replaceFirst "." "," s in
  let parts := splitChar "," normalized in
  let timeParts := map Number (splitChar ":" (nth 0 parts [])) in
  let ms :=
    match nth_error parts 1 with
    | Some (c :: t) => Number (c :: t)
    | _ => Fin 0
    end in
  let '(h, m, s) :=
    match timeParts with
    | [h; m; s] => (h, m, s)
    | [m; s] => (Fin 0, m, s)
    | [s] => (Fin 0, Fin 0, s)
    | _ => (Fin 0, Fin 0, Fin 0)
    end in
  let result :=
    add (add (add (mul h (Fin 3600)) (mul m (Fin 60))) s) (div ms (Fin 1000)) in
  if isNaN result then Fin 0 else result.

(** A non-empty string of decimal digits. *)
Definition digitString (ds : list ascii) : Prop :=
  ds <> [] /\ Forall (fun c => is_digit c = true) ds.

(** A field of at most nine decimal digits: its value is a whole number
    that a number of the host holds exactly, and so are the seconds of
    three such fields. *)
Definition shortField (ds : list ascii) : Prop :=
  digitString ds /\ (length ds <= 9)%nat.

(** [h] hours, [m] minutes and [s] seconds, a whole number of seconds, plus
    [k / 1000]: the quotient and the sum of [timeToSeconds], as the program
    computes them. *)
Definition clock (h m s k : Z) : jsnum :=
  add (ofZ (h * 3600 + m * 60 + s)) (div (ofZ k) (Fin 1000)).

(** The part after the separator is there and is no number. *)
Definition millisecondsNaN (timeString : list ascii) : bool :=
  match millisecondsPart timeString with
  | Some (c :: t) => isNaN (Number (c :: t))
  | _ => false
  end.

(** [formatTimeUI] of the subtitle editor, the same expressions as in
    [secondsToTime], exact here. *)
Definition formatTimeUI (seconds : jsnum) : list ascii :=
  let h := Math_floor (div seconds (Fin 3600)) in
  let m := Math_floor (div (rem seconds (Fin 3600)) (Fin 60)) in
  let s := Math_floor (rem seconds (Fin 60)) in
  let ms := Math_round (mul (rem seconds (Fin 1)) (Fin 1000)) in
  pad h 2 ++ str ":" ++ pad m 2 ++ str ":" ++ pad s 2 ++ str "," ++ pad ms 3.

(** ** WebVTT (subtitleHelpers, [generateVTT]) *)

(** One block of [generateVTT]. *)
Definition vttBlock (sub : Subtitle) : list ascii :=
  secondsToTime (startTime sub) (str ".") ++ str " --> "
  ++ secondsToTime (endTime sub) (str ".") ++ [LF]
  ++ text sub.

Definition generateVTT (subtitles : list Subtitle) : list ascii :=
  let header := str "WEBVTT" ++ [LF; LF] in
  let body := join [LF; LF] (map vttBlock subtitles) in
  header ++ body.

(** [HH:MM:SS.mmm], the time stamp of WebVTT. *)
Definition vttTimestamp (H M S K : list ascii) : list ascii :=
  H ++ ":"%char :: M ++ ":"%char :: S ++ "."%char :: K.

(** The characters of a generated WebVTT time line. *)
Definition vttTimeChar (c : ascii) : bool :=
  is_digit c || Ascii.eqb c ":" || Ascii.eqb c "." || Ascii.eqb c " "
  || Ascii.eqb c "-" || Ascii.eqb c ">".

(** [/^WEBVTT\s+/] *)
Definition vttHeaderRe : regex :=
  Seq (Chr "W") (Seq (Chr "E") (Seq (Chr "B") (Seq (Chr "V") (Seq (Chr "T") (Seq (Chr "T")
  (Seq (Cls is_space) (Star is_space))))))).

(** [text.replace(/^WEBVTT\s+/, '').trim()], the clean-up of the subtitle
    editor before [parseSRT]. *)
Definition stripVttHeader (text : list ascii) : list ascii :=
  trim (match matchAt vttHeaderRe text with
        | Some (rest, _) => rest
        | None => text
        end).

(** ** Colours (videoProcessor, [hexToRgba]) *)

(** [[a-f\d]] under the [i] flag. *)
Definition is_hex (c : ascii) : bool :=
  let n := nat_of_ascii c in
  is_digit c || ((97 <=? n)%nat && (n <=? 102)%nat) || ((65 <=? n)%nat && (n <=? 70)%nat).

(** [/^#?([a-f\d])([a-f\d])([a-f\d])$/i] *)
Definition shorthandRegex : regex :=
  Seq (Opt (Chr "#")) (Seq (Grp (Cls is_hex)) (Seq (Grp (Cls is_hex)) (Grp (Cls is_hex)))).

(** [/^#?([a-f\d]{2})([a-f\d]{2})([a-f\d]{2})$/i] *)
Definition colourRegex : regex :=
  Seq (Opt (Chr "#"))
      (Seq (Grp (Rep is_hex 2 2)) (Seq (Grp (Rep is_hex 2 2)) (Grp (Rep is_hex 2 2)))).

(** A match of a regular expression written between [^] and [$]: the
    whole string, and the captured groups. *)
Definition toEnd (s' : list ascii) (caps : list (list ascii)) : option (list (list ascii)) :=
  match s' with [] => Some caps | _ => None end.

Definition execWhole (r : regex) (s : list ascii) : option (list (list ascii)) :=
  rmatch r s [] toEnd.

(** The longest prefix of digits of radix 16. *)
Fixpoint hexPrefix (s : list ascii) : list ascii :=
  match s with
  | c :: s' => if is_hex c then c :: hexPrefix s' else []
  | [] => []
  end.

(** [parseInt(s, 16)] for a string without white space, sign or prefix, as
    the captured groups are. *)
Definition parseInt16 (s : list ascii) : jsnum :=
  match hexPrefix s with
  | [] => NaN
  | ds => match digitsValue 16 0 ds with Some v => ofZ v | None => NaN end
  end.

(** [alpha] is the text of [${alpha}]. *)
Definition hexToRgba (hex : list ascii) (alpha : list ascii) : list ascii :=
  let hex :=
    match execWhole shorthandRegex hex with
    | Some [r; g; b] => r ++ r ++ g ++ g ++ b ++ b
    | _ => hex
    end in
  match execWhole colourRegex hex with
  | Some [r; g; b] =>
      str "rgba(" ++ numberToString (parseInt16 r) ++ str ", "
      ++ numberToString (parseInt16 g) ++ str ", "
      ++ numberToString (parseInt16 b) ++ str ", " ++ alpha ++ str ")"
  | _ => str "rgba(0,0,0," ++ alpha ++ str ")"
  end.

(** The value of a hexadecimal digit; 0 for any other character. *)
Definition hexDigit (c : ascii) : Z :=
  match digitValue 16 c with Some v => v | None => 0 end.

(** What a colour string denotes: after an optional [#], three or six
    hexadecimal digits; three digits stand for the six in which each is
    doubled. *)
Definition hexColour (hex : list ascii) : option (Z * Z * Z) :=
  let body := match hex with "#"%char :: t => t | _ => hex end in
  match body with
  | [r; g; b] =>
      if is_hex r && is_hex g && is_hex b
      then Some (17 * hexDigit r, 17 * hexDigit g, 17 * hexDigit b)
      else None
  | [r1; r2; g1; g2; b1; b2] =>
      if is_hex r1 && is_hex r2 && is_hex g1 && is_hex g2 && is_hex b1 && is_hex b2
      then Some (16 * hexDigit r1 + hexDigit r2, 16 * hexDigit g1 + hexDigit g2,
                 16 * hexDigit b1 + hexDigit b2)
      else None
  | _ => None
  end.

(** [rgba(r, g, b, alpha)] as [hexToRgba] writes it. *)
Definition rgbaText (r g b : Z) (alpha : list ascii) : list ascii :=
  str "rgba(" ++ natToString (Z.to_nat r) ++ str ", "
  ++ natToString (Z.to_nat g) ++ str ", "
  ++ natToString (Z.to_nat b) ++ str ", " ++ alpha ++ str ")".

(** ** The PDF export (subtitleHelpers, [convertSubtitles]) *)

(** The drawing calls on the jsPDF document. *)
Inductive pdfOp : Type :=
| AddPage
| Text (line : list ascii) (x y : jsnum)
| TextLines (lines : list (list ascii)) (x y : jsnum).

Section Pdf.

(** [doc.splitTextToSize(text, size)] *)
Variable splitTextToSize : list ascii -> jsnum -> list (list ascii).

(** The title line of a cue in the document. *)
Definition pdfTimeLine (cue : Subtitle) : list ascii :=
  secondsToTime (startTime cue) (str ",") ++ str " --> "
  ++ secondsToTime (endTime cue) (str ",").

(** The body of [subtitles.forEach] in the [pdf] case: [y] and the calls
    made so far, extended. *)
Definition pdfCue (pageHeight : jsnum) (state : jsnum * list pdfOp) (cue : Subtitle)
  : jsnum * list pdfOp :=
  let '(y, ops) := state in
  let lineHeight := Fin 10 in
  let '(y, ops) :=
    if gt (add y (mul lineHeight (Fin 2))) (JS.sub pageHeight (Fin 10))
    then (Fin 10, ops ++ [AddPage])
    else (y, ops) in
  let ops := ops ++ [Text (pdfTimeLine cue) (Fin 10) y] in
  let y := add y (Fin 6) in
  let splitText := splitTextToSize (text cue) (Fin 180) in
  let ops := ops ++ [TextLines splitText (Fin 10) y] in
  let y := add y (add (mul (ofNat (length splitText)) (Fin 6)) (Fin 4)) in
  (y, ops).

Definition pdfOps (pageHeight : jsnum) (subtitles : list Subtitle) : list pdfOp :=
  snd (fold_left (pdfCue pageHeight) subtitles (Fin 10, [])).

(** The calls made for one cue placed at height [q], after a page break
    or not. *)
Definition placedCue (cue : Subtitle) (place : bool * Q) : list pdfOp :=
  (if fst place then [AddPage] else [])
  ++ [ Text (pdfTimeLine cue) (Fin 10) (Fin (snd place));
       TextLines (splitTextToSize (text cue) (Fin 180)) (Fin 10)
         (add (Fin (snd place)) (Fin 6)) ].

End Pdf.

(** Where a cue may be placed on a page of height [h]: at the top after a
    page break, and otherwise only where 20 units below it are still 10
    units above the bottom. *)
Definition placeOk (h : Q) (place : bool * Q) : Prop :=
  (10 <= snd place)%Q /\
  if fst place then snd place = 10%Q else (snd place + 20 <= h - 10)%Q.

(** ** Line ends *)

(** A text with the line ends of Windows, and with those of the old Mac. *)
Definition toCRLF (s : list ascii) : list ascii :=
  flat_map (fun c => if Ascii.eqb c LF then [CR; LF] else [c]) s.

Definition toCR (s : list ascii) : list ascii :=
  map (fun c => if Ascii.eqb c LF then CR else c) s.

(** * Verification *)

(** ** Facts about the number model *)

Module JSFacts.

Lemma Qtrunc_bounds (q : Q) (lo hi : Z) :
  lo <= 0 -> 0 <= hi ->
  (inject_Z lo <= q)%Q -> (q <= inject_Z hi)%Q ->
  lo <= Qtrunc q <= hi.
Proof.
  intros Hlo Hhi Hl Hu. destruct q as [a b]. unfold Qtrunc, Qle in *. simpl in *.
  split.
  - apply Z.quot_le_lower_bound; lia.
  - apply Z.quot_le_upper_bound; lia.
Qed.

Lemma Qtrunc_inject_Z (z : Z) : Qtrunc (inject_Z z) = z.
Proof. unfold Qtrunc. simpl. apply Z.quot_1_r. Qed.

Lemma Qtrunc_nonneg_floor (q : Q) : (0 <= q)%Q -> Qtrunc q = Qfloor q.
Proof.
  destruct q as [a b]. unfold Qle, Qtrunc, Qfloor. simpl. intros H.
  apply Z.quot_div_nonneg; lia.
Qed.

Lemma Qtrunc_comp (p q : Q) : p == q -> Qtrunc p = Qtrunc q.
Proof.
  intros H. destruct (Qlt_le_dec p 0) as [Hn | Hp].
  - assert (Hq : (q < 0)%Q) by (rewrite <- H; exact Hn).
    assert (Hopp : forall r : Q, (r < 0)%Q -> Qtrunc r = - Qfloor (- r)).
    { intros [a b] Hr. unfold Qlt, Qtrunc, Qfloor in *. simpl in *.
      rewrite <- (Z.opp_involutive a) at 1. rewrite Z.quot_opp_l by lia.
      f_equal. apply Z.quot_div_nonneg; lia. }
    rewrite (Hopp p Hn), (Hopp q Hq). f_equal. apply Qfloor_comp. now rewrite H.
  - assert (Hq : (0 <= q)%Q) by (rewrite <- H; exact Hp).
    rewrite !Qtrunc_nonneg_floor by assumption. now apply Qfloor_comp.
Qed.

Lemma Qtrunc_Qred (q : Q) : Qtrunc (Qred q) = Qtrunc q.
Proof. apply Qtrunc_comp, Qred_correct. Qed.

Lemma lt_Fin (a b : Q) : lt (Fin a) (Fin b) = true <-> (a < b)%Q.
Proof.
  simpl. rewrite negb_true_iff. split.
  - intros H. apply Qnot_le_lt. intros Hle. apply Qle_bool_iff in Hle. congruence.
  - intros H. destruct (Qle_bool b a) eqn:E; [| reflexivity].
    apply Qle_bool_iff in E. exfalso. exact (Qlt_not_le _ _ H E).
Qed.

Lemma lt_Fin_false (a b : Q) : lt (Fin a) (Fin b) = false <-> (b <= a)%Q.
Proof.
  simpl. rewrite negb_false_iff. apply Qle_bool_iff.
Qed.

Lemma le_Fin (a b : Q) : le (Fin a) (Fin b) = true <-> (a <= b)%Q.
Proof. simpl. apply Qle_bool_iff. Qed.

Lemma wrapInt16_small (n : Z) : -32768 <= n <= 32767 -> wrapInt16 n = n.
Proof. intros H. unfold wrapInt16. rewrite Z.mod_small by lia. lia. Qed.

Lemma wrapInt16_range (n : Z) : -32768 <= wrapInt16 n <= 32767.
Proof.
  unfold wrapInt16. pose proof (Z.mod_pos_bound (n + 32768) 65536). lia.
Qed.

End JSFacts.

Import JSFacts.

(** ** 16-bit PCM conversion *)

Lemma clampSample_cases (x : jsnum) :
  (x = NaN /\ clampSample x = NaN) \/
  (exists c : Q, clampSample x = Fin c /\ (-1 <= c)%Q /\ (c <= 1)%Q).
Proof.
  destruct x as [| | | q]; [left; auto | right .. ].
  - exists 1%Q. split; [reflexivity | split; discriminate].
  - exists (-1)%Q. split; [reflexivity | split; discriminate].
  - unfold clampSample. cbn [Math_min].
    destruct (lt (Fin q) (Fin 1)) eqn:E1; cbn [Math_max].
    + destruct (lt (Fin (-1)) (Fin q)) eqn:E2.
      * exists q. apply lt_Fin in E1, E2. auto using Qlt_le_weak.
      * exists (-1)%Q. split; [reflexivity | split; discriminate].
    + exists 1%Q. split; [reflexivity | split; discriminate].
Qed.

Lemma clampSample_Fin (q : Q) :
  exists c : Q, clampSample (Fin q) = Fin c /\ c == Qmax (-1) (Qmin 1 q).
Proof.
  unfold clampSample. cbn [Math_min].
  destruct (lt (Fin q) (Fin 1)) eqn:E1; cbn [Math_max].
  - apply lt_Fin in E1.
    assert (Hmin : Qmin 1 q == q) by (apply Q.min_r, Qlt_le_weak, E1).
    destruct (lt (Fin (-1)) (Fin q)) eqn:E2.
    + apply lt_Fin in E2. exists q. split; [reflexivity |].
      rewrite Hmin. symmetry. apply Q.max_r, Qlt_le_weak, E2.
    + apply lt_Fin_false in E2. exists (-1)%Q. split; [reflexivity |].
      rewrite Hmin. symmetry. apply Q.max_l, E2.
  - apply lt_Fin_false in E1. exists 1%Q. split; [reflexivity |].
    assert (Hmin : Qmin 1 q == 1) by (apply Q.min_l, E1).
    rewrite Hmin. symmetry. apply Q.max_r. discriminate.
Qed.

Lemma scaleSample_Fin (c : Q) :
  scaleSample (Fin c) = Fin (Qred (c * (if Qlt_le_dec c 0 then 32768 else 32767))).
Proof.
  unfold scaleSample. destruct (Qlt_le_dec c 0) as [H | H].
  - apply lt_Fin in H. rewrite H. reflexivity.
  - apply lt_Fin_false in H. rewrite H. reflexivity.
Qed.

Lemma scaled_in_range (x : jsnum) :
  -32768 <= ToInteger (scaleSample (clampSample x)) <= 32767.
Proof.
  destruct (clampSample_cases x) as [[_ ->] | (c & -> & Hl & Hu)].
  - cbn. lia.
  - rewrite scaleSample_Fin. cbn [ToInteger]. rewrite Qtrunc_Qred.
    apply Qtrunc_bounds; try lia;
      destruct (Qlt_le_dec c 0) as [H | H]; destruct c as [a b];
      unfold Qle, Qlt, Qmult in *; cbn in *; rewrite ?Pos.mul_1_r; lia.
Qed.

Lemma setInt16_getInt16 (x : jsnum) :
  (do view <- setInt16 (newArrayBuffer 2) 0 x; getInt16 view 0) = Some (ToInt16 x).
Proof.
  unfold setInt16. cbn.
  destruct (decide (2 <= 2)%nat) as [_ | Hno]; [| lia].
  pose proof (wrapInt16_range (ToInteger x)) as Hr.
  fold (ToInt16 x) in Hr |- *. set (n := ToInt16 x) in *.
  cbn. f_equal. unfold wrapInt16.
  pose proof (Z.mod_pos_bound n 65536 ltac:(lia)) as Hm.
  set (v := n mod 65536) in *.
  rewrite (Z.mod_small (v / 256) 256)
    by (split; [apply Z.div_pos; lia | apply Z.div_lt_upper_bound; lia]).
  replace (v mod 256 + 256 * (v / 256)) with v
    by (pose proof (Z.div_mod v 256 ltac:(lia)); lia).
  destruct (Z_lt_le_dec n 0) as [Hn | Hn].
  - assert (H : v = n + 65536).
    { unfold v. symmetry. apply (Z.mod_unique n 65536 (-1)); lia. }
    rewrite H.
    assert (E : (n + 65536 + 32768) mod 65536 = n + 32768).
    { symmetry. apply (Z.mod_unique _ 65536 1); lia. }
    lia.
  - assert (H : v = n) by (unfold v; apply Z.mod_small; lia).
    rewrite H. rewrite Z.mod_small; lia.
Qed.


(** ** The WAV writer *)

Lemma setUint8_ok (view : DataView) (offset : nat) (v : Z) :
  (offset + 1 <= length view)%nat ->
  setUint8 view offset v = Some (<[offset := v mod 256]> view).
Proof. intros H. unfold setUint8. now rewrite decide_True. Qed.

Lemma setUint16_ok (view : DataView) (offset : nat) (x : jsnum) :
  (offset + 2 <= length view)%nat ->
  setUint16 view offset x
  = Some (<[S offset := (ToUint16 x / 256) mod 256]> (<[offset := ToUint16 x mod 256]> view)).
Proof. intros H. unfold setUint16. now rewrite decide_True. Qed.

Lemma setInt16_ok (view : DataView) (offset : nat) (x : jsnum) :
  (offset + 2 <= length view)%nat ->
  setInt16 view offset x
  = Some (<[S offset := ((ToInt16 x mod 65536) / 256) mod 256]>
          (<[offset := (ToInt16 x mod 65536) mod 256]> view)).
Proof. intros H. unfold setInt16. now rewrite decide_True. Qed.

Lemma setUint32_ok (view : DataView) (offset : nat) (x : jsnum) :
  (offset + 4 <= length view)%nat ->
  setUint32 view offset x
  = Some (<[S (S (S offset)) := (ToUint32 x / 16777216) mod 256]>
          (<[S (S offset) := (ToUint32 x / 65536) mod 256]>
          (<[S offset := (ToUint32 x / 256) mod 256]>
          (<[offset := ToUint32 x mod 256]> view)))).
Proof. intros H. unfold setUint32. now rewrite decide_True. Qed.

Lemma interleave_length (left right : list jsnum) :
  length (interleave left right) = (length left + length right)%nat.
Proof.
  unfold interleave.
  generalize (seq 0 (length left)) as idx.
  assert (H : length (repeat (Fin 0) (length left + length right))
              = (length left + length right)%nat) by apply repeat_length.
  revert H. generalize (repeat (Fin 0) (length left + length right)) as acc.
  intros acc H idx. revert acc H.
  induction idx as [| i idx IH]; intros acc H; cbn [fold_left].
  - exact H.
  - apply IH. now rewrite !length_insert.
Qed.

Lemma uint32_le_bytes (v : Z) :
  0 <= v < 4294967296 ->
  v mod 256 + 256 * ((v / 256) mod 256) + 65536 * ((v / 65536) mod 256)
  + 16777216 * ((v / 16777216) mod 256) = v.
Proof.
  intros H.
  pose proof (Z.div_mod v 256 ltac:(lia)) as E0.
  pose proof (Z.div_mod (v / 256) 256 ltac:(lia)) as E1.
  pose proof (Z.div_mod (v / 256 / 256) 256 ltac:(lia)) as E2.
  rewrite Z.div_div in E1, E2 by lia. rewrite Z.div_div in E2 by lia.
  change (256 * 256) with 65536 in *. change (65536 * 256) with 16777216 in *.
  assert (Hs : 0 <= v / 16777216 < 256).
  { split; [apply Z.div_pos; lia | apply Z.div_lt_upper_bound; lia]. }
  rewrite (Z.mod_small (v / 16777216) 256) by exact Hs.
  lia.
Qed.

(** The samples the writer serialises: both channels interleaved for a
    stereo buffer, channel 0 alone otherwise. *)
Lemma wav_result_length (b : AudioBuffer) :
  valid_buffer b ->
  exists result : list jsnum,
    (if decide (numberOfChannels b = 2%nat)
     then
       do left <- getChannelData b 0;
       do right <- getChannelData b 1;
       Some (interleave left right)
     else getChannelData b 0) = Some result /\
    length result
    = (if decide (numberOfChannels b = 2%nat) then 2 * frameCount b else frameCount b)%nat.
Proof.
  intros (Hn & Hlen & Hall).
  destruct b as [n sr chans]. unfold getChannelData, frameCount in *. cbn in *.
  destruct chans as [| c0 chans]; [cbn in Hlen; lia |].
  destruct (decide (n = 2%nat)) as [-> | Hne].
  - destruct chans as [| c1 chans]; [cbn in Hlen; lia |].
    rewrite !decide_True by lia. cbn.
    exists (interleave c0 c1). split; [reflexivity |].
    rewrite interleave_length.
    inversion Hall as [| ? ? _ Hrest]; subst. inversion Hrest as [| ? ? H1 _]; subst.
    cbn in H1. lia.
  - rewrite decide_True by lia. cbn. exists c0. split; reflexivity.
Qed.

(** ** Peak envelope *)

Lemma in_unit_one : in_unit (Fin 1).
Proof. exists 1%Q. split; [reflexivity | split; discriminate]. Qed.

Lemma in_unit_minus_one : in_unit (Fin (-1)).
Proof. exists (-1)%Q. split; [reflexivity | split; discriminate]. Qed.

(** One step of the inner loop on a sample of the unit range. *)
Lemma minmax_step (val mn mx : jsnum) :
  in_unit val -> in_unit mn -> in_unit mx ->
  let mn' := if lt val mn then val else mn in
  let mx' := if gt val mx then val else mx in
  in_unit mn' /\ in_unit mx' /\ le mn' mx' = true.
Proof.
  intros Hv Hmn Hmx. cbv zeta.
  pose proof Hv as (v & -> & Hv1 & Hv2).
  pose proof Hmn as (a & -> & Ha1 & Ha2).
  pose proof Hmx as (b & -> & Hb1 & Hb2).
  unfold gt.
  destruct (lt (Fin v) (Fin a)) eqn:E1; destruct (lt (Fin b) (Fin v)) eqn:E2;
    (split; [assumption | split; [assumption |]]); apply le_Fin.
  - apply Qle_refl.
  - apply lt_Fin_false in E2. exact E2.
  - apply lt_Fin_false in E1. exact E1.
  - apply lt_Fin_false in E1, E2. now apply Qle_trans with v.
Qed.

Lemma elemOrNaN_in_unit (channels : list jsnum) (idx : nat) :
  Forall in_unit channels -> (idx < length channels)%nat ->
  in_unit (elemOrNaN channels idx).
Proof.
  intros Hall Hidx. unfold elemOrNaN.
  destruct (channels !! idx) as [v |] eqn:E.
  - eapply Forall_lookup_1; eauto.
  - apply lookup_ge_None in E. lia.
Qed.

(** The inner loop after [k] iterations. *)
Lemma bucket_fold (channels : list jsnum) (step i k : nat) :
  Forall in_unit channels ->
  let acc :=
    fold_left
      (fun (acc : jsnum * jsnum) (j : nat) =>
         let idx := (i * step + j)%nat in
         if decide (idx < length channels)%nat
         then
           let val := elemOrNaN channels idx in
           let min := if lt val (fst acc) then val else fst acc in
           let max := if gt val (snd acc) then val else snd acc in
           (min, max)
         else acc)
      (seq 0 k) (Fin 1, Fin (-1)) in
  in_unit (fst acc) /\ in_unit (snd acc) /\
  ((0 < k)%nat -> (i * step < length channels)%nat -> le (fst acc) (snd acc) = true) /\
  ((k = 0%nat \/ length channels <= i * step)%nat -> acc = (Fin 1, Fin (-1))).
Proof.
  intros Hall. induction k as [| k IH]; cbv zeta in *.
  - cbn. repeat split; auto using in_unit_one, in_unit_minus_one. intros; lia.
  - rewrite seq_S, fold_left_app. cbn [fold_left Nat.add].
    destruct IH as (Hmn & Hmx & Hle & Hempty).
    set (acc := fold_left _ (seq 0 k) _) in *.
    destruct (decide (i * step + k < length channels)%nat) as [Hin | Hout].
    + destruct (minmax_step (elemOrNaN channels (i * step + k)) (fst acc) (snd acc))
        as (H1 & H2 & H3); auto using elemOrNaN_in_unit.
      cbn [fst snd]. repeat split; auto. intros [Hk | Hk]; lia.
    + repeat split; auto.
      * intros _ Hi. apply Hle; [| exact Hi]. destruct k; [| lia].
        exfalso. apply Hout. lia.
      * intros [Hk | Hk]; [lia |]. apply Hempty. now right.
Qed.

Lemma bucketMinMax_spec (channels : list jsnum) (step i : nat) :
  Forall in_unit channels ->
  in_unit (fst (bucketMinMax channels step i)) /\
  in_unit (snd (bucketMinMax channels step i)) /\
  ((0 < step)%nat -> (i * step < length channels)%nat ->
   le (fst (bucketMinMax channels step i)) (snd (bucketMinMax channels step i)) = true) /\
  ((length channels <= i * step)%nat ->
   bucketMinMax channels step i = (Fin 1, Fin (-1))).
Proof.
  intros Hall. destruct (bucket_fold channels step i step Hall) as (H1 & H2 & H3 & H4).
  unfold bucketMinMax. repeat split; auto.
Qed.

(** The outer loop after [k] buckets, for any bucket function. *)
Lemma peaks_fold (f : nat -> jsnum * jsnum) (n k : nat) :
  (k <= n)%nat ->
  let peaks :=
    fold_left
      (fun peaks i => <[(i * 2 + 1)%nat := snd (f i)]> (<[(i * 2)%nat := fst (f i)]> peaks))
      (seq 0 k) (repeat (Fin 0) (n * 2)) in
  length peaks = (n * 2)%nat /\
  forall i : nat, (i < k)%nat ->
    peaks !! (i * 2)%nat = Some (fst (f i)) /\
    peaks !! (i * 2 + 1)%nat = Some (snd (f i)).
Proof.
  induction k as [| k IH]; intros Hk; cbv zeta in *.
  - cbn. split; [apply repeat_length | intros; lia].
  - rewrite seq_S, fold_left_app. cbn [fold_left Nat.add].
    destruct IH as (Hlen & Hprev); [lia |].
    set (peaks := fold_left _ (seq 0 k) _) in *.
    split; [now rewrite !length_insert |].
    intros i Hi. destruct (decide (i = k)) as [-> | Hne].
    + split.
      * rewrite list_lookup_insert_ne by lia.
        apply list_lookup_insert_eq. lia.
      * apply list_lookup_insert_eq. rewrite length_insert. lia.
    + rewrite !list_lookup_insert_ne by lia. apply Hprev. lia.
Qed.

Lemma ceilDiv_pos (n d : nat) : (0 < n)%nat -> (0 < d)%nat -> (0 < ceilDiv n d)%nat.
Proof.
  intros Hn Hd. unfold ceilDiv. apply Nat.div_str_pos. lia.
Qed.

(** C1, as the code has it: the envelope has [2 * buckets] entries, every
    minimum and maximum lies in [-1, 1], a bucket that holds a sample has
    [min <= max], and a bucket that holds none keeps the initial
    [min = 1], [max = -1]. *)
Theorem C1_peak_envelope (bucketCount : nat) (channels : list jsnum) :
  Forall in_unit channels ->
  let peaks := computePeaks bucketCount channels in
  let step := ceilDiv (length channels) bucketCount in
  length peaks = (2 * bucketCount)%nat /\
  forall i : nat, (i < bucketCount)%nat ->
    exists min max : jsnum,
      peaks !! (i * 2)%nat = Some min /\
      peaks !! (i * 2 + 1)%nat = Some max /\
      in_unit min /\ in_unit max /\
      ((i * step < length channels)%nat -> le min max = true) /\
      ((length channels <= i * step)%nat -> min = Fin 1 /\ max = Fin (-1)).
Proof.
  intros Hall. cbv zeta. unfold computePeaks.
  set (step := ceilDiv (length channels) bucketCount).
  destruct (peaks_fold (bucketMinMax channels step) bucketCount bucketCount (Nat.le_refl _))
    as (Hlen & Hget).
  split; [lia |].
  intros i Hi. destruct (Hget i Hi) as (H1 & H2).
  destruct (bucketMinMax_spec channels step i Hall) as (Hmn & Hmx & Hle & Hempty).
  exists (fst (bucketMinMax channels step i)), (snd (bucketMinMax channels step i)).
  repeat split; auto.
  - intros Hne. apply Hle; [| exact Hne].
    apply ceilDiv_pos; lia.
  - now rewrite Hempty.
  - now rewrite Hempty.
Qed.

Lemma C1_peak_envelope_witness :
  length (computePeaks 3 [Fin (1 # 2); Fin (-1 # 2); Fin (1 # 4); Fin (1 # 8)]) = 6%nat.
Proof.
  refine (proj1 (C1_peak_envelope 3 [Fin (1 # 2); Fin (-1 # 2); Fin (1 # 4); Fin (1 # 8)] _)).
  repeat constructor;
    (eexists; split; [reflexivity | split; discriminate]).
Defined.

(** A one-sample input with the 2000 buckets of the code: bucket 1 is empty
    and holds [min = 1], [max = -1], so [min <= max] fails and the values
    are not 0. *)
Lemma C1_empty_bucket_counterexample :
  Forall in_unit [Fin (1 # 2)] /\
  length (waveformPeaks [Fin (1 # 2)]) = 4000%nat /\
  waveformPeaks [Fin (1 # 2)] !! 2%nat = Some (Fin 1) /\
  waveformPeaks [Fin (1 # 2)] !! 3%nat = Some (Fin (-1)) /\
  le (Fin 1) (Fin (-1)) = false /\
  Fin 1 <> Fin 0.
Proof.
  split; [| split; [| split; [| split; [| split]]]].
  - repeat constructor. exists (1 # 2)%Q. split; [reflexivity | split; discriminate].
  - vm_compute. reflexivity.
  - vm_compute. reflexivity.
  - vm_compute. reflexivity.
  - reflexivity.
  - discriminate.
Qed.

(** ** The active-cue lookup *)

Lemma find_first_match {A : Type} (p : A -> bool) (l : list A) (x : A) :
  find p l = Some x <->
  exists before after : list A,
    l = before ++ x :: after /\ p x = true /\ Forall (fun y => p y = false) before.
Proof.
  induction l as [| a l IH]; cbn [find].
  - split; [discriminate |]. intros (before & after & H & _). now destruct before.
  - destruct (p a) eqn:E.
    + split.
      * intros [= <-]. exists [], l. auto.
      * intros (before & after & H & Hx & Hb). destruct before as [| b before].
        -- now inversion H.
        -- inversion H; subst. inversion Hb; subst. congruence.
    + rewrite IH. split.
      * intros (before & after & -> & Hx & Hb). exists (a :: before), after. auto.
      * intros (before & after & H & Hx & Hb). destruct before as [| b before].
        -- inversion H; subst. congruence.
        -- inversion H; subst. inversion Hb; subst. exists before, after. auto.
Qed.

Lemma find_none {A : Type} (p : A -> bool) (l : list A) :
  find p l = None <-> Forall (fun y => p y = false) l.
Proof.
  induction l as [| a l IH]; cbn [find].
  - split; auto.
  - destruct (p a) eqn:E.
    + split; [discriminate | intros H; inversion H; congruence].
    + rewrite IH. split; [auto | intros H; now inversion H].
Qed.

(** C7: the lookup returns the first cue, in list order, whose range holds
    [t], both ends included; it returns nothing exactly when no cue holds
    [t]; and when cue A, ending at 2.0, comes before cue B, starting at 2.0,
    with no earlier cue holding 2.0, the lookup at 2.0 returns A. *)
Theorem C7_active_cue_first_match :
  (forall (subtitles : list Subtitle) (t : jsnum) (s : Subtitle),
      activeSubtitle subtitles t = Some s <->
      exists before after : list Subtitle,
        subtitles = before ++ s :: after /\
        cueActive t s = true /\
        Forall (fun c => cueActive t c = false) before) /\
  (forall (subtitles : list Subtitle) (t : jsnum),
      activeSubtitle subtitles t = None <->
      Forall (fun c => cueActive t c = false) subtitles) /\
  (forall (n : Z) (a b t : Q) (txt : list ascii),
      cueActive (Fin t) (mkSubtitle n (Fin a) (Fin b) txt) = true <->
      (a <= t)%Q /\ (t <= b)%Q) /\
  (forall (before between after : list Subtitle) (A B : Subtitle),
      endTime A = Fin 2 ->
      startTime B = Fin 2 ->
      le (startTime A) (Fin 2) = true ->
      Forall (fun c => cueActive (Fin 2) c = false) before ->
      activeSubtitle (before ++ A :: between ++ B :: after) (Fin 2) = Some A).
Proof.
  split; [| split; [| split]].
  - intros subtitles t s. apply find_first_match.
  - intros subtitles t. apply find_none.
  - intros n a b t txt. unfold cueActive, ge. cbn [startTime endTime].
    rewrite andb_true_iff, !le_Fin. reflexivity.
  - intros before between after A B HA HB Hstart Hbefore.
    apply find_first_match. exists before, (between ++ B :: after).
    split; [reflexivity | split; [| exact Hbefore]].
    unfold cueActive, ge. rewrite Hstart, HA. reflexivity.
Qed.

Lemma C7_active_cue_first_match_witness :
  activeSubtitle [cueA; cueB] (Fin 2) = Some cueA.
Proof.
  destruct C7_active_cue_first_match as (_ & _ & _ & H).
  apply (H [] [] [] cueA cueB); [reflexivity | reflexivity | reflexivity | constructor].
Defined.

(** ** Progress reported by the render loops *)

Lemma lt_trans_js (x y z : jsnum) : lt x y = true -> lt y z = true -> lt x z = true.
Proof.
  destruct x as [| | | a], y as [| | | b], z as [| | | c];
    try discriminate; try reflexivity.
  rewrite !lt_Fin. apply Qlt_trans.
Qed.

Lemma div_Fin_pos (t d : Q) : (0 < d)%Q -> div (Fin t) (Fin d) = Fin (Qred (t / d)).
Proof.
  intros Hd. unfold div, sign. destruct d as [n m]. unfold Qlt in Hd. cbn in *.
  destruct n; try lia; reflexivity.
Qed.

Lemma truthy_Fin_pos (d : Q) : (0 < d)%Q -> truthy (Fin d) = true.
Proof.
  intros Hd. cbn. destruct (Qeq_bool d 0) eqn:E; [| reflexivity].
  apply Qeq_bool_eq in E. rewrite E in Hd. discriminate.
Qed.

Lemma percentCapped_le_99 (x d : Q) :
  (0 < d)%Q -> le (percentCapped x d) (Fin 99) = true.
Proof.
  intros Hd. unfold percentCapped. rewrite div_Fin_pos by exact Hd. cbn [mul Math_min].
  destruct (lt (Fin 99) _) eqn:E.
  - reflexivity.
  - apply lt_Fin_false in E. apply le_Fin. exact E.
Qed.

Lemma percentCapped_mono (x y d : Q) :
  (0 < d)%Q -> (x <= y)%Q -> le (percentCapped x d) (percentCapped y d) = true.
Proof.
  intros Hd Hxy. unfold percentCapped. rewrite !div_Fin_pos by exact Hd.
  cbn [mul Math_min].
  assert (Hm : (Qred (Qred (x / d) * 100) <= Qred (Qred (y / d) * 100))%Q).
  { rewrite !Qred_correct. apply Qmult_le_compat_r; [| discriminate].
    unfold Qdiv. apply Qmult_le_compat_r; [exact Hxy |].
    apply Qlt_le_weak, Qinv_lt_0_compat, Hd. }
  destruct (lt (Fin 99) (Fin (Qred (Qred (x / d) * 100)))) eqn:E1;
    destruct (lt (Fin 99) (Fin (Qred (Qred (y / d) * 100)))) eqn:E2;
    apply le_Fin.
  - apply Qle_refl.
  - apply lt_Fin in E1. apply lt_Fin_false in E2.
    exfalso. apply (Qlt_irrefl 99). eapply Qlt_le_trans; [exact E1 |].
    eapply Qle_trans; eassumption.
  - apply lt_Fin_false in E1. exact E1.
  - exact Hm.
Qed.

Section LoopProgress.

Variable renderFrame : VideoState -> list effect.
Variable progressOf : VideoState -> jsnum.
Variable ok : VideoState -> Prop.

(** One callback either reports nothing or the progress of its frame, and
    either lets the loop go on or ends it. *)
Hypothesis callback_shape :
  forall (video : VideoState) (rest : list VideoState),
    ok video ->
    let ps := progressUntilStop (renderLoop renderFrame (video :: rest)) in
    let ps' := progressUntilStop (renderLoop renderFrame rest) in
    ps = ps' \/ ps = progressOf video :: ps' \/ ps = [] \/ ps = [progressOf video].

Hypothesis progress_mono :
  forall v w : VideoState,
    ok v -> ok w -> lt (currentTime v) (currentTime w) = true ->
    le (progressOf v) (progressOf w) = true.

Hypothesis progress_capped :
  forall v : VideoState, ok v -> le (progressOf v) (Fin 99) = true.

Lemma loop_progress (frames : list VideoState) :
  Forall ok frames ->
  StronglySorted (fun v w => lt (currentTime v) (currentTime w) = true) frames ->
  let ps := progressUntilStop (renderLoop renderFrame frames) in
  StronglySorted (fun p q => le p q = true) ps /\
  Forall (fun p => le p (Fin 99) = true) ps /\
  Forall (fun p => exists v, In v frames /\ ok v /\ p = progressOf v) ps.
Proof.
  cbv zeta. induction frames as [| video rest IH]; intros Hok Hsorted.
  - cbn. repeat split; constructor.
  - inversion Hok as [| ? ? Hv Hrest]; subst.
    inversion Hsorted as [| ? ? Hs Hall]; subst.
    destruct (IH Hrest Hs) as (IH1 & IH2 & IH3).
    assert (Hweak : Forall (fun p => exists v, In v (video :: rest) /\ ok v /\ p = progressOf v)
                      (progressUntilStop (renderLoop renderFrame rest))).
    { eapply Forall_impl; [exact IH3 |]. intros p (v & Hin & Hokv & ->).
      exists v. split; [now right | auto]. }
    assert (Hhead : Forall (fun q => le (progressOf video) q = true)
                      (progressUntilStop (renderLoop renderFrame rest))).
    { eapply Forall_impl; [exact IH3 |]. intros p (v & Hin & Hokv & ->).
      apply progress_mono; auto.
      rewrite List.Forall_forall in Hall. now apply Hall. }
    destruct (callback_shape video rest Hv) as [E | [E | [E | E]]]; rewrite E.
    + auto.
    + repeat split.
      * now constructor.
      * constructor; auto.
      * constructor; [exists video; split; [now left | auto] | exact Hweak].
    + repeat split; constructor.
    + repeat split.
      * repeat constructor.
      * repeat constructor. auto.
      * repeat constructor. exists video. split; [now left | auto].
Qed.

End LoopProgress.

Lemma Sorted_time_strong (frames : list VideoState) :
  Sorted (fun v w => lt (currentTime v) (currentTime w) = true) frames ->
  StronglySorted (fun v w => lt (currentTime v) (currentTime w) = true) frames.
Proof.
  apply Sorted_StronglySorted. intros u v w. apply lt_trans_js.
Qed.

Lemma burn_callback_shape (d : Q) (subtitles : list Subtitle)
  (video : VideoState) (rest : list VideoState) :
  (0 < d)%Q ->
  (exists t : Q, currentTime video = Fin t) /\ duration video = Fin d ->
  let progressOf v :=
    Math_min (mul (div (currentTime v) (duration v)) (Fin 100)) (Fin 99) in
  let ps := progressUntilStop (renderLoop (burn_renderFrame subtitles) (video :: rest)) in
  let ps' := progressUntilStop (renderLoop (burn_renderFrame subtitles) rest) in
  ps = ps' \/ ps = progressOf video :: ps' \/ ps = [] \/ ps = [progressOf video].
Proof.
  intros Hd ((t & Ht) & Hdur). cbv zeta. cbn [renderLoop].
  generalize (renderLoop (burn_renderFrame subtitles) rest) as tail. intros tail.
  unfold burn_renderFrame.
  destruct (v_ended video) eqn:Eend; [right; right; left; reflexivity |].
  destruct (v_paused video) eqn:Epaused; cbn [negb andb].
  - left. reflexivity.
  - right. left. rewrite Hdur, truthy_Fin_pos by exact Hd.
    destruct (activeSubtitle subtitles (currentTime video)); reflexivity.
Qed.

Lemma convert_callback_shape (d : Q) (hasCanvas : bool)
  (video : VideoState) (rest : list VideoState) :
  (0 < d)%Q ->
  (exists t : Q, currentTime video = Fin t) /\ duration video = Fin d ->
  let progressOf v :=
    Math_min (mul (div (currentTime v) (duration v)) (Fin 100)) (Fin 99) in
  let ps := progressUntilStop (renderLoop (convert_renderFrame hasCanvas) (video :: rest)) in
  let ps' := progressUntilStop (renderLoop (convert_renderFrame hasCanvas) rest) in
  ps = ps' \/ ps = progressOf video :: ps' \/ ps = [] \/ ps = [progressOf video].
Proof.
  intros Hd ((t & Ht) & Hdur). cbv zeta. cbn [renderLoop].
  generalize (renderLoop (convert_renderFrame hasCanvas) rest) as tail. intros tail.
  unfold convert_renderFrame.
  destruct (v_paused video || v_ended video) eqn:E; [right; right; left; reflexivity |].
  right. left. rewrite Hdur, truthy_Fin_pos by exact Hd.
  destruct hasCanvas; reflexivity.
Qed.

Lemma trim_callback_shape (startTime endTime : jsnum)
  (video : VideoState) (rest : list VideoState) :
  let progressOf v :=
    Math_min (mul (div (sub (currentTime v) startTime) (sub endTime startTime)) (Fin 100))
             (Fin 99) in
  let ps := progressUntilStop (renderLoop (trim_renderFrame startTime endTime) (video :: rest)) in
  let ps' := progressUntilStop (renderLoop (trim_renderFrame startTime endTime) rest) in
  ps = ps' \/ ps = progressOf video :: ps' \/ ps = [] \/ ps = [progressOf video].
Proof.
  cbv zeta. cbn [renderLoop].
  generalize (renderLoop (trim_renderFrame startTime endTime) rest) as tail. intros tail.
  unfold trim_renderFrame.
  destruct (v_paused video || v_ended video) eqn:E; [right; right; left; reflexivity |].
  destruct (ge (currentTime video) endTime).
  - right. right. left. reflexivity.
  - right. left. reflexivity.
Qed.

(** C6: with strictly increasing finite source times and a fixed positive
    duration (for trim, a start before the end), the progress values that
    each of the three render loops reports before the recorder is stopped
    are non-decreasing and at most 99. *)
Theorem C6_progress_monotone_capped
  (d a b : Q) (subtitles : list Subtitle) (hasCanvas : bool) (frames : list VideoState) :
  (0 < d)%Q ->
  (a < b)%Q ->
  Sorted (fun v w => lt (currentTime v) (currentTime w) = true) frames ->
  Forall (fun v => (exists t : Q, currentTime v = Fin t) /\ duration v = Fin d) frames ->
  forall trace : list effect,
    In trace [ renderLoop (burn_renderFrame subtitles) frames;
               renderLoop (trim_renderFrame (Fin a) (Fin b)) frames;
               renderLoop (convert_renderFrame hasCanvas) frames ] ->
    StronglySorted (fun p q => le p q = true) (progressUntilStop trace) /\
    Forall (fun p => le p (Fin 99) = true) (progressUntilStop trace).
Proof.
  intros Hd Hab Hsorted Hok trace Hin.
  apply Sorted_time_strong in Hsorted.
  assert (Hfull : forall v w : VideoState,
             (exists t : Q, currentTime v = Fin t) /\ duration v = Fin d ->
             (exists t : Q, currentTime w = Fin t) /\ duration w = Fin d ->
             lt (currentTime v) (currentTime w) = true ->
             le (Math_min (mul (div (currentTime v) (duration v)) (Fin 100)) (Fin 99))
                (Math_min (mul (div (currentTime w) (duration w)) (Fin 100)) (Fin 99)) = true).
  { intros v w ((t & Ht) & Hdv) ((u & Hu) & Hdw) Hlt.
    rewrite Ht, Hu, Hdv, Hdw in *. apply lt_Fin in Hlt.
    apply (percentCapped_mono t u d Hd). now apply Qlt_le_weak. }
  assert (Hcap : forall v : VideoState,
             (exists t : Q, currentTime v = Fin t) /\ duration v = Fin d ->
             le (Math_min (mul (div (currentTime v) (duration v)) (Fin 100)) (Fin 99))
                (Fin 99) = true).
  { intros v ((t & Ht) & Hdv). rewrite Ht, Hdv. now apply (percentCapped_le_99 t d). }
  assert (Hrange : (0 < Qred (b + Qred (- a)))%Q).
  { rewrite !Qred_correct. now rewrite <- (Qlt_minus_iff a b). }
  destruct Hin as [<- | [<- | [<- | []]]].
  - destruct (loop_progress (burn_renderFrame subtitles) _ _
                (fun v rest => burn_callback_shape d subtitles v rest Hd) Hfull Hcap
                frames Hok Hsorted) as (H1 & H2 & _).
    auto.
  - destruct (loop_progress (trim_renderFrame (Fin a) (Fin b))
                (fun v => Math_min (mul (div (sub (currentTime v) (Fin a))
                                             (sub (Fin b) (Fin a))) (Fin 100)) (Fin 99))
                (fun v => (exists t : Q, currentTime v = Fin t) /\ duration v = Fin d))
      with (frames := frames) as (H1 & H2 & _); auto.
    + intros v rest _. apply trim_callback_shape.
    + intros v w ((t & Ht) & _) ((u & Hu) & _) Hlt.
      rewrite Ht, Hu in *. apply lt_Fin in Hlt. cbn [sub neg add].
      apply (percentCapped_mono _ _ _ Hrange).
      rewrite !Qred_correct. apply Qplus_le_compat; [now apply Qlt_le_weak | apply Qle_refl].
    + intros v ((t & Ht) & _). rewrite Ht. cbn [sub neg add].
      apply (percentCapped_le_99 _ _ Hrange).
  - destruct (loop_progress (convert_renderFrame hasCanvas) _ _
                (fun v rest => convert_callback_shape d hasCanvas v rest Hd) Hfull Hcap
                frames Hok Hsorted) as (H1 & H2 & _).
    auto.
Qed.

Lemma C6_progress_monotone_capped_witness :
  progressUntilStop (renderLoop (burn_renderFrame []) playing_frames)
  = [Fin 10; Fin 20; Fin 40] /\
  StronglySorted (fun p q => le p q = true)
    (progressUntilStop (renderLoop (burn_renderFrame []) playing_frames)) /\
  Forall (fun p => le p (Fin 99) = true)
    (progressUntilStop (renderLoop (burn_renderFrame []) playing_frames)).
Proof.
  split; [vm_compute; reflexivity |].
  apply (C6_progress_monotone_capped 10 3 6 [] true playing_frames).
  - reflexivity.
  - reflexivity.
  - repeat constructor.
  - repeat constructor; eexists; reflexivity.
  - left. reflexivity.
Defined.

(** ** Stopping the recorder *)

(** C5 on the code: burn-in waits 1500 ms after the natural end before it
    stops the recorder; trim pauses the source and stops the recorder in the
    same callback, exactly when the end offset is reached, with no timer;
    convert stops the recorder in [onended] itself, with no timer. *)
Theorem C5_convert_onended_stops_at_once :
  (settleDelay burn_onended = Some 1500 /\ stopsNow burn_onended = false) /\
  (forall (startTime endTime t d : jsnum),
      let es := trim_renderFrame startTime endTime (mkVideoState t d false false) in
      stopsNow es = ge t endTime /\
      pausedBeforeStop es = ge t endTime /\
      settleDelay es = None) /\
  (settleDelay convert_onended = None /\ stopsNow convert_onended = true).
Proof.
  split; [split; reflexivity | split; [| split; reflexivity]].
  intros startTime endTime t d. cbv zeta. unfold trim_renderFrame.
  cbn [v_paused v_ended orb currentTime].
  destruct (ge t endTime); repeat split; reflexivity.
Qed.

(** ** Format negotiation *)

Section NegotiationFacts.

Variable isTypeSupported : list ascii -> bool.

Lemma findOr_found (candidates : list (list ascii)) (fallback t : list ascii) :
  Forall (fun c => c <> []) candidates ->
  first_supported isTypeSupported candidates t ->
  findOr isTypeSupported candidates fallback = t /\ t <> [].
Proof.
  intros Hne Hfirst. unfold findOr.
  assert (Ht : t <> []).
  { destruct Hfirst as (before & after & -> & _ & _).
    apply List.Forall_app in Hne. destruct Hne as (_ & Hne). now inversion Hne. }
  apply find_first_match in Hfirst. rewrite Hfirst.
  destruct t; [contradiction | auto].
Qed.

Lemma findOr_none (candidates : list (list ascii)) (fallback : list ascii) :
  none_supported isTypeSupported candidates ->
  findOr isTypeSupported candidates fallback = fallback.
Proof.
  intros Hnone. unfold findOr. apply find_none in Hnone. now rewrite Hnone.
Qed.

Lemma first_supported_app (l1 l2 : list (list ascii)) (t : list ascii) :
  first_supported isTypeSupported (l1 ++ l2) t ->
  first_supported isTypeSupported l1 t \/
  (none_supported isTypeSupported l1 /\ first_supported isTypeSupported l2 t).
Proof.
  intros Hfirst. apply find_first_match in Hfirst.
  destruct (find isTypeSupported l1) as [u |] eqn:E.
  - left. apply find_first_match.
    assert (Hu : find isTypeSupported (l1 ++ l2) = Some u).
    { clear Hfirst. induction l1 as [| a l1 IH]; [discriminate |].
      cbn in *. destruct (isTypeSupported a); auto. }
    congruence.
  - right. split; [now apply find_none |]. apply find_first_match.
    rewrite <- Hfirst. clear Hfirst. induction l1 as [| a l1 IH]; [reflexivity |].
    cbn in *. destruct (isTypeSupported a); [discriminate | auto].
Qed.

Lemma isEmpty_false (t : list ascii) : t <> [] -> isEmpty t = false.
Proof. destruct t; [contradiction | reflexivity]. Qed.

End NegotiationFacts.

Ltac nonempty_candidates := repeat constructor; discriminate.

(** C4: each operation takes the first candidate of its list that the
    host supports (for convert the list depends on the target).  When none
    is supported, burn-in rejects with a fixed message and convert rejects
    with a message that names the upper-cased target; trim misses the
    claim: it does not reject but constructs the recorder with
    "video/webm", the last of the candidates the host has just reported as
    unsupported. *)
Theorem C4_format_negotiation
  (isTypeSupported : list ascii -> bool)
  (toLowerCase toUpperCase : list ascii -> list ascii)
  (targetFormat : list ascii) :
  (forall t : list ascii,
      first_supported isTypeSupported burn_candidates t ->
      burn_negotiate isTypeSupported = Record t) /\
  (forall t : list ascii,
      first_supported isTypeSupported trim_candidates t ->
      trim_negotiate isTypeSupported = Record t) /\
  (forall t : list ascii,
      first_supported isTypeSupported
        (convert_candidates toLowerCase targetFormat) t ->
      convert_negotiate isTypeSupported toLowerCase toUpperCase targetFormat = Record t) /\
  (none_supported isTypeSupported burn_candidates ->
   burn_negotiate isTypeSupported
   = Reject (str "No supported video mime type found for recording.")) /\
  (none_supported isTypeSupported (convert_candidates toLowerCase targetFormat) ->
   convert_negotiate isTypeSupported toLowerCase toUpperCase targetFormat
   = Reject (str "Your browser cannot encode to a format compatible with "
             ++ toUpperCase targetFormat ++ str ". Try using Chrome or Edge.")) /\
  (none_supported isTypeSupported trim_candidates ->
   trim_negotiate isTypeSupported = Record (str "video/webm") /\
   In (str "video/webm") trim_candidates /\
   isTypeSupported (str "video/webm") = false /\
   forall message : list ascii, trim_negotiate isTypeSupported <> Reject message).
Proof.
  split; [| split; [| split; [| split; [| split]]]].
  - intros t Ht. unfold burn_negotiate.
    destruct (findOr_found isTypeSupported burn_candidates [] t) as (-> & Hne);
      [nonempty_candidates | exact Ht |].
    cbv zeta. now rewrite !(isEmpty_false t Hne).
  - intros t Ht. unfold trim_negotiate.
    destruct (findOr_found isTypeSupported trim_candidates (str "video/webm") t) as (-> & Hne);
      [nonempty_candidates | exact Ht |].
    reflexivity.
  - intros t Ht. unfold convert_negotiate, convert_candidates in *.
    destruct (isAudioOnly toLowerCase targetFormat).
    + destruct (findOr_found isTypeSupported audioCandidates [] t) as (-> & Hne);
        [nonempty_candidates | exact Ht |].
      cbv zeta. now rewrite !(isEmpty_false t Hne).
    + destruct (includes mp4Compatible targetFormat).
      * apply first_supported_app in Ht. destruct Ht as [Ht | (Hnone & Ht)].
        -- destruct (findOr_found isTypeSupported mp4Candidates [] t) as (-> & Hne);
             [nonempty_candidates | exact Ht |].
           cbv zeta. now rewrite !(isEmpty_false t Hne).
        -- rewrite (findOr_none isTypeSupported mp4Candidates [] Hnone).
           cbn [isEmpty].
           destruct (findOr_found isTypeSupported webmCandidates [] t) as (-> & Hne);
             [nonempty_candidates | exact Ht |].
           cbv zeta. now rewrite !(isEmpty_false t Hne).
      * cbn [isEmpty].
        destruct (findOr_found isTypeSupported webmCandidates [] t) as (-> & Hne);
          [nonempty_candidates | exact Ht |].
        cbv zeta. now rewrite !(isEmpty_false t Hne).
  - intros Hnone. unfold burn_negotiate. now rewrite findOr_none.
  - intros Hnone. unfold convert_negotiate, convert_candidates in *.
    destruct (isAudioOnly toLowerCase targetFormat).
    + now rewrite findOr_none.
    + destruct (includes mp4Compatible targetFormat).
      * unfold none_supported in Hnone. apply List.Forall_app in Hnone.
        destruct Hnone as (H1 & H2).
        rewrite (findOr_none isTypeSupported mp4Candidates [] H1). cbn [isEmpty].
        now rewrite (findOr_none isTypeSupported webmCandidates [] H2).
      * cbn [isEmpty]. now rewrite findOr_none.
  - intros Hnone. unfold trim_negotiate. rewrite findOr_none by exact Hnone.
    assert (Hin : In (str "video/webm") trim_candidates) by (cbn; tauto).
    split; [reflexivity | split; [exact Hin | split]].
    + unfold none_supported in Hnone. rewrite List.Forall_forall in Hnone.
      exact (Hnone _ Hin).
    + intros message. discriminate.
Qed.

(** A host that records nothing: burn-in and convert reject, trim goes on
    with "video/webm"; and a host that records plain WebM only. *)
Lemma C4_format_negotiation_witness :
  burn_negotiate webmOnly = Record (str "video/webm") /\
  burn_negotiate nothingSupported
  = Reject (str "No supported video mime type found for recording.") /\
  convert_negotiate nothingSupported (map asciiLower) (map asciiUpper) (str "mp4")
  = Reject (str "Your browser cannot encode to a format compatible with MP4. Try using Chrome or Edge.") /\
  trim_negotiate nothingSupported = Record (str "video/webm") /\
  nothingSupported (str "video/webm") = false.
Proof.
  assert (Hnone : forall candidates, none_supported nothingSupported candidates).
  { intros candidates. unfold none_supported. apply List.Forall_forall. reflexivity. }
  destruct (C4_format_negotiation nothingSupported (map asciiLower) (map asciiUpper) (str "mp4"))
    as (_ & _ & _ & Hburn & Hconvert & Htrim).
  destruct (Htrim (Hnone _)) as (Ht & _ & Hw & _).
  split; [| split; [exact (Hburn (Hnone _)) | split; [| split; [exact Ht | exact Hw]]]].
  - destruct (C4_format_negotiation webmOnly (map asciiLower) (map asciiUpper) (str "mp4"))
      as (H & _).
    apply H.
    exists (firstn 8 burn_candidates), [].
    split; [reflexivity | split; [reflexivity | repeat constructor]].
  - rewrite (Hconvert (Hnone _)). reflexivity.
Defined.


(** ** Offline mixing *)

Section OfflineMixingFacts.

Variable add64 : jsnum -> jsnum -> jsnum.
Variable mul64 : jsnum -> jsnum -> jsnum.
Variable div64 : jsnum -> jsnum -> jsnum.
Variable newOfflineAudioContext : OfflineContextArgs -> bool.
Variable sourceStart : AudioBuffer -> jsnum -> bool.
Variable startRendering :
  OfflineContextArgs -> list (AudioBuffer * jsnum) -> option AudioBuffer.

Lemma totalDuration_durations (tracks : list AudioTrack) :
  totalDuration add64 tracks = fold_left add64 (map track_duration tracks) (Fin 0).
Proof.
  unfold totalDuration. generalize (Fin 0).
  induction tracks as [| track tracks IH]; intros acc; [reflexivity |].
  cbn [fold_left map]. apply IH.
Qed.

(** The loop when no call throws: one start per track, each at the running
    sum of the durations before it. *)
Lemma schedule_from (count : nat) (tracks : list AudioTrack) (buffers : list AudioBuffer) :
  (forall buffer when, sourceStart buffer when = true) ->
  Forall2 decoded_track tracks buffers ->
  forall (k : nat) (starts : list (AudioBuffer * jsnum)) (from : jsnum)
         (progress : list jsnum),
    let loop :=
      fold_left (scheduleTrack add64 mul64 div64 sourceStart count)
        (combine (seq k (length tracks)) tracks)
        (mkMixLoop starts from progress false) in
    mix_thrown loop = false /\
    (exists more : list jsnum, mix_progress loop = progress ++ more) /\
    exists new : list (AudioBuffer * jsnum),
      mix_starts loop = starts ++ new /\
      length new = length tracks /\
      forall (i : nat) (track : AudioTrack),
        tracks !! i = Some track ->
        exists buffer : AudioBuffer,
          track_buffer track = Some buffer /\
          new !! i = Some (buffer, startOf add64 tracks from i).
Proof.
  intros Hhost. induction 1 as [| track buffer tracks buffers Hb _ IH];
    intros k starts from progress; cbv zeta.
  - cbn. split; [reflexivity | split; [exists []; now rewrite app_nil_r |]].
    exists []. split; [now rewrite app_nil_r | split; [reflexivity |]].
    intros i track Hi. discriminate Hi.
  - cbn [length seq combine fold_left]. unfold decoded_track in Hb.
    assert (Hstep :
      scheduleTrack add64 mul64 div64 sourceStart count
        (mkMixLoop starts from progress false) (k, track)
      = mkMixLoop (starts ++ [(buffer, from)]) (add64 from (track_duration track))
          (progress
           ++ [Math_round (mul64 (div64 (ofNat (k + 1)) (ofNat count)) (Fin 50))])
          false).
    { unfold scheduleTrack. cbn [mix_thrown mix_starts mix_currentTime mix_progress].
      now rewrite Hb, Hhost. }
    rewrite Hstep.
    match goal with
    | |- context [mkMixLoop ?s ?t ?p false] =>
        pose proof (IH (S k) s t p) as IH'; cbv zeta in IH';
        destruct IH' as (Hthrown & (more & Hmore) & new & Hnew & Hlen & Hget)
    end.
    split; [exact Hthrown | split].
    + eexists. rewrite Hmore, <- app_assoc. reflexivity.
    + exists ((buffer, from) :: new). split; [| split].
      * rewrite Hnew, <- app_assoc. reflexivity.
      * cbn. now rewrite Hlen.
      * intros [| i] tr Hi.
        -- cbn in Hi. inversion Hi; subst tr. exists buffer. split; [exact Hb | reflexivity].
        -- cbn in Hi. destruct (Hget i tr Hi) as (b' & H1 & H2).
           exists b'. split; [exact H1 |]. exact H2.
Qed.

End OfflineMixingFacts.

Lemma contextFrames_floor (args : OfflineContextArgs) (len : Q) :
  ctx_length args = Fin len ->
  (0 <= len)%Q -> (len < 4294967296)%Q ->
  contextFrames args = Qfloor len /\
  (inject_Z (contextFrames args) <= len)%Q /\
  (len < inject_Z (contextFrames args) + 1)%Q.
Proof.
  intros Hlen H0 Hmax.
  assert (E : contextFrames args = Qfloor len).
  { unfold contextFrames, ToUint32. rewrite Hlen. cbn [ToInteger].
    rewrite Qtrunc_nonneg_floor by exact H0.
    apply Z.mod_small. split.
    - rewrite <- (Qfloor_Z 0). now apply Qfloor_resp_le.
    - pose proof (Qfloor_le len) as Hfl.
      assert (H : (inject_Z (Qfloor len) < inject_Z 4294967296)%Q)
        by (eapply Qle_lt_trans; eauto).
      now rewrite <- Zlt_Qlt in H. }
  rewrite E. split; [reflexivity | split; [apply Qfloor_le |]].
  pose proof (Qlt_floor len) as H. now rewrite inject_Z_plus in H.
Qed.





(** ** timeToSeconds *)

Lemma splitChar_no_separator (c : ascii) (s : list ascii) :
  includesStr [c] s = false -> splitChar c s = [s].
Proof.
  induction s as [| x s IH]; [reflexivity |].
  cbn [includesStr startsWith splitChar]. rewrite andb_true_r.
  rewrite Ascii.eqb_sym. destruct (Ascii.eqb x c); [discriminate |].
  cbn [orb]. intros H. now rewrite (IH H).
Qed.

Lemma splitChar_with_separator (c : ascii) (s : list ascii) :
  includesStr [c] s = true ->
  exists (p q : list ascii) (rest : list (list ascii)), splitChar c s = p :: q :: rest.
Proof.
  induction s as [| x s IH]; [discriminate |].
  cbn [includesStr startsWith splitChar]. rewrite andb_true_r.
  rewrite Ascii.eqb_sym. destruct (Ascii.eqb x c).
  - intros _. destruct (splitChar c s) as [| q rest] eqn:E.
    + destruct s; cbn in E; [discriminate |].
      destruct (Ascii.eqb a c); [discriminate | destruct (splitChar c s); discriminate].
    + eauto.
  - cbn [orb]. intros H. destruct (IH H) as (p & q & rest & ->). eauto.
Qed.

Lemma timeToSeconds_unfold (c : ascii) (s : list ascii) :
  timeToSeconds (Some (c :: s))
  = timeFromParts (map Number (timeParts (c :: s)))
      (match millisecondsPart (c :: s) with
       | Some (x :: t) => x :: t
       | _ => str "0"
       end).
Proof.
  unfold timeToSeconds, timeParts, millisecondsPart, timeFromParts.
  set (normalized := replaceFirst "." "," (c :: s)).
  change (str ",") with [","%char].
  destruct (includesStr [","%char] normalized) eqn:E.
  - reflexivity.
  - rewrite (splitChar_no_separator _ _ E). reflexivity.
Qed.

Lemma timeFromParts_not_NaN (parts : list jsnum) (milliseconds : list ascii) :
  isNaN (timeFromParts parts milliseconds) = false.
Proof.
  unfold timeFromParts.
  destruct (match parts with
            | [h; m; s] => (h, m, s)
            | [m; s] => (Fin 0, m, s)
            | [s] => (Fin 0, Fin 0, s)
            | _ => (Fin 0, Fin 0, Fin 0)
            end) as [[hours minutes] seconds].
  cbv zeta.
  destruct (isNaN (add _ _)) eqn:E; [reflexivity | exact E].
Qed.

Lemma add_NaN_l (x : jsnum) : add NaN x = NaN.
Proof. reflexivity. Qed.

Lemma add_NaN_r (x : jsnum) : add x NaN = NaN.
Proof. now destruct x. Qed.

Lemma timeFromParts_all_NaN (parts : list jsnum) (milliseconds : list ascii) :
  parts <> [] ->
  Forall (fun p => p = NaN) parts ->
  or_else (Number milliseconds) (Fin 0) = Fin 0 ->
  timeFromParts parts milliseconds = Fin 0.
Proof.
  intros Hne Hall Hms. unfold timeFromParts. rewrite Hms.
  destruct parts as [| p1 [| p2 [| p3 [| p4 parts]]]]; [contradiction | | | |].
  - inversion Hall; subst. reflexivity.
  - inversion Hall as [| ? ? ? H2]; subst. inversion H2; subst. reflexivity.
  - inversion Hall as [| ? ? ? H2]; subst. inversion H2 as [| ? ? ? H3]; subst.
    inversion H3; subst. reflexivity.
  - reflexivity.
Qed.

Lemma timeFromParts_some_NaN (parts : list jsnum) (milliseconds : list ascii) :
  (1 <= length parts <= 3)%nat ->
  Exists (fun p => p = NaN) parts ->
  timeFromParts parts milliseconds = Fin 0.
Proof.
  intros Hlen Hex. unfold timeFromParts.
  destruct parts as [| p1 [| p2 [| p3 [| p4 parts]]]]; cbn in Hlen; try lia.
  - inversion Hex as [? ? H | ? ? H]; subst; [| inversion H].
    cbv zeta. now rewrite add_NaN_r.
  - cbv zeta.
    inversion Hex as [? ? H | ? ? H]; subst.
    + reflexivity.
    + inversion H as [? ? H' | ? ? H']; subst; [| inversion H'].
      now rewrite add_NaN_r.
  - cbv zeta.
    inversion Hex as [? ? H | ? ? H]; subst.
    + reflexivity.
    + inversion H as [? ? H' | ? ? H']; subst.
      * cbn [mul]. now rewrite add_NaN_r.
      * inversion H' as [? ? H'' | ? ? H'']; subst; [| inversion H''].
        now rewrite add_NaN_r.
Qed.

Lemma splitChar_nonempty (c : ascii) (s : list ascii) : splitChar c s <> [].
Proof.
  destruct s as [| x s]; [discriminate |]. cbn.
  destruct (Ascii.eqb x c); [discriminate |].
  destruct (splitChar c s); discriminate.
Qed.

(** C10: [timeToSeconds] has a value for every input and the value is never
    NaN; it is 0 for [undefined]/[null], for the empty string, and for every
    string none of whose parts is a number (the colon-separated time parts
    and a non-empty milliseconds part all give NaN under [Number]); it is
    also 0 as soon as one of up to three time parts is not a number. *)
Theorem C10_timeToSeconds_total_and_NaN_free :
  (forall timeString : option (list ascii),
      exists v : jsnum, timeToSeconds timeString = v /\ isNaN v = false) /\
  timeToSeconds None = Fin 0 /\
  timeToSeconds (Some []) = Fin 0 /\
  (forall timeString : list ascii,
      Forall (fun part => Number part = NaN) (timeParts timeString) ->
      (forall ms : list ascii,
          millisecondsPart timeString = Some ms -> ms <> [] -> Number ms = NaN) ->
      timeToSeconds (Some timeString) = Fin 0) /\
  (forall timeString : list ascii,
      (length (timeParts timeString) <= 3)%nat ->
      Exists (fun part => Number part = NaN) (timeParts timeString) ->
      timeToSeconds (Some timeString) = Fin 0).
Proof.
  split; [| split; [| split; [| split]]].
  - intros [[| c s] |]; eexists; (split; [reflexivity |]); try reflexivity.
    rewrite timeToSeconds_unfold. apply timeFromParts_not_NaN.
  - reflexivity.
  - reflexivity.
  - intros [| c s] Hparts Hms; [reflexivity |].
    rewrite timeToSeconds_unfold. apply timeFromParts_all_NaN.
    + intros E. apply map_eq_nil in E. now apply splitChar_nonempty in E.
    + clear Hms. induction Hparts; cbn; constructor; auto.
    + destruct (millisecondsPart (c :: s)) as [[| x t] |] eqn:E; try reflexivity.
      rewrite (Hms (x :: t) eq_refl); [reflexivity | discriminate].
  - intros [| c s] Hlen Hex; [reflexivity |].
    rewrite timeToSeconds_unfold. apply timeFromParts_some_NaN.
    + rewrite length_map. split; [| exact Hlen].
      pose proof (splitChar_nonempty ":" (nth 0 (splitChar "," (replaceFirst "." "," (c :: s))) [])).
      unfold timeParts in *. destruct (splitChar ":" _); [contradiction | cbn; lia].
    + clear Hlen. induction Hex; cbn; [left | right]; auto.
Qed.

Lemma C10_timeToSeconds_total_and_NaN_free_witness :
  timeToSeconds (Some (str "ab:cd,x")) = Fin 0 /\
  timeToSeconds (Some (str "1:zz")) = Fin 0.
Proof.
  destruct C10_timeToSeconds_total_and_NaN_free as (_ & _ & _ & Hall & Hsome).
  split.
  - apply Hall.
    + repeat constructor.
    + intros ms Hms _. vm_compute in Hms. inversion Hms; subst ms. reflexivity.
  - apply Hsome.
    + vm_compute. lia.
    + right. left. reflexivity.
Defined.

(** ** Strings *)

Lemma eqb_false_of_class (p : ascii -> bool) (d c : ascii) :
  p d = true -> p c = false -> Ascii.eqb d c = false.
Proof.
  intros Hd Hc. destruct (Ascii.eqb d c) eqn:E; [| reflexivity].
  apply Ascii.eqb_eq in E. congruence.
Qed.

Lemma replaceFirst_absent (a b : ascii) (s : list ascii) :
  Forall (fun c => c <> a) s -> replaceFirst a b s = s.
Proof.
  induction 1 as [| c s Hc _ IH]; [reflexivity |]. cbn.
  apply Ascii.eqb_neq in Hc. now rewrite Hc, IH.
Qed.

Lemma splitChar_absent (c : ascii) (p : list ascii) :
  Forall (fun x => x <> c) p -> splitChar c p = [p].
Proof.
  induction 1 as [| x p Hx _ IH]; [reflexivity |]. cbn.
  apply Ascii.eqb_neq in Hx. now rewrite Hx, IH.
Qed.

Lemma splitChar_app (c : ascii) (p rest : list ascii) :
  Forall (fun x => x <> c) p ->
  splitChar c (p ++ c :: rest) = p :: splitChar c rest.
Proof.
  induction 1 as [| x p Hx _ IH]; cbn.
  - now rewrite Ascii.eqb_refl.
  - apply Ascii.eqb_neq in Hx. now rewrite Hx, IH.
Qed.

Lemma join_splitChar (c : ascii) (s : list ascii) : join [c] (splitChar c s) = s.
Proof.
  induction s as [| x s IH]; [reflexivity |]. cbn [splitChar].
  destruct (Ascii.eqb x c) eqn:E.
  - apply Ascii.eqb_eq in E. subst x.
    destruct (splitChar c s) as [| q rest] eqn:Es.
    + now apply splitChar_nonempty in Es.
    + cbn [join app] in *. now rewrite IH.
  - destruct (splitChar c s) as [| q rest] eqn:Es.
    + now apply splitChar_nonempty in Es.
    + destruct rest; cbn [join app] in *; now rewrite <- IH.
Qed.

Lemma trimStart_ink (c : ascii) (s : list ascii) :
  is_space c = false -> trimStart (c :: s) = c :: s.
Proof. intros H. cbn. now rewrite H. Qed.

Lemma trim_ink_both_ends (c : ascii) (s : list ascii) (z : ascii) :
  is_space c = false -> is_space z = false -> trim (c :: s ++ [z]) = c :: s ++ [z].
Proof.
  intros Hc Hz. unfold trim, trimEnd. rewrite trimStart_ink by exact Hc.
  change (c :: s ++ [z]) with ((c :: s) ++ [z]). rewrite rev_app_distr.
  cbn [rev app]. rewrite trimStart_ink by exact Hz.
  change (z :: rev s ++ [c]) with ([z] ++ rev (c :: s)).
  rewrite rev_app_distr, rev_involutive. reflexivity.
Qed.

Lemma trimStart_suffix (s : list ascii) :
  exists ws : list ascii, s = ws ++ trimStart s.
Proof.
  induction s as [| c s (ws & IH)]; [now exists [] |]. cbn.
  destruct (is_space c).
  - exists (c :: ws). cbn. now rewrite <- IH.
  - now exists [].
Qed.

Lemma trimStart_head (s : list ascii) :
  trimStart s = [] \/ exists c t, trimStart s = c :: t /\ is_space c = false.
Proof.
  induction s as [| c s IH]; [now left |]. cbn.
  destruct (is_space c) eqn:E; [exact IH |]. right. eauto.
Qed.

Lemma trimStart_same_length (s : list ascii) :
  length (trimStart s) = length s -> trimStart s = s.
Proof.
  intros H. destruct (trimStart_suffix s) as (ws & E).
  assert (Hws : ws = []).
  { apply (f_equal (@length ascii)) in E. rewrite length_app in E.
    destruct ws; [reflexivity | cbn in E; lia]. }
  subst ws. now rewrite E at 2.
Qed.

Lemma trimStart_length (s : list ascii) : (length (trimStart s) <= length s)%nat.
Proof.
  destruct (trimStart_suffix s) as (ws & E).
  apply (f_equal (@length ascii)) in E. rewrite length_app in E. lia.
Qed.

(** A trimmed, non-empty string starts and ends with ink. *)
Lemma trimmed_ends (s : list ascii) :
  trim s = s -> s <> [] ->
  (exists c t, s = c :: t /\ is_space c = false) /\
  (exists t z, s = t ++ [z] /\ is_space z = false).
Proof.
  intros Htrim Hne. unfold trim, trimEnd in Htrim.
  pose proof (trimStart_length s) as L1.
  pose proof (trimStart_length (rev (trimStart s))) as L2.
  assert (L3 : length (trimStart (rev (trimStart s))) = length s).
  { rewrite <- Htrim at 2. now rewrite length_rev. }
  rewrite length_rev in L2.
  assert (Hs : trimStart s = s) by (apply trimStart_same_length; lia).
  rewrite Hs in Htrim, L3.
  assert (Hr : trimStart (rev s) = rev s).
  { apply trimStart_same_length. rewrite length_rev. lia. }
  split.
  - destruct (trimStart_head s) as [E | (c & t & E & Hc)]; rewrite Hs in E.
    + contradiction.
    + eauto.
  - destruct (trimStart_head (rev s)) as [E | (z & t & E & Hz)]; rewrite Hr in E.
    + apply (f_equal (@rev ascii)) in E. rewrite rev_involutive in E. contradiction.
    + exists (rev t), z. split; [| exact Hz].
      rewrite <- (rev_involutive s), E. reflexivity.
Qed.

(** ** The matcher on the greedy path *)

Lemma repP_greedy {R : Type} (p : ascii -> bool) (ds : list ascii) :
  forall (min max : nat) (rest : list ascii) (k : list ascii -> option R) (r : R),
    Forall (fun c => p c = true) ds ->
    (min <= length ds <= max)%nat ->
    length ds = max \/ stops p rest ->
    k rest = Some r ->
    repP p min max (ds ++ rest) k = Some r.
Proof.
  induction ds as [| d ds IH]; intros min max rest k r Hds Hlen Hstop Hk.
  - cbn in Hlen. assert (min = 0%nat) by lia. subst min. cbn [app].
    destruct max as [| max]; cbn; [exact Hk |].
    destruct Hstop as [Hstop | Hstop]; [discriminate |].
    destruct rest as [| c rest]; [exact Hk |]. cbn in Hstop. now rewrite Hstop.
  - inversion Hds as [| ? ? Hd Hds']; subst. cbn in Hlen.
    destruct max as [| max]; [lia |]. cbn [app repP]. rewrite Hd.
    rewrite (IH (pred min) max rest k r); auto; [lia |].
    destruct Hstop as [Hstop | Hstop]; [left; cbn in Hstop; lia | now right].
Qed.

Lemma starP_greedy {R : Type} (p : ascii -> bool) (ws : list ascii) :
  forall (rest : list ascii) (k : list ascii -> option R) (r : R),
    Forall (fun c => p c = true) ws ->
    stops p rest ->
    k rest = Some r ->
    starP p (ws ++ rest) k = Some r.
Proof.
  induction ws as [| w ws IH]; intros rest k r Hws Hstop Hk.
  - cbn [app]. destruct rest as [| c rest]; [exact Hk |]. cbn in *. now rewrite Hstop.
  - inversion Hws as [| ? ? Hw Hws']; subst. cbn [app starP]. rewrite Hw.
    now rewrite (IH rest k r).
Qed.

Lemma firstn_consumed {A : Type} (l rest : list A) :
  firstn (length (l ++ rest) - length rest) (l ++ rest) = l.
Proof.
  rewrite length_app. replace (length l + length rest - length rest)%nat with (length l) by lia.
  rewrite firstn_app, Nat.sub_diag, firstn_all. cbn. apply app_nil_r.
Qed.

Lemma timestamp_app (H M S K rest : list ascii) :
  timestamp H M S K ++ rest
  = H ++ ":"%char :: M ++ ":"%char :: S ++ ","%char :: K ++ rest.
Proof.
  unfold timestamp. rewrite <- app_assoc. cbn [app]. f_equal. f_equal.
  rewrite <- app_assoc. cbn [app]. f_equal. f_equal.
  rewrite <- app_assoc. reflexivity.
Qed.

Lemma timestampRe_match {R : Type} (H M S K rest : list ascii)
  (caps : list (list ascii)) (k : list ascii -> list (list ascii) -> option R) (r : R) :
  digits 2 H -> digits 2 M -> digits 2 S -> digits 3 K ->
  k rest caps = Some r ->
  rmatch timestampRe (timestamp H M S K ++ rest) caps k = Some r.
Proof.
  intros (LH & DH) (LM & DM) (LS & DS) (LK & DK) Hk.
  rewrite timestamp_app. unfold timestampRe. cbn [rmatch].
  apply repP_greedy; [exact DH | lia | left; exact LH |].
  cbv beta iota. rewrite Ascii.eqb_refl.
  apply repP_greedy; [exact DM | lia | left; exact LM |].
  cbv beta iota. rewrite Ascii.eqb_refl.
  apply repP_greedy; [exact DS | lia | left; exact LS |].
  cbv beta iota. rewrite Ascii.eqb_refl. cbn [orb].
  rewrite (repP_greedy is_digit K 1 3 rest (fun s' => k s' caps) r); auto; lia.
Qed.

Lemma Grp_timestampRe_match {R : Type} (H M S K rest : list ascii)
  (caps : list (list ascii)) (k : list ascii -> list (list ascii) -> option R) (r : R) :
  digits 2 H -> digits 2 M -> digits 2 S -> digits 3 K ->
  k rest (caps ++ [timestamp H M S K]) = Some r ->
  rmatch (Grp timestampRe) (timestamp H M S K ++ rest) caps k = Some r.
Proof.
  intros HH HM HS HK Hk. cbn [rmatch].
  apply timestampRe_match; auto. now rewrite firstn_consumed.
Qed.

Lemma digits_head_not_space (n : nat) (ds rest : list ascii) :
  digits (S n) ds -> stops is_space (ds ++ rest).
Proof.
  intros (L & D). destruct ds as [| d ds]; [discriminate |]. cbn.
  inversion D as [| ? ? Hd _]; subst.
  destruct (is_space d) eqn:E; [| reflexivity].
  exfalso. revert Hd E. unfold is_digit, is_space.
  generalize (nat_of_ascii d). intros n0 Hd E.
  apply andb_true_iff in Hd. destruct Hd as (H1 & H2).
  apply Nat.leb_le in H1, H2.
  apply orb_true_iff in E. destruct E as [E | E].
  - apply orb_true_iff in E. destruct E as [E | E].
    + apply andb_true_iff in E. destruct E as (_ & E). apply Nat.leb_le in E. lia.
    + apply Nat.eqb_eq in E. lia.
  - apply Nat.eqb_eq in E. lia.
Qed.

Lemma rmatch_Seq {R : Type} (r1 r2 : regex) (s : list ascii) (caps : list (list ascii))
  (k : list ascii -> list (list ascii) -> option R) :
  rmatch (Seq r1 r2) s caps k = rmatch r1 s caps (fun s' caps' => rmatch r2 s' caps' k).
Proof. reflexivity. Qed.

Lemma rmatch_Chr_hit {R : Type} (c : ascii) (s : list ascii) (caps : list (list ascii))
  (k : list ascii -> list (list ascii) -> option R) :
  rmatch (Chr c) (c :: s) caps k = k s caps.
Proof. cbn [rmatch]. now rewrite Ascii.eqb_refl. Qed.

Lemma rmatch_Star_greedy {R : Type} (p : ascii -> bool) (ws rest : list ascii)
  (caps : list (list ascii)) (k : list ascii -> list (list ascii) -> option R) (r : R) :
  Forall (fun c => p c = true) ws ->
  stops p rest ->
  k rest caps = Some r ->
  rmatch (Star p) (ws ++ rest) caps k = Some r.
Proof.
  intros Hws Hstop Hk. cbn [rmatch].
  exact (starP_greedy p ws rest (fun s' => k s' caps) r Hws Hstop Hk).
Qed.

(** The tail of the time line after the first time stamp: [\s*-->\s*(...)]. *)
Lemma arrow_tail_match (H2 M2 S2 K2 : list ascii) (caps : list (list ascii)) :
  digits 2 H2 -> digits 2 M2 -> digits 2 S2 -> digits 3 K2 ->
  rmatch
    (Seq (Star is_space) (Seq (Chr "-") (Seq (Chr "-") (Seq (Chr ">")
    (Seq (Star is_space) (Grp timestampRe))))))
    (str " --> " ++ timestamp H2 M2 S2 K2) caps
    (fun s' caps' => Some (s', caps'))
  = Some ([], caps ++ [timestamp H2 M2 S2 K2]).
Proof.
  intros B1 B2 B3 B4. rewrite rmatch_Seq.
  change (str " --> " ++ timestamp H2 M2 S2 K2)
    with ([" "%char] ++ "-"%char :: "-"%char :: ">"%char :: " "%char :: timestamp H2 M2 S2 K2).
  apply rmatch_Star_greedy; [repeat constructor | reflexivity |].
  rewrite rmatch_Seq, rmatch_Chr_hit.
  rewrite rmatch_Seq, rmatch_Chr_hit.
  rewrite rmatch_Seq, rmatch_Chr_hit.
  rewrite rmatch_Seq.
  change (" "%char :: timestamp H2 M2 S2 K2) with ([" "%char] ++ timestamp H2 M2 S2 K2).
  apply rmatch_Star_greedy; [repeat constructor | |].
  - rewrite <- (app_nil_r (timestamp H2 M2 S2 K2)), timestamp_app.
    exact (digits_head_not_space 1 H2 _ B1).
  - rewrite <- (app_nil_r (timestamp H2 M2 S2 K2)) at 1.
    exact (Grp_timestampRe_match H2 M2 S2 K2 [] caps _ _ B1 B2 B3 B4 eq_refl).
Qed.

(** The time line of a generated block matches at its start, and the two
    groups are the two time stamps. *)
Lemma timeLineRe_match (H1 M1 S1 K1 H2 M2 S2 K2 : list ascii) :
  digits 2 H1 -> digits 2 M1 -> digits 2 S1 -> digits 3 K1 ->
  digits 2 H2 -> digits 2 M2 -> digits 2 S2 -> digits 3 K2 ->
  regexMatch timeLineRe (timestamp H1 M1 S1 K1 ++ str " --> " ++ timestamp H2 M2 S2 K2)
  = Some [timestamp H1 M1 S1 K1; timestamp H2 M2 S2 K2].
Proof.
  intros A1 A2 A3 A4 B1 B2 B3 B4.
  assert (E : matchAt timeLineRe
                (timestamp H1 M1 S1 K1 ++ str " --> " ++ timestamp H2 M2 S2 K2)
              = Some ([], [timestamp H1 M1 S1 K1; timestamp H2 M2 S2 K2])).
  { unfold matchAt, timeLineRe. rewrite rmatch_Seq.
    apply (Grp_timestampRe_match H1 M1 S1 K1 _ [] _ _ A1 A2 A3 A4).
    exact (arrow_tail_match H2 M2 S2 K2 ([] ++ [timestamp H1 M1 S1 K1]) B1 B2 B3 B4). }
  generalize dependent (timestamp H1 M1 S1 K1 ++ str " --> " ++ timestamp H2 M2 S2 K2).
  intros s E. destruct s; cbn [regexMatch]; now rewrite E.
Qed.

(** ** Splitting at blank lines *)

Lemma inkFirst_app (s t : list ascii) : inkFirst s = true -> inkFirst (s ++ t) = true.
Proof.
  induction s as [| c s IH]; [discriminate |]. cbn.
  destruct (is_space c); [| reflexivity].
  destruct (Ascii.eqb c LF); [discriminate | exact IH].
Qed.

Lemma inkFirst_hd_line (s : list ascii) :
  inkFirst s = hasInk (hd [] (splitChar LF s)).
Proof.
  induction s as [| c s IH]; [reflexivity |]. cbn [inkFirst splitChar].
  destruct (Ascii.eqb c LF) eqn:E.
  - apply Ascii.eqb_eq in E. subst c. reflexivity.
  - destruct (splitChar LF s) as [| l rest] eqn:Es.
    + now apply splitChar_nonempty in Es.
    + cbn [hd] in *. rewrite IH. unfold hasInk. cbn [existsb].
      now destruct (is_space c).
Qed.

Lemma splitChar_suffix (c : ascii) (pre post : list ascii) :
  exists (f : list ascii) (front : list (list ascii)),
    splitChar c (pre ++ c :: post) = (f :: front) ++ splitChar c post.
Proof.
  induction pre as [| x pre (f & front & IH)]; cbn [app splitChar].
  - rewrite Ascii.eqb_refl. now exists [], [].
  - destruct (Ascii.eqb x c).
    + exists [], (f :: front). now rewrite IH.
    + rewrite IH. cbn [app]. now exists (x :: f), front.
Qed.

Lemma lines_ink_solid (b : list ascii) :
  Forall (fun line => hasInk line = true) (splitChar LF b) -> solid b.
Proof.
  intros Hall. split.
  - rewrite inkFirst_hd_line. destruct (splitChar LF b) as [| l rest] eqn:E.
    + now apply splitChar_nonempty in E.
    + now inversion Hall.
  - intros pre post ->. destruct (splitChar_suffix LF pre post) as (f & front & E).
    rewrite E in Hall. apply List.Forall_app in Hall. destruct Hall as (_ & Hpost).
    rewrite inkFirst_hd_line. destruct (splitChar LF post) as [| l rest] eqn:E'.
    + now apply splitChar_nonempty in E'.
    + now inversion Hpost.
Qed.

Lemma matchAt_blockSeparator (c : ascii) (s : list ascii) :
  matchAt blockSeparator (c :: s) = if Ascii.eqb c LF then afterSeparatorLF s else None.
Proof. reflexivity. Qed.

Lemma is_space_LF : is_space LF = true.
Proof. reflexivity. Qed.

Lemma afterSeparatorLF_ink (s : list ascii) :
  inkFirst s = true -> afterSeparatorLF s = None.
Proof.
  unfold afterSeparatorLF. induction s as [| c s IH]; [discriminate |].
  cbn [inkFirst starP]. destruct (is_space c) eqn:Ec.
  - destruct (Ascii.eqb c LF) eqn:E; [discriminate |].
    intros H. now rewrite (IH H).
  - intros _. destruct (Ascii.eqb c LF) eqn:E; [| reflexivity].
    apply Ascii.eqb_eq in E. subst c. rewrite is_space_LF in Ec. discriminate.
Qed.

Lemma afterSeparatorLF_LF (tail : list ascii) :
  inkFirst tail = true -> afterSeparatorLF (LF :: tail) = Some (tail, []).
Proof.
  intros H. pose proof (afterSeparatorLF_ink tail H) as E.
  unfold afterSeparatorLF in *. cbn [starP]. rewrite is_space_LF, E.
  now rewrite Ascii.eqb_refl.
Qed.

Lemma splitGo_solid (b : list ascii) :
  forall (piece tail : list ascii),
    (forall pre post : list ascii, b = pre ++ LF :: post -> inkFirst post = true) ->
    splitGo blockSeparator 0 piece b = [rev piece ++ b] /\
    (inkFirst tail = true ->
     splitGo blockSeparator 0 piece (b ++ LF :: LF :: tail)
     = (rev piece ++ b) :: splitGo blockSeparator 0 [] tail).
Proof.
  induction b as [| c b IH]; intros piece tail Hb.
  - split; [cbn; now rewrite app_nil_r |].
    intros Htail. cbn [app splitGo]. rewrite matchAt_blockSeparator, Ascii.eqb_refl.
    rewrite (afterSeparatorLF_LF tail Htail).
    replace (length (LF :: LF :: tail) - length tail)%nat with 2%nat by (cbn; lia).
    now rewrite app_nil_r.
  - assert (Hb' : forall pre post, b = pre ++ LF :: post -> inkFirst post = true).
    { intros pre post ->. apply (Hb (c :: pre) post). reflexivity. }
    destruct (IH (c :: piece) tail Hb') as (IH1 & IH2).
    assert (Hno : forall rest : list ascii,
               matchAt blockSeparator (c :: b ++ rest) = None).
    { intros rest. rewrite matchAt_blockSeparator.
      destruct (Ascii.eqb c LF) eqn:E; [| reflexivity].
      apply Ascii.eqb_eq in E. subst c.
      apply afterSeparatorLF_ink, inkFirst_app. apply (Hb [] b). reflexivity. }
    cbn [rev] in IH1, IH2. rewrite <- app_assoc in IH1, IH2. cbn [app] in IH1, IH2.
    split.
    + cbn [splitGo]. rewrite <- (app_nil_r b) at 1. now rewrite Hno.
    + intros Htail. cbn [app splitGo]. rewrite Hno. now apply IH2.
Qed.

Lemma join_cons2 (sep b b2 : list ascii) (blocks : list (list ascii)) :
  join sep (b :: b2 :: blocks) = b ++ sep ++ join sep (b2 :: blocks).
Proof. reflexivity. Qed.

Lemma inkFirst_join (b : list ascii) (blocks : list (list ascii)) :
  inkFirst b = true -> inkFirst (join [LF; LF] (b :: blocks)) = true.
Proof.
  intros H. destruct blocks; cbn [join]; [exact H | now apply inkFirst_app].
Qed.

(** Solid blocks joined by blank lines are split back into themselves. *)
Lemma splitRegex_join (blocks : list (list ascii)) :
  blocks <> [] ->
  Forall solid blocks ->
  splitRegex blockSeparator (join [LF; LF] blocks) = blocks.
Proof.
  intros Hne Hall. unfold splitRegex.
  induction Hall as [| b blocks (Hb1 & Hb2) Hrest IH]; [contradiction |].
  destruct blocks as [| b2 blocks].
  - cbn [join]. now destruct (splitGo_solid b [] [] Hb2) as (-> & _).
  - rewrite join_cons2.
    change ([LF; LF] ++ join [LF; LF] (b2 :: blocks))
      with (LF :: LF :: join [LF; LF] (b2 :: blocks)).
    destruct (splitGo_solid b [] (join [LF; LF] (b2 :: blocks)) Hb2) as (_ & H).
    rewrite H.
    + cbn [rev app]. f_equal. apply IH. discriminate.
    + apply inkFirst_join. inversion Hrest as [| ? ? (H2 & _) _]; subst. exact H2.
Qed.

(** ** The fields of a time stamp *)

Lemma Qfloor_unique (x : Q) (z : Z) :
  (inject_Z z <= x)%Q -> (x < inject_Z (z + 1))%Q -> Qfloor x = z.
Proof.
  intros Hl Hu.
  pose proof (Qfloor_le x) as Fl. pose proof (Qlt_floor x) as Fu.
  assert (H1 : (inject_Z z < inject_Z (Qfloor x + 1))%Q) by (eapply Qle_lt_trans; eauto).
  assert (H2 : (inject_Z (Qfloor x) < inject_Z (z + 1))%Q) by (eapply Qle_lt_trans; eauto).
  rewrite <- Zlt_Qlt in H1, H2. lia.
Qed.

Lemma Qfloor_sub_Z (x : Q) (k : Z) : Qfloor (x - inject_Z k) = Qfloor x - k.
Proof.
  apply Qfloor_unique.
  - unfold Z.sub. rewrite inject_Z_plus, inject_Z_opp.
    apply Qplus_le_compat; [apply Qfloor_le | apply Qle_refl].
  - replace (Qfloor x - k + 1) with ((Qfloor x + 1) + - k) by lia.
    rewrite inject_Z_plus, inject_Z_opp.
    apply Qplus_lt_le_compat; [apply Qlt_floor | apply Qle_refl].
Qed.

Lemma Qfloor_div_Z (x : Q) (n : positive) :
  Qfloor (x / inject_Z (Zpos n)) = Qfloor x / Zpos n.
Proof.
  destruct x as [a b]. unfold Qfloor, Qdiv, Qmult, Qinv, inject_Z. cbn.
  rewrite Z.mul_1_r, Pos2Z.inj_mul. symmetry. apply Z.div_div; lia.
Qed.

Lemma Qfloor_nonneg (x : Q) : (0 <= x)%Q -> 0 <= Qfloor x.
Proof. intros H. rewrite <- (Qfloor_Z 0). now apply Qfloor_resp_le. Qed.

Lemma Qtrunc_div_Z (x : Q) (n : positive) :
  (0 <= x)%Q -> Qtrunc (x / inject_Z (Zpos n)) = Qfloor x / Zpos n.
Proof.
  intros H. rewrite Qtrunc_nonneg_floor.
  - apply Qfloor_div_Z.
  - apply Qle_shift_div_l; [reflexivity |]. now rewrite Qmult_0_l.
Qed.

(** The four numbers [secondsToTime] prints for a finite, non-negative time. *)
Lemma secondsToTime_fields (q : Q) :
  (0 <= q)%Q ->
  Math_floor (div (Fin q) (Fin 3600)) = ofZ (Qfloor q / 3600) /\
  Math_floor (div (rem (Fin q) (Fin 3600)) (Fin 60)) = ofZ ((Qfloor q mod 3600) / 60) /\
  Math_floor (rem (Fin q) (Fin 60)) = ofZ (Qfloor q mod 60) /\
  Math_round (mul (rem (Fin q) (Fin 1)) (Fin 1000))
  = ofZ (Qfloor ((q - inject_Z (Qfloor q)) * 1000 + (1 # 2))).
Proof.
  intros Hq. unfold ofZ.
  change (Fin 3600) with (Fin (inject_Z (Zpos 3600))).
  change (Fin 60) with (Fin (inject_Z (Zpos 60))).
  change (Fin 1) with (Fin (inject_Z (Zpos 1))).
  cbn [div rem sign Qnum inject_Z Z.compare Math_floor Math_round mul].
  change (3600 # 1) with (inject_Z (Zpos 3600)).
  change (60 # 1) with (inject_Z (Zpos 60)).
  change (1 # 1) with (inject_Z (Zpos 1)).
  rewrite !Qtrunc_div_Z by exact Hq.
  split; [| split; [| split]]; do 2 f_equal.
  - rewrite Qred_correct. apply Qfloor_div_Z.
  - rewrite Qred_correct, Qfloor_div_Z, Qred_correct.
    rewrite <- inject_Z_mult, Qfloor_sub_Z. f_equal.
    rewrite Z.mod_eq by lia. reflexivity.
  - rewrite Qred_correct, <- inject_Z_mult, Qfloor_sub_Z.
    rewrite Z.mod_eq by lia. reflexivity.
  - apply Qfloor_comp. rewrite !Qred_correct.
    rewrite Z.div_1_r. change (inject_Z 1) with 1%Q. now rewrite Qmult_1_l.
Qed.

Lemma padCheck_2 : padCheck 2 100 = true.
Proof. vm_compute. reflexivity. Qed.

Lemma padCheck_3 : padCheck 3 1000 = true.
Proof. vm_compute. reflexivity. Qed.

Lemma pad_checked (size bound : nat) (z : Z) :
  padCheck size bound = true ->
  0 <= z < Z.of_nat bound ->
  digits size (pad (ofZ z) size) /\ Number (pad (ofZ z) size) = ofZ z.
Proof.
  intros Hcheck Hz. unfold padCheck in Hcheck.
  rewrite List.forallb_forall in Hcheck.
  specialize (Hcheck (Z.to_nat z)).
  unfold ofNat in Hcheck. rewrite Z2Nat.id in Hcheck by lia.
  assert (Hin : In (Z.to_nat z) (seq 0 bound)) by (apply in_seq; lia).
  apply Hcheck in Hin. cbv zeta in Hin.
  apply andb_true_iff in Hin. destruct Hin as (Hin & Hnum).
  apply andb_true_iff in Hin. destruct Hin as (Hlen & Hdig).
  apply Nat.eqb_eq in Hlen. apply bool_decide_eq_true in Hnum.
  split; [split; [exact Hlen |] | exact Hnum].
  rewrite List.forallb_forall in Hdig. apply List.Forall_forall. exact Hdig.
Qed.

Lemma srtTime_fields (q : Q) :
  srtTime q ->
  0 <= Qfloor q / 3600 < 100 /\
  0 <= (Qfloor q mod 3600) / 60 < 60 /\
  0 <= Qfloor q mod 60 < 60 /\
  0 <= Qfloor ((q - inject_Z (Qfloor q)) * 1000 + (1 # 2)) < 1000.
Proof.
  intros (H0 & Hmax & Hfrac).
  pose proof (Qfloor_nonneg q H0) as F0.
  assert (Fmax : Qfloor q < 360000).
  { pose proof (Qfloor_le q) as Fl.
    assert (H : (inject_Z (Qfloor q) < inject_Z 360000)%Q) by (eapply Qle_lt_trans; eauto).
    now rewrite <- Zlt_Qlt in H. }
  split; [| split; [| split]].
  - split; [apply Z.div_pos; lia | apply Z.div_lt_upper_bound; lia].
  - pose proof (Z.mod_pos_bound (Qfloor q) 3600 ltac:(lia)).
    split; [apply Z.div_pos; lia | apply Z.div_lt_upper_bound; lia].
  - apply Z.mod_pos_bound. lia.
  - set (f := (q - inject_Z (Qfloor q))%Q) in *.
    assert (Hf0 : (0 <= f)%Q).
    { unfold f. rewrite <- (Qplus_opp_r (inject_Z (Qfloor q))).
      apply Qplus_le_compat; [apply Qfloor_le | apply Qle_refl]. }
    split.
    + apply Qfloor_nonneg.
      replace 0%Q with (0 + 0)%Q by reflexivity.
      apply Qplus_le_compat; [| discriminate].
      apply Qmult_le_0_compat; [exact Hf0 | discriminate].
    + assert (Hlt : (f * 1000 + (1 # 2) < inject_Z 1000)%Q).
      { clearbody f. destruct f as [a b]. unfold Qlt, Qle, Qmult, Qplus in *. cbn in *. lia. }
      pose proof (Qfloor_le (f * 1000 + (1 # 2))) as Fl.
      assert (H : (inject_Z (Qfloor (f * 1000 + (1 # 2))) < inject_Z 1000)%Q)
        by (eapply Qle_lt_trans; eauto).
      now rewrite <- Zlt_Qlt in H.
Qed.

(** The time stamp of a time the format can carry: four digit fields
    that read back as hours, minutes, seconds and milliseconds. *)
Lemma secondsToTime_timestamp (q : Q) :
  srtTime q ->
  exists H M S K : list ascii,
    secondsToTime (Fin q) (str ",") = timestamp H M S K /\
    digits 2 H /\ digits 2 M /\ digits 2 S /\ digits 3 K /\
    Number H = ofZ (Qfloor q / 3600) /\
    Number M = ofZ ((Qfloor q mod 3600) / 60) /\
    Number S = ofZ (Qfloor q mod 60) /\
    Number K = ofZ (Qfloor ((q - inject_Z (Qfloor q)) * 1000 + (1 # 2))).
Proof.
  intros Hq. pose proof Hq as (H0 & _).
  destruct (srtTime_fields q Hq) as (Bh & Bm & Bs & Bk).
  destruct (secondsToTime_fields q H0) as (Eh & Em & Es & Ek).
  unfold secondsToTime. rewrite Eh, Em, Es, Ek.
  destruct (pad_checked 2 100 _ padCheck_2 Bh) as (Dh & Nh).
  destruct (pad_checked 2 100 ((Qfloor q mod 3600) / 60) padCheck_2) as (Dm & Nm); [lia |].
  destruct (pad_checked 2 100 (Qfloor q mod 60) padCheck_2) as (Ds & Ns); [lia |].
  destruct (pad_checked 3 1000 _ padCheck_3 Bk) as (Dk & Nk).
  eexists _, _, _, _. split; [reflexivity |]. repeat (split; [assumption |]). assumption.
Qed.

Lemma digits_exclude (n : nat) (ds : list ascii) (c : ascii) :
  digits n ds -> is_digit c = false -> Forall (fun x => x <> c) ds.
Proof.
  intros (_ & D) Hc. eapply Forall_impl; [exact D |].
  intros x Hx E. subst x. congruence.
Qed.

Lemma timeToSeconds_timestamp (H M S K : list ascii) :
  digits 2 H -> digits 2 M -> digits 2 S -> digits 3 K ->
  timeToSeconds (Some (timestamp H M S K))
  = timeFromParts [Number H; Number M; Number S] K.
Proof.
  intros DH DM DS DK.
  assert (Hdot : Forall (fun x => x <> "."%char) (timestamp H M S K)).
  { unfold timestamp.
    repeat first [apply Forall_app; split | apply Forall_cons; split; [discriminate |]];
      eapply digits_exclude; eauto. }
  assert (Hsep : splitChar "," (replaceFirst "." "," (timestamp H M S K))
                 = [H ++ ":"%char :: M ++ ":"%char :: S; K]).
  { rewrite replaceFirst_absent by exact Hdot. unfold timestamp.
    replace (H ++ ":"%char :: M ++ ":"%char :: S ++ ","%char :: K)
      with ((H ++ ":"%char :: M ++ ":"%char :: S) ++ ","%char :: K).
    - rewrite splitChar_app.
      + f_equal. apply splitChar_absent. eapply digits_exclude; eauto.
      + repeat first [apply Forall_app; split | apply Forall_cons; split; [discriminate |]];
          eapply digits_exclude; eauto.
    - rewrite <- app_assoc. cbn [app]. do 2 f_equal.
      rewrite <- app_assoc. reflexivity. }
  destruct (timestamp H M S K) as [| c s] eqn:E.
  { destruct DH as (L & _). destruct H; discriminate. }
  rewrite timeToSeconds_unfold. unfold timeParts, millisecondsPart.
  rewrite Hsep. cbn [nth nth_error].
  rewrite splitChar_app by (eapply digits_exclude; eauto).
  rewrite splitChar_app by (eapply digits_exclude; eauto).
  rewrite splitChar_absent by (eapply digits_exclude; eauto).
  destruct K as [| k K']; [destruct DK; discriminate |]. reflexivity.
Qed.

Lemma or_else_ofZ (z : Z) : or_else (ofZ z) (Fin 0) = ofZ z.
Proof. unfold or_else, ofZ. cbn. now destruct z. Qed.

(** The parsed value of a printed time: the time rounded to milliseconds. *)
Lemma timeToSeconds_secondsToTime (q : Q) :
  srtTime q ->
  timeToSeconds (Some (secondsToTime (Fin q) (str ","))) = Fin (roundToMs q).
Proof.
  intros Hq.
  destruct (secondsToTime_timestamp q Hq)
    as (H & M & S & K & -> & DH & DM & DS & DK & NH & NM & NS & NK).
  rewrite timeToSeconds_timestamp by assumption.
  unfold timeFromParts. rewrite NH, NM, NS, NK, or_else_ofZ.
  unfold ofZ. cbn [mul add div sign Qnum Z.compare isNaN].
  f_equal. unfold roundToMs. apply Qred_complete. rewrite !Qred_correct.
  set (k := Qfloor ((q - inject_Z (Qfloor q)) * 1000 + (1 # 2))).
  apply Qplus_comp; [| reflexivity].
  change 3600%Q with (inject_Z 3600). change 60%Q with (inject_Z 60).
  rewrite <- !inject_Z_mult, <- !inject_Z_plus. apply inject_Z_injective.
  pose proof (Z.div_mod (Qfloor q) 3600 ltac:(lia)) as E1.
  pose proof (Z.div_mod (Qfloor q mod 3600) 60 ltac:(lia)) as E2.
  assert (E3 : (Qfloor q mod 3600) mod 60 = Qfloor q mod 60).
  { apply Z.mod_mod_divide. exists 60. reflexivity. }
  lia.
Qed.

Lemma roundToMs_close (q : Q) : (Qabs (roundToMs q - q) <= 1 # 2000)%Q.
Proof.
  unfold roundToMs. rewrite Qred_correct.
  set (F := inject_Z (Qfloor q)).
  set (f := (q - F)%Q).
  pose proof (Qfloor_le (f * 1000 + (1 # 2))) as Fl.
  pose proof (Qlt_floor (f * 1000 + (1 # 2))) as Fu.
  rewrite inject_Z_plus in Fu.
  set (k := inject_Z (Qfloor (f * 1000 + (1 # 2)))) in *.
  assert (E : (F + k / 1000 - q == k / 1000 - f)%Q) by (unfold f; field).
  rewrite E. apply Qabs_Qle_condition. clearbody k f.
  destruct k as [kn kd], f as [fn fd].
  unfold Qle, Qlt, Qdiv, Qmult, Qplus, Qminus, Qopp, Qinv in *. cbn in *. split; lia.
Qed.

(** ** Generated blocks *)

Lemma string_of_uint_digits (d : Decimal.uint) :
  Forall (fun c => is_digit c = true)
    (list_ascii_of_string (NilEmpty.string_of_uint d)).
Proof.
  induction d; cbn; constructor; auto.
Qed.

Lemma natToString_digits (n : nat) :
  natToString n <> [] /\ Forall (fun c => is_digit c = true) (natToString n).
Proof.
  unfold natToString, NilZero.string_of_uint.
  destruct (Nat.to_uint n) as [| d | d | d | d | d | d | d | d | d | d] eqn:E;
    (split; [cbn; discriminate |]);
    try (rewrite <- E; apply string_of_uint_digits).
  repeat constructor.
Qed.

Lemma digit_timeChar (c : ascii) : is_digit c = true -> timeChar c = true.
Proof. intros H. unfold timeChar. now rewrite H. Qed.

Lemma timestamp_timeChar (H M S K : list ascii) :
  digits 2 H -> digits 2 M -> digits 2 S -> digits 3 K ->
  Forall (fun c => timeChar c = true) (timestamp H M S K).
Proof.
  intros (_ & DH) (_ & DM) (_ & DS) (_ & DK). unfold timestamp.
  repeat first [apply Forall_app; split | apply Forall_cons; split; [reflexivity |]];
    (eapply Forall_impl; [eassumption | exact digit_timeChar]).
Qed.

Lemma timeLine_timeChar (T1 T2 : list ascii) :
  Forall (fun c => timeChar c = true) T1 ->
  Forall (fun c => timeChar c = true) T2 ->
  Forall (fun c => timeChar c = true) (timeLine T1 T2).
Proof.
  intros H1 H2. unfold timeLine.
  apply Forall_app; split; [exact H1 |].
  apply Forall_app; split; [repeat constructor | exact H2].
Qed.

Lemma class_exclude (p : ascii -> bool) (s : list ascii) (c : ascii) :
  Forall (fun x => p x = true) s -> p c = false -> Forall (fun x => x <> c) s.
Proof.
  intros Hs Hc. eapply Forall_impl; [exact Hs |].
  intros x Hx E. subst x. congruence.
Qed.

Lemma startsWith_app (p s : list ascii) : startsWith p (p ++ s) = true.
Proof.
  induction p as [| x p IH]; [reflexivity |]. cbn. now rewrite Ascii.eqb_refl.
Qed.

Lemma includesStr_app (p a s : list ascii) :
  includesStr p s = true -> includesStr p (a ++ s) = true.
Proof.
  intros H. induction a as [| x a IH]; [exact H |]. cbn [app includesStr].
  rewrite IH. apply orb_true_r.
Qed.

Lemma includesStr_here (p s : list ascii) : includesStr p (p ++ s) = true.
Proof.
  destruct (p ++ s) eqn:E; cbn [includesStr]; rewrite <- E, startsWith_app; reflexivity.
Qed.

Lemma includes_arrow_digits (s : list ascii) :
  Forall (fun c => is_digit c = true) s -> includesStr (str "-->") s = false.
Proof.
  induction 1 as [| d s Hd _ IH]; [reflexivity |].
  cbn [includesStr]. rewrite IH, orb_false_r.
  cbn [str list_ascii_of_string startsWith].
  destruct (Ascii.eqb "-" d) eqn:E; [| reflexivity].
  apply Ascii.eqb_eq in E. subst d. discriminate Hd.
Qed.

Lemma replaceCRLF_absent (s : list ascii) :
  Forall (fun c => c <> CR) s -> replaceCRLF s = s.
Proof.
  induction 1 as [| x s Hx _ IH]; [reflexivity |].
  cbn [replaceCRLF]. apply Ascii.eqb_neq in Hx. rewrite Hx. cbn [andb].
  rewrite IH. now destruct s.
Qed.

Lemma replaceCR_absent (s : list ascii) :
  Forall (fun c => c <> CR) s -> replaceCR s = s.
Proof.
  unfold replaceCR. induction 1 as [| x s Hx _ IH]; [reflexivity |].
  cbn [map]. apply Ascii.eqb_neq in Hx. now rewrite Hx, IH.
Qed.

Lemma Forall_join (P : ascii -> Prop) (sep : list ascii) (pieces : list (list ascii)) :
  Forall P sep -> Forall (Forall P) pieces -> Forall P (join sep pieces).
Proof.
  intros Hsep. induction 1 as [| p pieces Hp Hrest IH]; [constructor |].
  destruct pieces as [| p2 pieces]; [exact Hp |].
  rewrite join_cons2. apply Forall_app; split; [exact Hp |].
  apply Forall_app; split; [exact Hsep | exact IH].
Qed.

Lemma digit_not_space (c : ascii) : is_digit c = true -> is_space c = false.
Proof.
  intros H. assert (D : digits 1 [c]) by (split; [reflexivity | now repeat constructor]).
  exact (digits_head_not_space 0 [c] [] D).
Qed.

(** A generated block, seen as its three parts. *)
Lemma srtBlock_parts (index : nat) (sub : Subtitle) :
  srtBlock index sub
  = natToString (index + 1) ++ LF
    :: timeLine (secondsToTime (startTime sub) (str ","))
                (secondsToTime (endTime sub) (str ","))
       ++ LF :: text sub.
Proof.
  unfold srtBlock, timeLine. cbn [app]. f_equal. f_equal.
  rewrite <- !app_assoc. reflexivity.
Qed.

Section GeneratedBlock.

Variables (index : nat) (sub : Subtitle) (a b : Q).
Hypothesis start_a : startTime sub = Fin a.
Hypothesis end_b : endTime sub = Fin b.
Hypothesis time_a : srtTime a.
Hypothesis time_b : srtTime b.
Hypothesis text_ok : srtText (text sub).

Let idLine : list ascii := natToString (index + 1).
Let T1 : list ascii := secondsToTime (Fin a) (str ",").
Let T2 : list ascii := secondsToTime (Fin b) (str ",").

Lemma block_shape : srtBlock index sub = idLine ++ LF :: timeLine T1 T2 ++ LF :: text sub.
Proof. rewrite srtBlock_parts, start_a, end_b. reflexivity. Qed.

Lemma text_nonempty : text sub <> [].
Proof.
  destruct text_ok as (_ & _ & Hlines). intros E. rewrite E in Hlines.
  cbn in Hlines. inversion Hlines as [| ? ? H _]; subst. discriminate H.
Qed.

Lemma timeLine_chars : Forall (fun c => timeChar c = true) (timeLine T1 T2).
Proof.
  destruct (secondsToTime_timestamp a time_a) as (H1 & M1 & S1 & K1 & E1 & D1 & D2 & D3 & D4 & _).
  destruct (secondsToTime_timestamp b time_b) as (H2 & M2 & S2 & K2 & E2 & D5 & D6 & D7 & D8 & _).
  apply timeLine_timeChar; unfold T1, T2; [rewrite E1 | rewrite E2];
    now apply timestamp_timeChar.
Qed.

Lemma block_lines :
  splitChar LF (srtBlock index sub) = idLine :: timeLine T1 T2 :: splitChar LF (text sub).
Proof.
  rewrite block_shape.
  rewrite splitChar_app
    by (eapply class_exclude; [exact (proj2 (natToString_digits (index + 1))) | reflexivity]).
  rewrite splitChar_app
    by (eapply class_exclude; [exact timeLine_chars | reflexivity]).
  reflexivity.
Qed.

Lemma block_no_CR : Forall (fun c => c <> CR) (srtBlock index sub).
Proof.
  rewrite block_shape.
  apply Forall_app; split.
  - eapply class_exclude; [exact (proj2 (natToString_digits (index + 1))) | reflexivity].
  - apply Forall_cons; split; [discriminate |].
    apply Forall_app; split.
    + eapply class_exclude; [exact timeLine_chars | reflexivity].
    + apply Forall_cons; split; [discriminate | exact (proj1 text_ok)].
Qed.

Lemma idLine_head : exists d t, idLine = d :: t /\ is_digit d = true.
Proof.
  destruct (natToString_digits (index + 1)) as (Hne & Hd). unfold idLine.
  destruct (natToString (index + 1)) as [| d t]; [contradiction |].
  exists d, t. split; [reflexivity | now inversion Hd].
Qed.

Lemma block_trimmed : trim (srtBlock index sub) = srtBlock index sub.
Proof.
  rewrite block_shape.
  destruct idLine_head as (d & t & -> & Hd).
  destruct (trimmed_ends (text sub) (proj1 (proj2 text_ok)) text_nonempty)
    as (_ & (u & z & -> & Hz)).
  replace ((d :: t) ++ LF :: timeLine T1 T2 ++ LF :: u ++ [z])
    with (d :: (t ++ LF :: timeLine T1 T2 ++ LF :: u) ++ [z]).
  - apply trim_ink_both_ends; [now apply digit_not_space | exact Hz].
  - cbn [app]. f_equal. rewrite <- app_assoc. cbn [app]. do 2 f_equal.
    rewrite <- app_assoc. reflexivity.
Qed.

Lemma timeLine_hasInk : hasInk (timeLine T1 T2) = true.
Proof.
  destruct (secondsToTime_timestamp a time_a)
    as (H1 & M1 & S1 & K1 & E1 & (L1 & D1) & _).
  unfold timeLine, T1. rewrite E1. unfold timestamp.
  destruct H1 as [| d H1]; [discriminate |]. inversion D1; subst.
  cbn [app hasInk existsb]. now rewrite digit_not_space.
Qed.

Lemma block_solid : solid (srtBlock index sub).
Proof.
  apply lines_ink_solid. rewrite block_lines.
  constructor; [| constructor; [exact timeLine_hasInk | exact (proj2 (proj2 text_ok))]].
  destruct idLine_head as (d & t & -> & Hd). cbn [hasInk existsb].
  now rewrite digit_not_space.
Qed.

Lemma block_timeLine_match :
  regexMatch timeLineRe (timeLine T1 T2) = Some [T1; T2].
Proof.
  destruct (secondsToTime_timestamp a time_a) as (H1 & M1 & S1 & K1 & E1 & D1 & D2 & D3 & D4 & _).
  destruct (secondsToTime_timestamp b time_b) as (H2 & M2 & S2 & K2 & E2 & D5 & D6 & D7 & D8 & _).
  unfold timeLine, T1, T2. rewrite E1, E2. now apply timeLineRe_match.
Qed.

(** Parsing one generated block appends the cue, renumbered, with its
    times rounded to milliseconds. *)
Lemma parseBlock_srtBlock (subtitles : list Subtitle) :
  parseBlock subtitles (srtBlock index sub)
  = subtitles ++
    [mkSubtitle (Z.of_nat (length subtitles) + 1) (Fin (roundToMs a)) (Fin (roundToMs b))
       (text sub)].
Proof.
  unfold parseBlock. rewrite block_trimmed, block_lines.
  assert (Hid : includesStr (str "-->") idLine = false)
    by (apply includes_arrow_digits, natToString_digits).
  assert (Htl : includesStr (str "-->") (timeLine T1 T2) = true).
  { unfold timeLine. apply includesStr_app.
    change (str " --> " ++ T2) with (" "%char :: str "-->" ++ " "%char :: T2).
    apply (includesStr_app _ [" "%char]). apply includesStr_here. }
  cbn [findTimeLine]. rewrite Hid, Htl. cbn [nth].
  rewrite block_timeLine_match.
  unfold T1, T2. rewrite !timeToSeconds_secondsToTime by assumption.
  cbn [Nat.add skipn]. change (skipn 0 (splitChar LF (text sub))) with (splitChar LF (text sub)).
  rewrite join_splitChar, (proj1 (proj2 text_ok)).
  generalize text_nonempty. generalize (text sub). intros l Hne.
  destruct l; [contradiction | reflexivity].
Qed.

End GeneratedBlock.

(** ** The SRT round trip *)

Lemma mapi_length {A B : Type} (f : nat -> A -> B) (l : list A) :
  forall k : nat, length (mapi f k l) = length l.
Proof. induction l as [| x l IH]; intros k; cbn; [reflexivity | now rewrite IH]. Qed.

Lemma mapi_lookup {A B : Type} (f : nat -> A -> B) (l : list A) :
  forall (k i : nat) (x : A),
    l !! i = Some x -> mapi f k l !! i = Some (f (k + i)%nat x).
Proof.
  induction l as [| y l IH]; intros k i x Hi; [discriminate |].
  destruct i as [| i].
  - cbn in Hi. inversion Hi; subst. rewrite Nat.add_0_r. reflexivity.
  - replace (k + S i)%nat with (S k + i)%nat by lia. exact (IH (S k) i x Hi).
Qed.

Lemma reparsed_srtCue (index : nat) (sub : Subtitle) (a b : Q) :
  startTime sub = Fin a -> endTime sub = Fin b ->
  reparsed index sub
  = mkSubtitle (Z.of_nat index + 1) (Fin (roundToMs a)) (Fin (roundToMs b)) (text sub).
Proof. intros Ha Hb. unfold reparsed. now rewrite Ha, Hb. Qed.

Lemma parse_blocks (cues : list Subtitle) :
  Forall srtCue cues ->
  forall subtitles : list Subtitle,
    fold_left parseBlock (mapi srtBlock (length subtitles) cues) subtitles
    = subtitles ++ mapi reparsed (length subtitles) cues.
Proof.
  induction 1 as [| sub cues ((a & Ha & Ta) & (b & Hb & Tb) & Htext) _ IH]; intros subtitles.
  - cbn. now rewrite app_nil_r.
  - cbn [mapi fold_left].
    rewrite (parseBlock_srtBlock (length subtitles) sub a b Ha Hb Ta Tb Htext subtitles).
    rewrite (reparsed_srtCue _ sub a b Ha Hb).
    specialize (IH (subtitles ++
      [mkSubtitle (Z.of_nat (length subtitles) + 1) (Fin (roundToMs a)) (Fin (roundToMs b))
         (text sub)])).
    rewrite length_app in IH. cbn [length] in IH.
    replace (length subtitles + 1)%nat with (S (length subtitles)) in IH by lia.
    rewrite IH, <- app_assoc. reflexivity.
Qed.

Lemma blocks_solid (cues : list Subtitle) :
  Forall srtCue cues ->
  forall k : nat,
    Forall solid (mapi srtBlock k cues) /\
    Forall (Forall (fun c => c <> CR)) (mapi srtBlock k cues).
Proof.
  induction 1 as [| sub cues ((a & Ha & Ta) & (b & Hb & Tb) & Htext) _ IH]; intros k.
  - split; constructor.
  - destruct (IH (S k)) as (IH1 & IH2). cbn [mapi]. split; constructor; auto.
    + exact (block_solid k sub a b Ha Hb Ta Tb Htext).
    + exact (block_no_CR k sub a b Ha Hb Ta Tb Htext).
Qed.

Lemma parseSRT_generateSRT (cues : list Subtitle) :
  Forall srtCue cues -> parseSRT (generateSRT cues) = mapi reparsed 0 cues.
Proof.
  intros Hcues. unfold parseSRT, generateSRT.
  destruct (blocks_solid cues Hcues 0) as (Hsolid & Hcr).
  assert (Hno : Forall (fun c => c <> CR) (join [LF; LF] (mapi srtBlock 0 cues))).
  { apply Forall_join; [repeat constructor; discriminate | exact Hcr]. }
  rewrite replaceCRLF_absent, replaceCR_absent by assumption.
  destruct cues as [| sub cues]; [reflexivity |].
  rewrite splitRegex_join; [| discriminate | exact Hsolid].
  exact (parse_blocks (sub :: cues) Hcues []).
Qed.

Lemma srtTime_of_Z (z : Z) : 0 <= z < 360000 -> srtTime (inject_Z z).
Proof.
  intros H. unfold srtTime. rewrite Qfloor_Z. repeat split.
  - rewrite <- (Zle_Qle 0). lia.
  - change 360000%Q with (inject_Z 360000). rewrite <- Zlt_Qlt. lia.
  - unfold Qle, Qminus, Qplus, Qopp, inject_Z. cbn. lia.
Qed.

Lemma roundToMs_near (q : Q) : (Qabs (roundToMs q - q) < 1 # 1000)%Q.
Proof.
  eapply Qle_lt_trans; [apply roundToMs_close | reflexivity].
Qed.

(** On the cues the format carries, the times rounded to the millisecond
    are the times read back from the stamps. *)
Lemma reparsed_reread (cues : list Subtitle) :
  Forall srtCue cues ->
  forall k : nat, mapi reparsed k cues = mapi (reread (str ",")) k cues.
Proof.
  induction 1 as [| sub cues ((a & Ha & Ta) & (b & Hb & Tb) & _) _ IH]; intros k;
    [reflexivity |].
  cbn [mapi]. rewrite (IH (S k)). f_equal.
  unfold reparsed, reread. rewrite Ha, Hb. cbn [roundTime].
  now rewrite !timeToSeconds_secondsToTime.
Qed.




(** * Further properties *)

(** ** The WAV file as a whole *)

Lemma frames2_lookup (left : list jsnum) :
  forall (right : list jsnum) (i : nat),
    length left = length right ->
    frames2 left right !! (i * 2)%nat = left !! i /\
    frames2 left right !! (i * 2 + 1)%nat = right !! i.
Proof.
  induction left as [| l left IH]; intros [| r right] i Hlen; try discriminate.
  - split; reflexivity.
  - destruct i as [| i]; [split; reflexivity |].
    cbn in Hlen. destruct (IH right i ltac:(lia)) as (H1 & H2).
    split; [exact H1 | exact H2].
Qed.

Lemma frames2_length (left : list jsnum) :
  forall right : list jsnum,
    length left = length right -> length (frames2 left right) = (length left * 2)%nat.
Proof.
  induction left as [| l left IH]; intros [| r right] Hlen; try discriminate; [reflexivity |].
  cbn in *. rewrite IH by lia. lia.
Qed.

Lemma elemOrNaN_lookup (a : list jsnum) (i : nat) :
  (i < length a)%nat -> Some (elemOrNaN a i) = a !! i.
Proof.
  intros H. unfold elemOrNaN. destruct (a !! i) eqn:E; [reflexivity |].
  apply lookup_ge_None in E. lia.
Qed.

(** The interleaving loop lays the two channels out frame by frame. *)
Lemma interleave_frames2 (left right : list jsnum) :
  length left = length right -> interleave left right = frames2 left right.
Proof.
  intros Hlen. unfold interleave.
  replace (length left + length right)%nat with (length left * 2)%nat by lia.
  destruct (peaks_fold (fun i => (elemOrNaN left i, elemOrNaN right i))
              (length left) (length left) (Nat.le_refl _)) as (Hl & Hget).
  cbn [fst snd] in Hl, Hget.
  set (result := fold_left _ _ _) in *.
  apply list_eq. intros j.
  destruct (Nat.lt_ge_cases j (length left * 2)) as [Hj | Hj].
  - destruct (Nat.Even_or_Odd j) as [(i & Hi) | (i & Hi)].
    + replace j with (i * 2)%nat by lia.
      destruct (Hget i ltac:(lia)) as (H1 & _). rewrite H1.
      rewrite (proj1 (frames2_lookup left right i Hlen)).
      apply elemOrNaN_lookup. lia.
    + replace j with (i * 2 + 1)%nat by lia.
      destruct (Hget i ltac:(lia)) as (_ & H2). rewrite H2.
      rewrite (proj2 (frames2_lookup left right i Hlen)).
      apply elemOrNaN_lookup. lia.
  - rewrite !lookup_ge_None_2; [reflexivity | |].
    + rewrite frames2_length by exact Hlen. lia.
    + lia.
Qed.

(** Writing samples behind a prefix appends their bytes, low byte first. *)
Lemma writeSamples_append (result : list jsnum) :
  forall (pre : list Z),
    writeSamples (pre ++ repeat 0 (length result * 2)) (length pre) result
    = Some (pre ++ flat_map (fun x => int16le (sampleToInt16 x)) result).
Proof.
  induction result as [| x rest IH]; intros pre.
  - cbn. reflexivity.
  - cbn [length Nat.mul Nat.add repeat writeSamples flat_map].
    rewrite setInt16_ok by (rewrite length_app; cbn; lia).
    replace (S (length pre)) with (length pre + 1)%nat by lia.
    rewrite (insert_app_r_alt pre _ (length pre)) by lia.
    rewrite Nat.sub_diag. cbn [insert list_insert].
    rewrite (insert_app_r_alt pre _ (length pre + 1)) by lia.
    replace (length pre + 1 - length pre)%nat with 1%nat by lia.
    cbn [insert list_insert].
    specialize (IH (pre ++ int16le (sampleToInt16 x))).
    rewrite length_app in IH. cbn [int16le uint16le length] in IH.
    rewrite <- app_assoc in IH. cbn [app] in IH.
    rewrite <- app_assoc in IH. exact IH.
Qed.

Lemma wavHeader_length (numChannels : nat) (rate : jsnum) (dataBytes : nat) :
  length (wavHeader numChannels rate dataBytes) = 44%nat.
Proof. reflexivity. Qed.

Lemma wav_header_written (numChannels : nat) (rate : jsnum) (n : nat)
  (k : list Z -> option (list Z)) :
  (let view := newArrayBuffer (44 + n * 2) in
   do view <- writeString view 0 (str "RIFF");
   do view <- setUint32 view 4 (ofNat (36 + n * 2));
   do view <- writeString view 8 (str "WAVE");
   do view <- writeString view 12 (str "fmt ");
   do view <- setUint32 view 16 (ofZ 16);
   do view <- setUint16 view 20 (ofZ 1);
   do view <- setUint16 view 22 (ofNat numChannels);
   do view <- setUint32 view 24 rate;
   do view <- setUint32 view 28 (mul rate (ofNat (numChannels * 2)));
   do view <- setUint16 view 32 (ofNat (numChannels * 2));
   do view <- setUint16 view 34 (ofNat 16);
   do view <- writeString view 36 (str "data");
   do view <- setUint32 view 40 (ofNat (n * 2));
   k view)
  = k (wavHeader numChannels rate (n * 2) ++ repeat 0 (n * 2)).
Proof.
  cbv zeta. unfold newArrayBuffer.
  change (repeat 0 (44 + n * 2)) with (repeat 0 44 ++ repeat 0 (n * 2)).
  generalize (repeat 0 (n * 2)) as tail. intros tail.
  cbn [repeat app writeString str list_ascii_of_string].
  repeat first
    [ rewrite setUint8_ok by (rewrite ?length_insert; cbn [length]; lia)
    | rewrite setUint16_ok by (rewrite ?length_insert; cbn [length]; lia)
    | rewrite setUint32_ok by (rewrite ?length_insert; cbn [length]; lia) ].
  reflexivity.
Qed.

Lemma wavSamples_result (b : AudioBuffer) :
  valid_buffer b ->
  (if decide (numberOfChannels b = 2%nat)
   then
     do left <- getChannelData b 0;
     do right <- getChannelData b 1;
     Some (interleave left right)
   else getChannelData b 0) = Some (wavSamples b).
Proof.
  intros (Hn & Hlen & Hall).
  destruct b as [n sr chans]. unfold getChannelData, wavSamples, frameCount in *. cbn in *.
  destruct chans as [| c0 chans]; [cbn in Hlen; lia |].
  destruct (decide (n = 2%nat)) as [-> | Hne].
  - destruct chans as [| c1 [| c2 chans]]; cbn in Hlen; try lia.
    rewrite !decide_True by lia. cbn.
    inversion Hall as [| ? ? _ Hrest]; subst. inversion Hrest as [| ? ? H1 _]; subst.
    cbn in H1. now rewrite interleave_frames2.
  - rewrite decide_True by lia. cbn.
    destruct chans as [| c1 [| c2 chans]]; cbn in Hlen; try reflexivity. lia.
Qed.

Lemma audioBufferToWav_layout (b : AudioBuffer) :
  valid_buffer b ->
  audioBufferToWav b
  = Some (wavHeader (numberOfChannels b) (sampleRate b) (length (wavSamples b) * 2)
          ++ flat_map (fun x => int16le (sampleToInt16 x)) (wavSamples b)).
Proof.
  intros Hv. unfold audioBufferToWav. cbv zeta.
  rewrite (wavSamples_result b Hv). change (16 / 8)%nat with 2%nat.
  etransitivity;
    [exact (wav_header_written (numberOfChannels b) (sampleRate b) (length (wavSamples b))
              (fun view => writeSamples view 44 (wavSamples b))) |].
  cbv beta.
  rewrite <- (wavHeader_length (numberOfChannels b) (sampleRate b) (length (wavSamples b) * 2))
    at 1.
  apply writeSamples_append.
Qed.

Lemma payload_length (l : list jsnum) :
  length (flat_map (fun x => int16le (sampleToInt16 x)) l) = (length l * 2)%nat.
Proof.
  induction l as [| x l IH]; [reflexivity |].
  cbn [flat_map]. rewrite length_app, IH. cbn. lia.
Qed.

Lemma payload_split (l : list jsnum) (i : nat) (x : jsnum) :
  l !! i = Some x ->
  exists pre post : list Z,
    flat_map (fun x => int16le (sampleToInt16 x)) l
    = pre ++ int16le (sampleToInt16 x) ++ post /\
    length pre = (i * 2)%nat.
Proof.
  revert i. induction l as [| y l IH]; intros i H; [discriminate |].
  destruct i as [| i]; cbn in H.
  - injection H as ->. exists [], (flat_map (fun x => int16le (sampleToInt16 x)) l).
    split; reflexivity.
  - destruct (IH i H) as (pre & post & E & L).
    exists (int16le (sampleToInt16 y) ++ pre), post. cbn [flat_map].
    rewrite E, <- app_assoc. split; [reflexivity |].
    rewrite length_app, L. cbn. lia.
Qed.

Lemma getInt16_at (pre post : list Z) (b0 b1 : Z) (offset : nat) :
  offset = length pre ->
  getInt16 (pre ++ b0 :: b1 :: post) offset = Some (wrapInt16 (b0 + 256 * b1)).
Proof.
  intros ->. unfold getInt16.
  rewrite (list_lookup_middle pre (b1 :: post) b0 (length pre) eq_refl).
  change (pre ++ b0 :: b1 :: post) with (pre ++ [b0] ++ b1 :: post).
  rewrite app_assoc.
  rewrite (list_lookup_middle (pre ++ [b0]) post b1 (S (length pre)));
    [reflexivity | rewrite length_app; cbn; lia].
Qed.

Lemma int16le_read (x : jsnum) :
  exists b0 b1 : Z,
    int16le (ToInt16 x) = [b0; b1] /\ wrapInt16 (b0 + 256 * b1) = ToInt16 x.
Proof.
  pose proof (setInt16_getInt16 x) as H. unfold setInt16 in H. cbn in H.
  destruct (decide (2 <= 2)%nat) as [_ | Hno]; [| lia].
  cbn in H. injection H as H.
  eexists _, _. split; [reflexivity | exact H].
Qed.

(** X1: The file [audioBufferToWav] returns for a valid buffer is the 44-byte
    header followed by the samples, each converted to 16 bits and stored low
    byte first; a stereo buffer is laid out frame by frame, left then right.
    The file has 44 bytes and two per sample, and reading the 16-bit value
    at [44 + 2 i] back gives the converted sample [i]. *)
Theorem wav_file_layout (b : AudioBuffer) :
  valid_buffer b ->
  exists bytes : list Z,
    audioBufferToWav b = Some bytes /\
    bytes
    = wavHeader (numberOfChannels b) (sampleRate b) (length (wavSamples b) * 2)
      ++ flat_map (fun x => int16le (sampleToInt16 x)) (wavSamples b) /\
    length bytes = (44 + length (wavSamples b) * 2)%nat /\
    forall (i : nat) (x : jsnum),
      wavSamples b !! i = Some x ->
      getInt16 bytes (44 + i * 2) = Some (sampleToInt16 x).
Proof.
  intros Hv. eexists. split; [exact (audioBufferToWav_layout b Hv) |].
  split; [reflexivity |]. split.
  - now rewrite length_app, payload_length, wavHeader_length.
  - intros i x Hx. destruct (payload_split _ _ _ Hx) as (pre & post & -> & L).
    destruct (int16le_read (scaleSample (clampSample x))) as (b0 & b1 & E & Hr).
    fold (sampleToInt16 x) in E, Hr. rewrite E, <- Hr.
    rewrite app_assoc. apply getInt16_at.
    rewrite length_app, wavHeader_length, L. reflexivity.
Qed.

Lemma wav_file_layout_witness :
  exists bytes : list Z,
    audioBufferToWav mono_buffer = Some bytes /\
    bytes = wavHeader 1 (Fin 44100) 6 ++ [255; 63; 0; 128; 255; 127] /\
    getInt16 bytes 46 = Some (-32768).
Proof.
  destruct (wav_file_layout mono_buffer) as (bytes & Hb & He & _ & Hread).
  - unfold valid_buffer, mono_buffer, frameCount. cbn.
    split; [lia | split; [reflexivity | repeat constructor]].
  - exists bytes. split; [exact Hb |]. split; [exact He |].
    exact (Hread 1%nat (Fin (-1)) eq_refl).
Defined.

Lemma uint16_le_bytes (v : Z) :
  0 <= v < 65536 -> v mod 256 + 256 * ((v / 256) mod 256) = v.
Proof.
  intros H. pose proof (Z.div_mod v 256 ltac:(lia)) as E.
  assert (Hs : 0 <= v / 256 < 256).
  { split; [apply Z.div_pos; lia | apply Z.div_lt_upper_bound; lia]. }
  rewrite (Z.mod_small (v / 256) 256) by exact Hs. lia.
Qed.

Lemma ToUint32_ofZ (z : Z) : 0 <= z < 4294967296 -> ToUint32 (ofZ z) = z.
Proof.
  intros H. unfold ToUint32, ofZ. cbn [ToInteger]. rewrite Qtrunc_inject_Z.
  now apply Z.mod_small.
Qed.

Lemma ToUint16_ofZ (z : Z) : 0 <= z < 65536 -> ToUint16 (ofZ z) = z.
Proof.
  intros H. unfold ToUint16, ofZ. cbn [ToInteger]. rewrite Qtrunc_inject_Z.
  now apply Z.mod_small.
Qed.

Lemma mul_ofZ (x y : Z) : mul (ofZ x) (ofZ y) = ofZ (x * y).
Proof.
  unfold ofZ, mul. f_equal. rewrite <- inject_Z_mult.
  apply Qcanon.Qred_identity. cbn. apply Z.gcd_1_r.
Qed.

(** X2: The header of the written file is consistent with the file: the RIFF
    length is the file length less 8, the data length is the file length
    less 44, the channel count, sample rate, block align ([channels * 2])
    and byte rate ([rate * channels * 2]) are the buffer's, the format is
    PCM (1) at 16 bits. *)
Theorem wav_header_consistent (b : AudioBuffer) (rate : Z) :
  valid_buffer b ->
  sampleRate b = ofZ rate ->
  0 <= rate ->
  rate * Z.of_nat (numberOfChannels b * 2) < 4294967296 ->
  Z.of_nat (numberOfChannels b * 2) < 65536 ->
  Z.of_nat (44 + length (wavSamples b) * 2) < 4294967296 ->
  exists bytes : list Z,
    audioBufferToWav b = Some bytes /\
    firstn 4 bytes = codes "RIFF" /\
    getUint32 bytes 4 = Some (Z.of_nat (length bytes) - 8) /\
    firstn 8 (skipn 8 bytes) = codes "WAVEfmt " /\
    getUint32 bytes 16 = Some 16 /\
    getUint16 bytes 20 = Some 1 /\
    getUint16 bytes 22 = Some (Z.of_nat (numberOfChannels b)) /\
    getUint32 bytes 24 = Some rate /\
    getUint32 bytes 28 = Some (rate * Z.of_nat (numberOfChannels b * 2)) /\
    getUint16 bytes 32 = Some (Z.of_nat (numberOfChannels b * 2)) /\
    getUint16 bytes 34 = Some 16 /\
    firstn 4 (skipn 36 bytes) = codes "data" /\
    getUint32 bytes 40 = Some (Z.of_nat (length bytes) - 44).
Proof.
  intros Hv Hrate Hr0 Hbr Hba Hlen.
  eexists. split; [exact (audioBufferToWav_layout b Hv) |].
  set (payload := flat_map _ _).
  set (n := length (wavSamples b)) in *.
  assert (Hl : length (wavHeader (numberOfChannels b) (sampleRate b) (n * 2) ++ payload)
               = (44 + length payload)%nat)
    by (rewrite length_app; reflexivity).
  assert (Hp : length payload = (n * 2)%nat).
  { unfold payload, n. clear. induction (wavSamples b) as [| x l IH]; [reflexivity |].
    cbn [flat_map]. rewrite length_app, IH. cbn. lia. }
  rewrite Hl, Hp. rewrite Hrate.
  destruct Hv as (Hc & _).
  assert (Hr : 0 <= rate < 4294967296) by nia.
  unfold wavHeader, getUint32, getUint16, codes, uint32le, uint16le.
  cbn [app map str list_ascii_of_string firstn skipn lookup list_lookup].
  unfold ofNat. rewrite mul_ofZ.
  rewrite (ToUint32_ofZ rate Hr).
  rewrite (ToUint32_ofZ (rate * _)) by lia.
  rewrite (ToUint32_ofZ (Z.of_nat (36 + n * 2))) by lia.
  rewrite (ToUint32_ofZ (Z.of_nat (n * 2))) by lia.
  rewrite (ToUint16_ofZ (Z.of_nat (numberOfChannels b))) by lia.
  rewrite (ToUint16_ofZ (Z.of_nat (numberOfChannels b * 2))) by lia.
  rewrite (uint32_le_bytes rate Hr).
  rewrite (uint32_le_bytes (rate * _)) by lia.
  rewrite (uint32_le_bytes (Z.of_nat (36 + n * 2))) by lia.
  rewrite (uint32_le_bytes (Z.of_nat (n * 2))) by lia.
  rewrite (uint16_le_bytes (Z.of_nat (numberOfChannels b))) by lia.
  rewrite (uint16_le_bytes (Z.of_nat (numberOfChannels b * 2))) by lia.
  repeat split; try reflexivity; f_equal; lia.
Qed.

Lemma wav_header_consistent_witness :
  exists bytes : list Z,
    audioBufferToWav mono_buffer = Some bytes /\
    getUint32 bytes 4 = Some 42 /\
    getUint32 bytes 28 = Some 88200 /\
    getUint32 bytes 40 = Some 6.
Proof.
  destruct (wav_header_consistent mono_buffer 44100)
    as (bytes & Hb & _ & H4 & _ & _ & _ & _ & _ & H28 & _ & _ & _ & H40).
  - unfold valid_buffer, mono_buffer, frameCount. cbn.
    split; [lia | split; [reflexivity | repeat constructor]].
  - reflexivity.
  - lia.
  - cbn. lia.
  - cbn. lia.
  - cbn. lia.
  - exists bytes. split; [exact Hb |].
    assert (E : length bytes = 50%nat).
    { assert (Hx : audioBufferToWav mono_buffer
                   = Some (wavHeader 1 (Fin 44100) 6 ++ [255; 63; 0; 128; 255; 127]))
        by (vm_compute; reflexivity).
      rewrite Hx in Hb. inversion Hb. reflexivity. }
    rewrite H4, H28, H40, E. repeat split.
Defined.

(** ** The length of the file and the header of a buffer with more than two channels *)

Lemma wavSamples_length (b : AudioBuffer) :
  valid_buffer b ->
  length (wavSamples b)
  = (if decide (numberOfChannels b = 2%nat) then 2 * frameCount b else frameCount b)%nat.
Proof.
  intros Hv. destruct (wav_result_length b Hv) as (result & Hres & Hlen).
  rewrite (wavSamples_result b Hv) in Hres. now inversion Hres; subst.
Qed.

Lemma wavSamples_channel0 (b : AudioBuffer) :
  valid_buffer b ->
  (2 < numberOfChannels b)%nat ->
  getChannelData b 0 = Some (wavSamples b).
Proof.
  intros Hv Hn. pose proof (wavSamples_result b Hv) as H.
  now rewrite decide_False in H by lia.
Qed.

(** C2: the writer and the claim agree on buffers of one or two channels,
    and the data length at byte 40 is always the number of bytes after the
    header (below 2^32).  On a buffer with more than two channels the
    writer misses the claim: the bytes after the header are the samples of
    channel 0 alone, [44 + frames * 2] bytes in all, fewer than
    [44 + frames * channels * 2] whenever there is a frame, while the
    header still declares every channel (channel count at byte 22, block
    align [channels * 2] at byte 32). *)
Theorem C2_wav_length_and_header (b : AudioBuffer) :
  valid_buffer b ->
  exists bytes : list Z,
    audioBufferToWav b = Some bytes /\
    length bytes = (44 + length (wavSamples b) * 2)%nat /\
    (Z.of_nat (length bytes - 44) < 4294967296 ->
     getUint32 bytes 40 = Some (Z.of_nat (length bytes - 44))) /\
    ((numberOfChannels b = 1%nat \/ numberOfChannels b = 2%nat) ->
     length bytes = (44 + frameCount b * numberOfChannels b * 2)%nat) /\
    ((2 < numberOfChannels b)%nat ->
     (exists channel0 : list jsnum,
         getChannelData b 0 = Some channel0 /\
         skipn 44 bytes = flat_map (fun x => int16le (sampleToInt16 x)) channel0) /\
     length bytes = (44 + frameCount b * 2)%nat /\
     ((0 < frameCount b)%nat ->
      (length bytes < 44 + frameCount b * numberOfChannels b * 2)%nat) /\
     (Z.of_nat (numberOfChannels b * 2) < 65536 ->
      getUint16 bytes 22 = Some (Z.of_nat (numberOfChannels b)) /\
      getUint16 bytes 32 = Some (Z.of_nat (numberOfChannels b * 2)))).
Proof.
  intros Hv. eexists. split; [exact (audioBufferToWav_layout b Hv) |].
  pose proof (wavSamples_length b Hv) as Hn.
  set (payload := flat_map _ _).
  assert (Hp : length payload = (length (wavSamples b) * 2)%nat)
    by (unfold payload; rewrite payload_length; lia).
  assert (Hl : length (wavHeader (numberOfChannels b) (sampleRate b)
                         (length (wavSamples b) * 2) ++ payload)
               = (44 + length (wavSamples b) * 2)%nat)
    by (rewrite length_app, wavHeader_length, Hp; reflexivity).
  split; [exact Hl | split; [| split]].
  - rewrite Hl. intros Hfit.
    replace (44 + length (wavSamples b) * 2 - 44)%nat
      with (length (wavSamples b) * 2)%nat in * by lia.
    unfold wavHeader, getUint32, codes, uint32le, uint16le.
    cbn [app map str list_ascii_of_string lookup list_lookup]. f_equal.
    unfold ofNat. rewrite (ToUint32_ofZ (Z.of_nat (length (wavSamples b) * 2))) by lia.
    apply uint32_le_bytes. lia.
  - rewrite Hl, Hn. intros [H1 | H2].
    + rewrite H1. rewrite decide_False by lia. lia.
    + rewrite H2. rewrite decide_True by lia. lia.
  - intros Hmore. rewrite decide_False in Hn by lia.
    split; [| split; [| split]].
    + exists (wavSamples b). split; [now apply wavSamples_channel0 |].
      rewrite <- (wavHeader_length (numberOfChannels b) (sampleRate b)
                    (length (wavSamples b) * 2)) at 1.
      now rewrite drop_app_length.
    + rewrite Hl, Hn. reflexivity.
    + intros Hf. rewrite Hl, Hn. nia.
    + intros Hfit.
      unfold wavHeader, getUint16, codes, uint32le, uint16le.
      cbn [app map str list_ascii_of_string lookup list_lookup].
      unfold ofNat.
      rewrite (ToUint16_ofZ (Z.of_nat (numberOfChannels b))) by lia.
      rewrite (ToUint16_ofZ (Z.of_nat (numberOfChannels b * 2))) by lia.
      split; f_equal; apply uint16_le_bytes; lia.
Qed.

(** One frame in three channels: 46 bytes, the one sample of channel 0
    after a header that declares three channels and six bytes per frame. *)
Lemma C2_wav_length_and_header_witness :
  valid_buffer three_channel_buffer /\
  exists bytes : list Z,
    audioBufferToWav three_channel_buffer = Some bytes /\
    length bytes = 46%nat /\
    (length bytes < 44 + frameCount three_channel_buffer
                         * numberOfChannels three_channel_buffer * 2)%nat /\
    skipn 44 bytes = int16le (sampleToInt16 (Fin (1 # 2))) /\
    getUint16 bytes 22 = Some 3 /\
    getUint16 bytes 32 = Some 6 /\
    getUint32 bytes 40 = Some 2.
Proof.
  assert (Hv : valid_buffer three_channel_buffer).
  { unfold valid_buffer, three_channel_buffer, frameCount. cbn.
    split; [lia | split; [reflexivity | repeat constructor]]. }
  split; [exact Hv |].
  destruct (C2_wav_length_and_header three_channel_buffer Hv)
    as (bytes & Hb & Hl & Hd & _ & Hmore).
  destruct Hmore as ((channel0 & H0 & Hp) & Hlen & Hless & Hh); [cbn; lia |].
  destruct Hh as (H22 & H32); [cbn; lia |].
  exists bytes. split; [exact Hb |].
  assert (E : length bytes = 46%nat) by (rewrite Hlen; reflexivity).
  split; [exact E | split; [apply Hless; cbn; lia | split; [| split; [| split]]]].
  - rewrite Hp. inversion H0; subst channel0. cbn [flat_map]. apply app_nil_r.
  - exact H22.
  - exact H32.
  - rewrite Hd; rewrite E; [reflexivity | cbn; lia].
Defined.

(** ** Generated subtitles *)

Lemma timeToSeconds_not_NaN (timeString : option (list ascii)) :
  isNaN (timeToSeconds timeString) = false.
Proof.
  destruct timeString as [[| c s] |]; try reflexivity.
  rewrite timeToSeconds_unfold. apply timeFromParts_not_NaN.
Qed.

Lemma add_Fin_not_NaN (x : jsnum) (q : Q) : isNaN x = false -> isNaN (add x (Fin q)) = false.
Proof. now destruct x. Qed.

Lemma Math_max_not_NaN (x y : jsnum) :
  isNaN x = false -> isNaN y = false -> isNaN (Math_max x y) = false.
Proof. destruct x, y; cbn; try easy; intros _ _; now destruct (negb _). Qed.

Lemma le_refl_js (x : jsnum) : isNaN x = false -> le x x = true.
Proof.
  destruct x; cbn; try easy. intros _. apply Qle_bool_iff. apply Qle_refl.
Qed.

Lemma Math_max_ge_l (x y : jsnum) :
  isNaN x = false -> isNaN y = false -> le x (Math_max x y) = true.
Proof.
  intros Hx Hy. destruct x as [| | | a], y as [| | | b]; cbn in *; try easy.
  - apply Qle_bool_iff. apply Qle_refl.
  - destruct (Qle_bool b a) eqn:E; cbn.
    + apply Qle_bool_iff. apply Qle_refl.
    + apply Qle_bool_iff.
      destruct (Qlt_le_dec a b) as [H | H]; [now apply Qlt_le_weak |].
      apply Qle_bool_iff in H. congruence.
Qed.

Lemma Math_max_ge_r (x y : jsnum) :
  isNaN x = false -> isNaN y = false -> le y (Math_max x y) = true.
Proof.
  intros Hx Hy. destruct x as [| | | a], y as [| | | b]; cbn in *; try easy.
  - apply Qle_bool_iff. apply Qle_refl.
  - destruct (Qle_bool b a) eqn:E; cbn.
    + exact E.
    + apply Qle_bool_iff. apply Qle_refl.
Qed.

Lemma toSubtitle_shape (index : nat) (item : Item) (s : Subtitle) :
  toSubtitle index item = Some s ->
  id s = Z.of_nat index + 1 /\
  item_text item = Some (text s) /\
  text s <> [] /\
  isNaN (startTime s) = false /\
  isNaN (endTime s) = false /\
  le (Fin 0) (startTime s) = true /\
  le (add (startTime s) (Fin (1 # 2))) (endTime s) = true.
Proof.
  unfold toSubtitle.
  destruct (item_text item) as [[| c t] |] eqn:Et; try discriminate.
  destruct (item_startTime item) as [st |] eqn:Es; try discriminate.
  intros E. injection E as <-. cbn [id text startTime endTime].
  pose proof (timeToSeconds_not_NaN (Some st)) as N1.
  pose proof (timeToSeconds_not_NaN (item_endTime item)) as N2.
  set (a := add (timeToSeconds (Some st)) SHIFT_AMOUNT).
  set (e := add (timeToSeconds (item_endTime item)) SHIFT_AMOUNT).
  assert (Na : isNaN a = false) by now apply add_Fin_not_NaN.
  assert (Ne : isNaN e = false) by now apply add_Fin_not_NaN.
  assert (Ns : isNaN (Math_max (Fin 0) a) = false) by now apply Math_max_not_NaN.
  assert (Nh : isNaN (add (Math_max (Fin 0) a) (Fin (1 # 2))) = false)
    by now apply add_Fin_not_NaN.
  split; [reflexivity |]. split; [reflexivity |]. split; [discriminate |].
  split; [exact Ns |]. split; [| split].
  - exact (Math_max_not_NaN _ e Nh Ne).
  - exact (Math_max_ge_l (Fin 0) a eq_refl Na).
  - exact (Math_max_ge_l _ e Nh Ne).
Qed.

Lemma parsedSubtitles_from (k : nat) (json : list Item) (s : Subtitle) :
  s ∈ omap (fun s => s) (mapi toSubtitle k json) ->
  exists (index : nat) (item : Item),
    json !! index = Some item /\ toSubtitle (k + index) item = Some s.
Proof.
  revert k. induction json as [| item json IH]; intros k H; cbn in H.
  - now apply elem_of_nil in H.
  - destruct (toSubtitle k item) as [s0 |] eqn:E; cbn in H.
    + apply elem_of_cons in H as [-> | H].
      * exists 0%nat, item. split; [reflexivity |]. now rewrite Nat.add_0_r.
      * destruct (IH _ H) as (i & it & Hi & Ht). exists (S i), it.
        split; [exact Hi |]. now replace (k + S i)%nat with (S k + i)%nat by lia.
    + destruct (IH _ H) as (i & it & Hi & Ht). exists (S i), it.
      split; [exact Hi |]. now replace (k + S i)%nat with (S k + i)%nat by lia.
Qed.

Lemma parsedSubtitles_ids_from (k : nat) (json : list Item) :
  StronglySorted Z.lt (map id (omap (fun s => s) (mapi toSubtitle k json))) /\
  Forall (fun s => Z.of_nat k < id s) (omap (fun s => s) (mapi toSubtitle k json)).
Proof.
  revert k. induction json as [| item json IH]; intros k; cbn.
  - split; constructor.
  - destruct (IH (S k)) as (Hs & Hb).
    assert (Hb' : Forall (fun s => Z.of_nat k < id s)
                    (omap (fun s => s) (mapi toSubtitle (S k) json))).
    { eapply Forall_impl; [exact Hb |]. cbn. intros; lia. }
    destruct (toSubtitle k item) as [s0 |] eqn:E; cbn.
    + apply toSubtitle_shape in E as (Hid & _).
      split.
      * constructor; [exact Hs |]. rewrite Hid. apply Forall_map.
        eapply Forall_impl; [exact Hb |]. cbn. intros; lia.
      * constructor; [lia | exact Hb'].
    + split; [exact Hs | exact Hb'].
Qed.

(** X3: Whatever the model returned, the cues kept by [generateSubtitlesFromVideo]
    are well formed: each comes from an element of the response that has a
    non-empty text and a start time, carries that text unchanged and the
    element's position plus one as id; its times are numbers (never NaN),
    its start is at least 0 and its end at least half a second after its
    start.  The ids are strictly increasing, hence distinct. *)
Theorem parsedSubtitles_well_formed (json : list Item) :
  Forall
    (fun s =>
       (exists (index : nat) (item : Item),
           json !! index = Some item /\
           id s = Z.of_nat index + 1 /\
           item_text item = Some (text s) /\
           item_startTime item <> None) /\
       text s <> [] /\
       isNaN (startTime s) = false /\
       isNaN (endTime s) = false /\
       le (Fin 0) (startTime s) = true /\
       le (add (startTime s) (Fin (1 # 2))) (endTime s) = true)
    (parsedSubtitles json) /\
  StronglySorted Z.lt (map id (parsedSubtitles json)) /\
  (length (parsedSubtitles json) <= length json)%nat.
Proof.
  split; [| split].
  - apply Forall_forall. intros s Hs.
    apply parsedSubtitles_from in Hs as (index & item & Hi & Ht).
    cbn in Ht. pose proof Ht as Hst.
    apply toSubtitle_shape in Ht as (Hid & Htx & Hne & N1 & N2 & H0 & Hd).
    split; [| easy].
    exists index, item. repeat split; try easy.
    unfold toSubtitle in Hst.
    destruct (item_text item) as [[| c t] |]; try discriminate.
    now destruct (item_startTime item).
  - apply parsedSubtitles_ids_from.
  - unfold parsedSubtitles. generalize 0%nat.
    induction json as [| item json IH]; intros k; cbn; [lia |].
    specialize (IH (S k)). destruct (toSubtitle k item); cbn; lia.
Qed.

(** X4: Whatever the cues and the detected onset, the automatic offset is a
    shift of at most five seconds either way, unless it is NaN (a NaN
    onset or start, or both infinite alike, passes the clamp); it is 0 or
    the exact difference between the onset and the first start, and an
    empty list gives 0. *)
Theorem calculateAutoSyncOffset_clamped (actualAudioStart : jsnum) :
  calculateAutoSyncOffset actualAudioStart [] = Fin 0 /\
  forall (first : Subtitle) (rest : list Subtitle),
    let difference := sub actualAudioStart (startTime first) in
    let offset := calculateAutoSyncOffset actualAudioStart (first :: rest) in
    (offset = Fin 0 \/ offset = difference) /\
    isNaN offset = isNaN difference /\
    (isNaN offset = true \/ (le (Fin (-5)) offset = true /\ le offset (Fin 5) = true)).
Proof.
  split; [reflexivity |]. intros first rest. cbn zeta.
  cbn [calculateAutoSyncOffset]. cbv zeta.
  generalize (sub actualAudioStart (startTime first)). intros [| | | q].
  - cbn. auto.
  - cbn. auto.
  - cbn. auto.
  - cbn [Math_abs]. unfold gt, lt.
    destruct (Qle_bool (Qred (Qabs q)) 5) eqn:L; cbn.
    + split; [now right |]. split; [reflexivity |]. right.
      apply Qle_bool_iff in L. rewrite Qred_correct in L.
      apply Qabs_Qle_condition in L as (L1 & L2).
      split; apply Qle_bool_iff; assumption.
    + split; [now left |]. split; [reflexivity |]. right. split; reflexivity.
Qed.

(** ** Line breaking *)

Lemma join_snoc (sep : list ascii) (block : list (list ascii)) (word : list ascii) :
  block <> [] -> join sep (block ++ [word]) = join sep block ++ sep ++ word.
Proof.
  induction block as [| b block IH]; [congruence |]. intros _.
  destruct block as [| b' block]; [reflexivity |].
  change (join sep ((b :: b' :: block) ++ [word]))
    with (b ++ sep ++ join sep ((b' :: block) ++ [word])).
  rewrite IH by discriminate.
  change (join sep (b :: b' :: block)) with (b ++ sep ++ join sep (b' :: block)).
  now rewrite <- !app_assoc.
Qed.

Lemma splitGo_nonempty (r : regex) (s : list ascii) (skip : nat) (piece : list ascii) :
  splitGo r skip piece s <> [].
Proof.
  revert skip piece. induction s as [| c s IH]; intros skip piece; cbn [splitGo].
  - discriminate.
  - destruct skip as [| n]; [| apply IH].
    destruct (matchAt r (c :: s)) as [[rest caps] |]; [| apply IH].
    destruct (length (c :: s) - length rest)%nat; [| discriminate].
    destruct piece; [apply IH | discriminate].
Qed.

Section WordWrapFacts.

Variable measureText : list ascii -> jsnum.
Variable maxWidth : jsnum.

#[local] Abbreviation J := (join (str " ")).

Lemma wrapLoop_lines (words : list (list ascii)) (lines : list (list ascii))
  (currentLine : list ascii) :
  wrapLoop measureText maxWidth words lines currentLine
  = lines ++ wrapLoop measureText maxWidth words [] currentLine.
Proof.
  revert lines currentLine. induction words as [| word words IH]; intros lines cur; cbn.
  - reflexivity.
  - destruct (lt _ _); [apply IH |].
    rewrite (IH (lines ++ [cur])), (IH [cur]). now rewrite <- app_assoc.
Qed.

Lemma wrapLoop_blocks (words : list (list ascii)) (current : list (list ascii)) :
  current <> [] ->
  fitsLine measureText maxWidth current ->
  exists (more : list (list ascii)) (tail : list (list (list ascii))),
    wrapLoop measureText maxWidth words [] (J current) = map J ((current ++ more) :: tail) /\
    concat ((current ++ more) :: tail) = current ++ words /\
    Forall (fun block => block <> []) ((current ++ more) :: tail) /\
    Forall (fitsLine measureText maxWidth) ((current ++ more) :: tail) /\
    brokenWhenFull measureText maxWidth ((current ++ more) :: tail).
Proof.
  revert current. induction words as [| word words IH]; intros current Hne Hfit.
  - exists [], []. rewrite !app_nil_r. cbn.
    split; [reflexivity |]. split; [now rewrite app_nil_r |].
    split; [constructor; [assumption | constructor] |].
    split; [constructor; [assumption | constructor] |]. auto.
  - cbn [wrapLoop]. cbv zeta. rewrite <- (join_snoc _ _ _ Hne).
    destruct (lt (measureText (J (current ++ [word]))) maxWidth) eqn:E.
    + destruct (IH (current ++ [word])) as (more & tail & Hw & Hc & Hn & Hf & Hg).
      * now destruct current.
      * now right.
      * exists (word :: more), tail.
        replace (current ++ word :: more) with ((current ++ [word]) ++ more)
          by now rewrite <- app_assoc.
        split; [exact Hw |].
        split; [rewrite Hc; now rewrite <- app_assoc |].
        split; [exact Hn |]. split; [exact Hf | exact Hg].
    + rewrite wrapLoop_lines.
      destruct (IH [word]) as (more & tail & Hw & Hc & Hn & Hf & Hg).
      * discriminate.
      * now left.
      * exists [], (([word] ++ more) :: tail). rewrite app_nil_r.
        change (J [word]) with word in Hw. rewrite Hw.
        split; [reflexivity |].
        split; [change (concat (current :: ([word] ++ more) :: tail))
                  with (current ++ concat (([word] ++ more) :: tail));
                rewrite Hc; reflexivity |].
        split; [constructor; assumption |].
        split; [constructor; assumption |].
        cbn [brokenWhenFull]. split; [| exact Hg].
        cbn [app]. rewrite <- (join_snoc _ _ _ Hne). exact E.
Qed.

End WordWrapFacts.

(** X5: The lines drawn for a cue are its words, in order, none lost and none
    split: they are the joins by single spaces of consecutive non-empty
    blocks of the words of the text.  Every line of more than one word is
    narrower than nine tenths of the frame width (a single word may
    overflow), and a line is broken only where the next word would not
    fit. *)
Theorem wrapLines_blocks (measureText : list ascii -> jsnum) (text : list ascii)
  (width : jsnum) :
  let maxWidth := mul width (Fin (9 # 10)) in
  exists blocks : list (list (list ascii)),
    wrapLines measureText text width = map (join (str " ")) blocks /\
    concat blocks = splitRegex spaces text /\
    Forall (fun block => block <> []) blocks /\
    Forall (fitsLine measureText maxWidth) blocks /\
    brokenWhenFull measureText maxWidth blocks.
Proof.
  intros maxWidth. unfold wrapLines. cbv zeta. fold maxWidth.
  pose proof (splitGo_nonempty spaces text 0 []) as Hne.
  fold (splitRegex spaces text) in Hne.
  destruct (splitRegex spaces text) as [| first rest]; [congruence |].
  destruct (wrapLoop_blocks measureText maxWidth rest [first])
    as (more & tail & Hw & Hc & Hn & Hf & Hg).
  - discriminate.
  - now left.
  - exists (([first] ++ more) :: tail).
    change (join (str " ") [first]) with first in Hw.
    split; [exact Hw |]. split; [exact Hc |].
    split; [exact Hn |]. split; [exact Hf | exact Hg].
Qed.

(** ** Parsed cues *)

Lemma trimStart_idempotent (s : list ascii) : trimStart (trimStart s) = trimStart s.
Proof.
  destruct (trimStart_head s) as [-> | (c & t & -> & Hc)]; [reflexivity |].
  now apply trimStart_ink.
Qed.

Lemma trim_idempotent (s : list ascii) : trim (trim s) = trim s.
Proof.
  unfold trim, trimEnd.
  set (u := trimStart s). set (v := trimStart (rev u)).
  assert (Hv : trimStart (rev v) = rev v).
  { destruct (trimStart_suffix (rev u)) as (ws & E). fold v in E.
    apply (f_equal (@rev ascii)) in E. rewrite rev_involutive, rev_app_distr in E.
    destruct (rev v) as [| c t] eqn:Er; [reflexivity |].
    destruct (trimStart_head s) as [H | (c' & t' & H & Hc)]; fold u in H.
    - rewrite H in E. discriminate.
    - rewrite H in E. cbn in E. injection E as -> _. now apply trimStart_ink. }
  rewrite Hv, rev_involutive. unfold v. now rewrite trimStart_idempotent.
Qed.

Lemma parseBlock_cases (subtitles : list Subtitle) (block : list ascii) :
  parseBlock subtitles block = subtitles \/
  exists (m1 m2 body : list ascii),
    trim body <> [] /\
    parseBlock subtitles block
    = subtitles ++ [mkSubtitle (Z.of_nat (length subtitles) + 1)
                      (timeToSeconds (Some m1)) (timeToSeconds (Some m2)) (trim body)].
Proof.
  unfold parseBlock. cbv zeta.
  destruct (findTimeLine _) as [i |]; [| now left].
  destruct (regexMatch _ _) as [[| m1 [| m2 [| m3 caps]]] |]; try now left.
  destruct (trim (join [LF] _)) as [| c t] eqn:E; [now left |].
  right. exists m1, m2, (join [LF] (skipn (i + 1) (splitChar LF (trim block)))).
  rewrite E. split; [discriminate | reflexivity].
Qed.

Lemma idsFrom1_snoc (n : nat) : idsFrom1 (S n) = idsFrom1 n ++ [Z.of_nat n + 1].
Proof. unfold idsFrom1. now rewrite seq_S, map_app. Qed.

Lemma parse_blocks_invariant (blocks : list (list ascii)) (subtitles : list Subtitle) :
  map id subtitles = idsFrom1 (length subtitles) ->
  Forall (fun s => cueOk s /\ trim (text s) = text s) subtitles ->
  let result := fold_left parseBlock blocks subtitles in
  map id result = idsFrom1 (length result) /\
  Forall (fun s => cueOk s /\ trim (text s) = text s) result /\
  (length result <= length subtitles + length blocks)%nat.
Proof.
  revert subtitles. induction blocks as [| block blocks IH]; intros subtitles Hid Hok.
  - cbn. split; [exact Hid |]. split; [exact Hok | lia].
  - cbn [fold_left]. 
    destruct (parseBlock_cases subtitles block) as [-> | (m1 & m2 & body & Hne & ->)].
    + destruct (IH subtitles Hid Hok) as (H1 & H2 & H3).
      split; [exact H1 |]. split; [exact H2 |]. cbn [length]. cbv zeta in H3. lia.
    + match goal with |- context [fold_left parseBlock blocks ?l] =>
        destruct (IH l) as (H1 & H2 & H3) end.
      * rewrite map_app, length_app, Hid. cbn [length map id].
        replace (length subtitles + 1)%nat with (S (length subtitles)) by lia.
        now rewrite idsFrom1_snoc.
      * apply Forall_app. split; [exact Hok |]. constructor; [| constructor].
        cbn [text startTime endTime]. unfold cueOk. cbn [text startTime endTime].
        split; [| apply trim_idempotent].
        split; [exact Hne |]. split; apply timeToSeconds_not_NaN.
      * split; [exact H1 |]. split; [exact H2 |].
        cbv zeta in H3. rewrite length_app in H3. cbn [length] in *. lia.
Qed.

(** X6: Whatever the text handed to [parseSRT], the cues it returns are
    numbered 1, 2, ..., n in order (the numbers written in the file are
    ignored), each has a non-empty text without white space at either end,
    and times that are numbers; there is at most one cue per block. *)
Theorem parseSRT_well_formed (srtContent : list ascii) :
  let subtitles := parseSRT srtContent in
  map id subtitles = idsFrom1 (length subtitles) /\
  Forall (fun s => cueOk s /\ trim (text s) = text s) subtitles /\
  (length subtitles
   <= length (splitRegex blockSeparator (replaceCR (replaceCRLF srtContent))))%nat.
Proof.
  unfold parseSRT. cbv zeta.
  exact (parse_blocks_invariant _ [] eq_refl (List.Forall_nil _)).
Qed.

(** ** The subtitle editor *)

Lemma fold_max_ge (l : list Z) (a : Z) :
  a <= fold_left Z.max l a /\ Forall (fun x => x <= fold_left Z.max l a) l.
Proof.
  revert a. induction l as [| x l IH]; intros a; cbn.
  - split; [lia | constructor].
  - destruct (IH (Z.max a x)) as (H1 & H2). split; [lia |].
    constructor; [lia | exact H2].
Qed.

Lemma handleDelete_ids (subtitles : list Subtitle) (id0 : Z) :
  map id (handleDelete subtitles id0) = List.filter (fun i => negb (i =? id0)) (map id subtitles).
Proof.
  unfold handleDelete. induction subtitles as [| s l IH]; [reflexivity |]. cbn.
  destruct (id s =? id0); cbn; now rewrite IH.
Qed.

Lemma filter_absent_length (l : list Z) (id0 : Z) :
  id0 ∉ l -> List.filter (fun i => negb (i =? id0)) l = l.
Proof.
  induction l as [| x l IH]; [reflexivity |]. intros H. cbn.
  apply not_elem_of_cons in H as (Hx & Hl).
  destruct (x =? id0) eqn:E; [apply Z.eqb_eq in E; congruence |]. cbn.
  now rewrite IH.
Qed.

(** X7: With distinct ids, the editor's operations keep the ids distinct:
    [handleAdd] appends a cue whose id is above every id in use,
    [handleDelete] removes the one cue that has the id and nothing else,
    and [handleUpdate] of a time or of the text leaves the list of ids as
    it is. *)
Theorem editor_keeps_ids_distinct (subtitles : list Subtitle) :
  NoDup (map id subtitles) ->
  (NoDup (map id (handleAdd subtitles)) /\
   exists added : Subtitle,
     handleAdd subtitles = subtitles ++ [added] /\
     Forall (fun s => id s < id added) subtitles) /\
  (forall id0 : Z,
      NoDup (map id (handleDelete subtitles id0)) /\
      (id0 ∉ map id (handleDelete subtitles id0)) /\
      ((id0 ∈ map id subtitles) ->
       S (length (handleDelete subtitles id0)) = length subtitles) /\
      ((id0 ∉ map id subtitles) -> handleDelete subtitles id0 = subtitles)) /\
  (forall (id0 : Z) (update : FieldUpdate),
      (forall value, update <> SetId value) ->
      map id (handleUpdate subtitles id0 update) = map id subtitles /\
      NoDup (map id (handleUpdate subtitles id0 update))).
Proof.
  intros Hnd. split; [| split].
  - assert (Hfresh : exists added : Subtitle,
               handleAdd subtitles = subtitles ++ [added] /\
               Forall (fun s => id s < id added) subtitles).
    { unfold handleAdd. cbv zeta. eexists. split; [reflexivity |].
      cbn [id]. destruct subtitles as [| s l]; [constructor |].
      destruct (fold_max_ge (map id l) (id s)) as (H1 & H2).
      constructor; [lia |]. apply Forall_forall. intros x Hx.
      rewrite Forall_forall in H2. specialize (H2 (id x)).
      assert (Hin : id x ∈ map id l) by (apply list_elem_of_fmap; eauto).
      specialize (H2 Hin). lia. }
    split; [| exact Hfresh]. destruct Hfresh as (added & -> & Hlt).
    rewrite map_app. cbn [map]. apply NoDup_app. split; [exact Hnd |].
    split; [| apply NoDup_singleton].
    intros x Hx Hx'. apply list_elem_of_singleton in Hx'. subst x.
    apply list_elem_of_fmap in Hx as (s & Hs & Hin).
    rewrite Forall_forall in Hlt. specialize (Hlt s Hin). lia.
  - intros id0. rewrite handleDelete_ids.
    split; [| split; [| split]].
    + clear -Hnd. induction Hnd as [| x l Hx Hl IH]; cbn; [constructor |].
      destruct (x =? id0); cbn; [exact IH |]. constructor; [| exact IH].
      intros H. apply Hx. apply list_elem_of_In in H.
      apply List.filter_In in H as (H & _). now apply list_elem_of_In.
    + intros H. apply list_elem_of_In in H. apply List.filter_In in H as (_ & H).
      now rewrite Z.eqb_refl in H.
    + intros Hin.
      rewrite <- (length_map id (handleDelete subtitles id0)), handleDelete_ids.
      rewrite <- (length_map id subtitles).
      clear -Hnd Hin. induction Hnd as [| x l Hx Hl IH]; [now apply elem_of_nil in Hin |].
      cbn. apply elem_of_cons in Hin as [<- | Hin].
      * rewrite Z.eqb_refl. cbn. now rewrite filter_absent_length.
      * destruct (x =? id0) eqn:E.
        { apply Z.eqb_eq in E. subst x. contradiction. }
        cbn. now rewrite IH.
    + intros Hout. clear Hnd. unfold handleDelete.
      induction subtitles as [| s l IH]; [reflexivity |].
      cbn in *. apply not_elem_of_cons in Hout as (Hs & Hl).
      destruct (id s =? id0) eqn:E; [apply Z.eqb_eq in E; congruence |]. cbn.
      now rewrite IH.
  - intros id0 update Hu.
    assert (E : map id (handleUpdate subtitles id0 update) = map id subtitles).
    { unfold handleUpdate. rewrite map_map. apply map_ext. intros s.
      destruct (id s =? id0); [| reflexivity].
      destruct update; try reflexivity. now destruct (Hu value). }
    split; [exact E | now rewrite E].
Qed.

Lemma editor_keeps_ids_distinct_witness :
  NoDup (map id (handleAdd [cueA; cueB])) /\
  handleDelete [cueA; cueB] (id cueA) = [cueB].
Proof.
  assert (Hnd : NoDup (map id [cueA; cueB])).
  { cbn. repeat constructor; rewrite ?elem_of_cons, ?elem_of_nil; intuition discriminate. }
  destruct (editor_keeps_ids_distinct [cueA; cueB] Hnd) as ((Hadd & _) & _ & _).
  split; [exact Hadd | reflexivity].
Defined.

(** ** The audio trimmer *)

Lemma Qred_inject_Z (z : Z) : Qred (inject_Z z) = inject_Z z.
Proof. apply Qcanon.Qred_identity. cbn. apply Z.gcd_1_r. Qed.

Lemma Fin_of_Qeq (q : Q) (z : Z) : (q == inject_Z z)%Q -> Fin (Qred q) = ofZ z.
Proof.
  intros E. unfold ofZ. f_equal. rewrite <- (Qred_inject_Z z). now apply Qred_complete.
Qed.

Lemma sub_ofZ (x y : Z) : sub (ofZ x) (ofZ y) = ofZ (x - y).
Proof.
  unfold sub, ofZ, neg, add. apply Fin_of_Qeq.
  rewrite Qred_correct. unfold Z.sub. rewrite inject_Z_plus, inject_Z_opp. reflexivity.
Qed.

Lemma add_ofZ (x y : Z) : add (ofZ x) (ofZ y) = ofZ (x + y).
Proof.
  unfold ofZ, add. apply Fin_of_Qeq. rewrite inject_Z_plus. reflexivity.
Qed.

Lemma le_ofZ_0 (n : Z) : le (ofZ n) (Fin 0) = (n <=? 0).
Proof. unfold le, ofZ, Qle_bool. cbn. now rewrite Z.mul_1_r. Qed.

Lemma readSample_ofZ (oldData : list jsnum) (z : Z) :
  0 <= z -> readSample oldData (ofZ z) = elemOrNaN oldData (Z.to_nat z).
Proof.
  intros H. unfold readSample, ofZ. rewrite Qfloor_Z.
  rewrite (proj2 (Qeq_bool_iff _ _) (Qeq_refl _)).
  now rewrite (proj2 (Z.leb_le 0 z) H).
Qed.

Lemma copied_slice (oldData : list jsnum) (first count : nat) :
  (first + count <= length oldData)%nat ->
  map (fun i => readSample oldData (add (ofZ (Z.of_nat first)) (ofNat i))) (seq 0 count)
  = take count (drop first oldData).
Proof.
  intros H. apply list_eq. intros i.
  rewrite list_lookup_fmap.
  destruct (decide (i < count)%nat) as [Hi | Hi].
  - rewrite lookup_seq_lt by exact Hi. cbn [fmap option_fmap option_map].
    unfold ofNat. rewrite add_ofZ, readSample_ofZ by lia.
    rewrite lookup_take_lt by exact Hi. rewrite lookup_drop.
    replace (Z.to_nat (Z.of_nat first + Z.of_nat (0 + i))) with (first + i)%nat by lia.
    unfold elemOrNaN.
    destruct (oldData !! (first + i)%nat) as [v |] eqn:E; [reflexivity |].
    apply lookup_ge_None in E. lia.
  - rewrite lookup_seq_ge by lia. rewrite lookup_take_ge by lia. reflexivity.
Qed.

Lemma mapM_channels {B : Type} (g : list jsnum -> B) (b : AudioBuffer) :
  length (channelData b) = numberOfChannels b ->
  mapM (fun channel => do oldData <- getChannelData b channel; Some (g oldData))
       (seq 0 (numberOfChannels b))
  = Some (map g (channelData b)).
Proof.
  intros Hlen. unfold getChannelData.
  assert (H : forall (pre l : list (list jsnum)),
             channelData b = pre ++ l ->
             mapM (fun channel =>
                     do oldData <- (if decide (channel < numberOfChannels b)%nat
                                    then channelData b !! channel else None);
                     Some (g oldData))
                  (seq (length pre) (length l))
             = Some (map g l)).
  { intros pre l. revert pre. induction l as [| c l IH]; intros pre E; [reflexivity |].
    cbn [length seq mapM].
    assert (Hc : (length pre < numberOfChannels b)%nat).
    { rewrite <- Hlen, E, length_app. cbn. lia. }
    rewrite decide_True by exact Hc.
    rewrite E at 1. rewrite (list_lookup_middle pre l c (length pre) eq_refl).
    cbn. specialize (IH (pre ++ [c])).
    rewrite length_app in IH. cbn [length] in IH.
    replace (length pre + 1)%nat with (S (length pre)) in IH by lia.
    rewrite IH by (rewrite E, <- app_assoc; reflexivity). reflexivity. }
  specialize (H [] (channelData b) eq_refl). cbn [length] in H.
  now rewrite Hlen in H.
Qed.

(** X8: Trimming a decoded buffer: with [first] and [last] the whole
    numbers that [Math.floor] makes of the products [startTime * sampleRate]
    and [endTime * sampleRate], however the host rounds these products, an
    empty or reversed range ([last <= first]) is refused with the error
    message, and a range inside the buffer gives the WAV file of exactly
    the frames [first .. last - 1] of every channel, in order. *)
Theorem handleTrim_slice (mul64 : jsnum -> jsnum -> jsnum) (b : AudioBuffer)
  (startTime endTime : jsnum) (first last : Z) :
  valid_buffer b ->
  Math_floor (mul64 startTime (sampleRate b)) = ofZ first ->
  Math_floor (mul64 endTime (sampleRate b)) = ofZ last ->
  (last <= first -> handleTrim mul64 b startTime endTime = None) /\
  (0 <= first -> first < last -> last <= Z.of_nat (frameCount b) ->
   Z.of_nat (frameCount b) < 4294967296 ->
   let trimmed := sliceBuffer b (Z.to_nat first) (Z.to_nat (last - first)) in
   handleTrim mul64 b startTime endTime = audioBufferToWav trimmed /\
   valid_buffer trimmed /\
   frameCount trimmed = Z.to_nat (last - first) /\
   exists bytes : list Z,
     audioBufferToWav trimmed = Some bytes /\
     length bytes = (44 + length (wavSamples trimmed) * 2)%nat).
Proof.
  intros Hv Hstart Hend.
  assert (Hframes : sub (Math_floor (mul64 endTime (sampleRate b)))
                        (Math_floor (mul64 startTime (sampleRate b))) = ofZ (last - first)).
  { rewrite Hstart, Hend. apply sub_ofZ. }
  split.
  - intros Hle. unfold handleTrim. cbv zeta. rewrite Hframes, le_ofZ_0.
    now rewrite (proj2 (Z.leb_le _ _)) by lia.
  - intros H0 Hlt Hin Hbig trimmed.
    destruct Hv as (Hc & Hlen & Hall).
    assert (Hvt : valid_buffer trimmed /\ frameCount trimmed = Z.to_nat (last - first)).
    { unfold frameCount in Hall, Hin.
      unfold trimmed, sliceBuffer, valid_buffer, frameCount.
      cbn [numberOfChannels channelData].
      destruct (channelData b) as [| c0 chans] eqn:Ec; [cbn in Hlen; lia |].
      assert (Hs : forall c : list jsnum, length c = length c0 ->
                     length (take (Z.to_nat (last - first)) (drop (Z.to_nat first) c))
                     = Z.to_nat (last - first)).
      { intros c Hcl. rewrite length_take, length_drop. lia. }
      assert (Hslices : Forall (fun c : list jsnum => length c = Z.to_nat (last - first))
                (map (fun c => take (Z.to_nat (last - first)) (drop (Z.to_nat first) c))
                     (c0 :: chans))).
      { apply List.Forall_forall. intros x Hx.
        apply List.in_map_iff in Hx as (c & <- & Hx). apply Hs.
        rewrite List.Forall_forall in Hall. now apply Hall. }
      cbn [map] in *. rewrite (Hs c0 eq_refl). split; [| reflexivity].
      split; [exact Hc |].
      split; [rewrite <- Hlen; cbn [length]; now rewrite length_map |].
      exact Hslices. }
    destruct Hvt as (Hvt & Hft).
    assert (Hrun : handleTrim mul64 b startTime endTime = audioBufferToWav trimmed).
    { unfold handleTrim. cbv zeta. rewrite Hframes, le_ofZ_0.
      rewrite (proj2 (Z.leb_gt _ _)) by lia.
      unfold createBuffer. cbv zeta. rewrite ToUint32_ofZ by lia.
      rewrite decide_False by lia.
      cbn [numberOfChannels sampleRate].
      assert (Hn : frameCount (mkAudioBuffer (numberOfChannels b) (sampleRate b)
                      (repeat (repeat (Fin 0) (Z.to_nat (last - first))) (numberOfChannels b)))
                   = Z.to_nat (last - first)).
      { unfold frameCount. cbn. destruct (numberOfChannels b); [lia |].
        cbn. apply repeat_length. }
      rewrite Hn, Hstart.
      rewrite (mapM_channels
                 (fun oldData =>
                    map (fun i => readSample oldData (add (ofZ first) (ofNat i)))
                        (seq 0 (Z.to_nat (last - first)))) b Hlen).
      f_equal. unfold trimmed, sliceBuffer. f_equal.
      apply List.map_ext_in. intros c Hcin.
      rewrite List.Forall_forall in Hall. specialize (Hall c Hcin). cbv beta in Hall.
      pose proof (copied_slice c (Z.to_nat first) (Z.to_nat (last - first))) as Hcopy.
      rewrite (Z2Nat.id first H0) in Hcopy. apply Hcopy. lia. }
    split; [exact Hrun |]. split; [exact Hvt |]. split; [exact Hft |].
    eexists. split; [exact (audioBufferToWav_layout trimmed Hvt) |].
    now rewrite length_app, payload_length, wavHeader_length.
Qed.

(** Cutting the second eighth of a second out of a quarter of a second at
    8 kHz: the products are the whole numbers 125 and 250. *)
Lemma handleTrim_slice_witness :
  handleTrim mul tone_buffer (Fin (1 # 64)) (Fin (1 # 32))
  = audioBufferToWav (mkAudioBuffer 1 (Fin 8000) [repeat (Fin (-1)) 125]) /\
  handleTrim mul tone_buffer (Fin 1) (Fin 1) = None.
Proof.
  assert (Hv : valid_buffer tone_buffer).
  { unfold valid_buffer, tone_buffer, frameCount. cbn [numberOfChannels channelData].
    split; [lia | split; [reflexivity |]].
    constructor; [reflexivity | constructor]. }
  split.
  - destruct (handleTrim_slice mul tone_buffer (Fin (1 # 64)) (Fin (1 # 32)) 125 250 Hv)
      as (_ & H); [reflexivity | reflexivity |].
    destruct H as (H & _); [lia | lia | vm_compute; discriminate | vm_compute; reflexivity |].
    rewrite H. reflexivity.
  - destruct (handleTrim_slice mul tone_buffer (Fin 1) (Fin 1) 8000 8000 Hv) as (H & _);
      [reflexivity | reflexivity |].
    apply H. lia.
Defined.

(** ** The trimmers' handles *)

Lemma Math_min_Fin (a b : Q) :
  exists m : Q, Math_min (Fin a) (Fin b) = Fin m /\
    (m <= a)%Q /\ (m <= b)%Q /\ (m = a \/ m = b).
Proof.
  unfold Math_min. destruct (lt (Fin b) (Fin a)) eqn:E.
  - apply lt_Fin in E. exists b. repeat split; auto; lra.
  - apply lt_Fin_false in E. exists a. repeat split; auto; lra.
Qed.

Lemma Math_max_Fin (a b : Q) :
  exists m : Q, Math_max (Fin a) (Fin b) = Fin m /\
    (a <= m)%Q /\ (b <= m)%Q /\ (m = a \/ m = b).
Proof.
  unfold Math_max. destruct (lt (Fin a) (Fin b)) eqn:E.
  - apply lt_Fin in E. exists b. repeat split; auto; lra.
  - apply lt_Fin_false in E. exists a. repeat split; auto; lra.
Qed.

(** The pointer's position as a time: inside the track for every pointer
    position that is a number. *)
Lemma pointer_time (x : jsnum) (w d : Q) :
  isNaN x = false -> (0 < w)%Q -> (0 <= d)%Q ->
  exists t : Q,
    mul (div (Math_max (Fin 0) (Math_min x (Fin w))) (Fin w)) (Fin d) = Fin t /\
    (0 <= t)%Q /\ (t <= d)%Q.
Proof.
  intros Hx Hw Hd.
  assert (Hc : exists c : Q,
             Math_max (Fin 0) (Math_min x (Fin w)) = Fin c /\ (0 <= c)%Q /\ (c <= w)%Q).
  { destruct x as [| | | q]; try discriminate.
    - exists w. cbn. split; [| lra].
      destruct (Qle_bool w 0) eqn:E; [apply Qle_bool_iff in E; lra | reflexivity].
    - exists 0%Q. cbn. split; [reflexivity | lra].
    - destruct (Math_min_Fin q w) as (m & -> & Hm1 & Hm2 & _).
      destruct (Math_max_Fin 0 m) as (c & -> & Hc1 & Hc2 & [-> | ->]);
        eexists; (split; [reflexivity |]); lra. }
  destruct Hc as (c & -> & Hc0 & Hcw).
  rewrite div_Fin_pos by exact Hw. cbn [mul].
  eexists. split; [reflexivity |]. rewrite !Qred_correct.
  assert (Hr : (0 <= c / w)%Q /\ (c / w <= 1)%Q).
  { split.
    - apply Qle_shift_div_l; lra.
    - apply Qle_shift_div_r; lra. }
  destruct Hr as (Hr0 & Hr1). split; [nra | nra].
Qed.

(** X9: Dragging a handle of the audio trimmer keeps the selection valid: for
    every pointer position, the start stays at or after 0 and before the
    end, the end stays within the track, and the play position set by a
    seek is inside the track.  A selection at least a tenth of a second
    long stays so. *)
Theorem handlePointerMove_keeps_selection
  (dragTarget : option AudioTrimmer.DragTarget) (x : jsnum) (w d : Q)
  (state : AudioTrimmer.State) :
  isNaN x = false ->
  (0 < w)%Q ->
  AudioTrimmer.selection state d ->
  let moved := AudioTrimmer.handlePointerMove dragTarget x (Fin w) (Fin d) state in
  AudioTrimmer.selection moved d /\
  (AudioTrimmer.wide state -> AudioTrimmer.wide moved).
Proof.
  intros Hx Hw (a & e & t & Ha & He & Ht & H0 & Hae & Hed & Ht0 & Htd) moved.
  destruct state as [s0 e0 t0]. cbn in Ha, He, Ht. subst s0 e0 t0.
  unfold AudioTrimmer.wide. cbn [AudioTrimmer.startTime AudioTrimmer.endTime].
  destruct dragTarget as [[| |] |]; unfold moved; cbn [AudioTrimmer.handlePointerMove];
    cbv zeta;
    cbn [AudioTrimmer.startTime AudioTrimmer.endTime AudioTrimmer.currentTime].
  - destruct (pointer_time x w d Hx Hw) as (p & -> & Hp0 & Hpd); [lra |].
    cbn [sub neg add].
    destruct (Math_min_Fin p (Qred (e + Qred (- (1 # 10))))) as (m & -> & Hm1 & Hm2 & _).
    destruct (Math_max_Fin 0 m) as (c & -> & Hc1 & Hc2 & Hc).
    rewrite !Qred_correct in Hm2.
    split.
    + exists c, e, t. cbn. repeat split; try assumption.
      destruct Hc as [-> | ->]; lra.
    + cbn [add]. rewrite !le_Fin, !Qred_correct. intros Hwide.
      destruct Hc as [-> | ->]; lra.
  - destruct (pointer_time x w d Hx Hw) as (p & -> & Hp0 & Hpd); [lra |].
    cbn [add].
    destruct (Math_max_Fin p (Qred (a + (1 # 10)))) as (m & -> & Hm1 & Hm2 & _).
    destruct (Math_min_Fin d m) as (c & -> & Hc1 & Hc2 & Hc).
    rewrite !Qred_correct in Hm2.
    split.
    + exists a, c, t. cbn. repeat split; try assumption.
      destruct Hc as [-> | ->]; lra.
    + cbn [add]. rewrite !le_Fin, !Qred_correct. intros Hwide.
      destruct Hc as [-> | ->]; lra.
  - destruct (pointer_time x w d Hx Hw) as (p & -> & Hp0 & Hpd); [lra |].
    split; [| tauto].
    exists a, e, p. cbn. repeat split; assumption.
  - split; [| tauto].
    exists a, e, t. cbn. repeat split; assumption.
Qed.

Lemma handlePointerMove_keeps_selection_witness :
  AudioTrimmer.selection
    (AudioTrimmer.handlePointerMove (Some AudioTrimmer.start) (Fin 900) (Fin 300) (Fin 10)
       (AudioTrimmer.mkState (Fin 1) (Fin 4) (Fin 2))) 10.
Proof.
  apply (handlePointerMove_keeps_selection (Some AudioTrimmer.start) (Fin 900) 300 10
           (AudioTrimmer.mkState (Fin 1) (Fin 4) (Fin 2))).
  - reflexivity.
  - reflexivity.
  - exists 1%Q, 4%Q, 2%Q. cbn. repeat split; discriminate.
Defined.

(** X10: The range of the video trimmer stays inside the video: it is so once
    the metadata is loaded and after every "set start" or "set end" at a
    play position of the video.  For such a range [trimVideo] refuses the
    trim exactly when the Trim button is disabled, which is when the range
    is empty; setting the start at the very end of the video, or the end
    at its very beginning, gives such an empty range. *)
Theorem videoTrimmer_range (d : Q) :
  (0 <= d)%Q ->
  VideoTrimmer.range (VideoTrimmer.loaded (Fin d)) /\
  (forall state : VideoTrimmer.State,
      VideoTrimmer.range state ->
      trim_rangeRejected (VideoTrimmer.startTime state) (VideoTrimmer.endTime state)
        (VideoTrimmer.duration state)
      = VideoTrimmer.trimDisabled state) /\
  (forall (state : VideoTrimmer.State) (t : Q),
      VideoTrimmer.range state ->
      VideoTrimmer.duration state = Fin d ->
      (0 <= t)%Q -> (t <= d)%Q ->
      let afterStart := VideoTrimmer.handleSetStart (Fin t) state in
      let afterEnd := VideoTrimmer.handleSetEnd (Fin t) state in
      VideoTrimmer.range afterStart /\
      VideoTrimmer.range afterEnd /\
      (VideoTrimmer.trimDisabled afterStart = true <-> t == d) /\
      (VideoTrimmer.trimDisabled afterEnd = true <-> t == 0)).
Proof.
  intros Hd. split; [| split].
  - exists 0%Q, d, d. cbn. repeat split; lra.
  - intros [s0 e0 d0] (a & e & dd & Ha & He & Hdd & H0 & Hae & Hed).
    cbn in *. subst. unfold trim_rangeRejected, VideoTrimmer.trimDisabled. cbn.
    assert (E1 : Qle_bool 0 a = true) by now apply Qle_bool_iff.
    assert (E2 : Qle_bool e dd = true) by now apply Qle_bool_iff.
    rewrite E1, E2. cbn. now rewrite !orb_false_r.
  - intros [s0 e0 d0] t (a & e & dd & Ha & He & Hdd & H0 & Hae & Hed) Hdur Ht0 Htd.
    cbn in Ha, He, Hdd, Hdur. subst s0 e0 d0. injection Hdur as ->.
    unfold VideoTrimmer.handleSetStart, VideoTrimmer.handleSetEnd,
      VideoTrimmer.trimDisabled, VideoTrimmer.range.
    cbn [VideoTrimmer.startTime VideoTrimmer.endTime VideoTrimmer.duration].
    cbv zeta. unfold ge.
    destruct (le (Fin e) (Fin t)) eqn:E1; destruct (le (Fin t) (Fin a)) eqn:E2;
      cbn [VideoTrimmer.startTime VideoTrimmer.endTime VideoTrimmer.duration].
    all: try apply le_Fin in E1; try apply le_Fin in E2.
    all: try (assert (E1' : ~ (e <= t)%Q)
                by (intros Hc; apply le_Fin in Hc; congruence)).
    all: try (assert (E2' : ~ (t <= a)%Q)
                by (intros Hc; apply le_Fin in Hc; congruence)).
    all: rewrite ?le_Fin.
    all: (split; [exists t; eexists; exists d; cbn; repeat split; lra |]).
    all: (split; [eexists; exists t, d; cbn; repeat split; lra |]).
    all: split; split; intros H; try lra.
    all: try (apply Qle_antisym; lra).
    all: try (rewrite H; lra).
    all: try (rewrite H in *; lra).
Qed.

Lemma videoTrimmer_range_witness :
  VideoTrimmer.range (VideoTrimmer.handleSetStart (Fin 3) (VideoTrimmer.loaded (Fin 10))) /\
  VideoTrimmer.trimDisabled (VideoTrimmer.handleSetStart (Fin 10) (VideoTrimmer.loaded (Fin 10)))
  = true.
Proof.
  assert (Hd : (0 <= 10)%Q) by discriminate.
  destruct (videoTrimmer_range 10 Hd) as (Hl & _ & Hstep).
  split.
  - destruct (Hstep (VideoTrimmer.loaded (Fin 10)) 3%Q Hl eq_refl) as (H & _);
      [discriminate | discriminate | exact H].
  - reflexivity.
Defined.

(** ** Loops over blocks *)

Lemma sliceLoop_spec {A : Type} (size : nat) (a : list A) (fuel i : nat) :
  (0 < size)%nat ->
  (length a - i <= fuel)%nat ->
  concat (sliceLoop fuel size a i) = drop i a /\
  forall (k : nat) (c : list A),
    sliceLoop fuel size a i !! k = Some c ->
    c = slice a (i + k * size) (i + k * size + size) /\ (i + k * size < length a)%nat.
Proof.
  intros Hsize. revert i. induction fuel as [| fuel IH]; intros i Hfuel; cbn [sliceLoop].
  - split; [| intros k c H; discriminate].
    cbn. symmetry. apply drop_ge. lia.
  - destruct (decide (i < length a)%nat) as [Hi | Hi].
    + destruct (IH (i + size)%nat ltac:(lia)) as (Hcat & Hpos).
      split.
      * cbn [concat]. rewrite Hcat. unfold slice.
        replace (i + size - i)%nat with size by lia.
        rewrite <- (drop_drop a size i). apply take_drop.
      * intros [| k] c Hk; cbn in Hk.
        -- injection Hk as <-. rewrite Nat.add_0_r. split; [reflexivity | exact Hi].
        -- destruct (Hpos k c Hk) as (-> & Hlt).
           replace (i + size + k * size)%nat with (i + S k * size)%nat by lia.
           split; [reflexivity | lia].
    + split; [| intros k c H; discriminate].
      cbn. symmetry. apply drop_ge. lia.
Qed.

Lemma slice_length {A : Type} (a : list A) (i size : nat) :
  length (slice a i (i + size)) = Nat.min size (length a - i).
Proof.
  unfold slice. rewrite length_take, length_drop. f_equal. lia.
Qed.

Lemma sliceLoop_length {A : Type} (size : nat) (a : list A) (fuel i : nat) :
  (0 < size)%nat ->
  (length a - i <= fuel)%nat ->
  (length (sliceLoop fuel size a i) * size < length a - i + size)%nat /\
  (length a - i <= length (sliceLoop fuel size a i) * size)%nat.
Proof.
  intros Hsize. revert i. induction fuel as [| fuel IH]; intros i Hfuel; cbn [sliceLoop].
  - cbn. lia.
  - destruct (decide (i < length a)%nat) as [Hi | Hi]; [| cbn; lia].
    specialize (IH (i + size)%nat ltac:(lia)). cbn [length]. rewrite !Nat.mul_succ_l.
    destruct (length (sliceLoop fuel size a (i + size))); [lia | nia].
Qed.

(** What a block loop guarantees: the blocks concatenate to the list, each
    has between 1 and [size] elements, every block but the last has [size]
    of them, block [k] holds the elements from [k * size] on, and there are
    just enough blocks. *)
Lemma blocksOf_spec {A : Type} (size : nat) (a : list A) :
  (0 < size)%nat ->
  concat (blocksOf size a) = a /\
  Forall (fun c => (1 <= length c <= size)%nat) (blocksOf size a) /\
  (forall (k : nat) (c : list A),
      blocksOf size a !! k = Some c ->
      c = slice a (k * size) (k * size + size) /\
      ((S k < length (blocksOf size a))%nat -> length c = size)) /\
  (length (blocksOf size a) * size < length a + size)%nat /\
  (length a <= length (blocksOf size a) * size)%nat.
Proof.
  intros Hsize. unfold blocksOf.
  destruct (sliceLoop_spec size a (length a) 0 Hsize ltac:(lia)) as (Hcat & Hpos).
  destruct (sliceLoop_length size a (length a) 0 Hsize ltac:(lia)) as (Hl1 & Hl2).
  split; [exact Hcat |]. split; [| split; [| lia]].
  - apply Forall_forall. intros c Hc.
    apply list_elem_of_lookup in Hc as (k & Hk).
    destruct (Hpos k c Hk) as (-> & Hlt). rewrite slice_length. lia.
  - intros k c Hk. destruct (Hpos k c Hk) as (-> & Hlt). cbn [Nat.add] in *.
    split; [reflexivity |]. intros Hnext. rewrite slice_length.
    assert (Hm : (S (S k) * size <= length (sliceLoop (length a) size a 0) * size)%nat)
      by (apply Nat.mul_le_mono_r; lia).
    rewrite !Nat.mul_succ_l in Hm. lia.
Qed.

(** ** The MP3 writer *)

Section Mp3Facts.

Variable Mp3Encoder : Type.
Variable newMp3Encoder : nat -> jsnum -> nat -> Mp3Encoder.
Variable encodeBuffer : Mp3Encoder -> list Z -> option (list Z) -> Mp3Encoder * list Z.
Variable flush : Mp3Encoder -> list Z.

Lemma encodeBlocks_feed (fuel : nat) (left : list Z) (right : option (list Z)) (i : nat)
  (mp3encoder : Mp3Encoder) (mp3Data : list (list Z)) :
  encodeBlocks Mp3Encoder encodeBuffer fuel left right i mp3encoder mp3Data
  = feed Mp3Encoder encodeBuffer (encoderCalls fuel left right i) mp3encoder mp3Data.
Proof.
  revert i mp3encoder mp3Data.
  induction fuel as [| fuel IH]; intros i enc data; cbn [encodeBlocks encoderCalls];
    [reflexivity |].
  destruct (decide (i < length left)%nat); [| reflexivity].
  cbn [feed]. cbv zeta. destruct (encodeBuffer enc _ _) as [enc' buf]. apply IH.
Qed.

Lemma encoderCalls_left (fuel : nat) (left : list Z) (right : option (list Z)) (i : nat) :
  map fst (encoderCalls fuel left right i) = sliceLoop fuel sampleBlockSize left i.
Proof.
  revert i. induction fuel as [| fuel IH]; intros i; cbn [encoderCalls sliceLoop];
    [reflexivity |].
  destruct (decide (i < length left)%nat); [| reflexivity].
  cbn [map fst]. now rewrite IH.
Qed.

Lemma encoderCalls_right (fuel : nat) (left samples : list Z) (i : nat) :
  length samples = length left ->
  map snd (encoderCalls fuel left (Some samples) i)
  = map Some (sliceLoop fuel sampleBlockSize samples i).
Proof.
  intros Hlen. revert i.
  induction fuel as [| fuel IH]; intros i; cbn [encoderCalls sliceLoop]; [reflexivity |].
  rewrite Hlen. destruct (decide (i < length left)%nat); [| reflexivity].
  cbn [map snd]. now rewrite IH.
Qed.

Lemma encoderCalls_mono (fuel : nat) (left : list Z) (i : nat) :
  Forall (fun call => snd call = None) (encoderCalls fuel left None i).
Proof.
  revert i. induction fuel as [| fuel IH]; intros i; cbn [encoderCalls]; [constructor |].
  destruct (decide (i < length left)%nat); constructor; [reflexivity | apply IH].
Qed.

Lemma pushNonEmpty_parts (mp3Data : list (list Z)) (buf : list Z) :
  Forall (fun part => part <> []) mp3Data ->
  Forall (fun part => part <> []) (pushNonEmpty mp3Data buf).
Proof.
  intros H. destruct buf as [| x buf]; [exact H |]. cbn.
  apply Forall_app. split; [exact H |]. constructor; [discriminate | constructor].
Qed.

Lemma feed_parts (calls : list (list Z * option (list Z))) (mp3encoder : Mp3Encoder)
  (mp3Data : list (list Z)) :
  Forall (fun part => part <> []) mp3Data ->
  Forall (fun part => part <> [])
    (snd (feed Mp3Encoder encodeBuffer calls mp3encoder mp3Data)).
Proof.
  revert mp3encoder mp3Data. induction calls as [| [l r] calls IH]; intros enc data H;
    [exact H |].
  cbn [feed]. destruct (encodeBuffer enc l r) as [enc' buf].
  apply IH. now apply pushNonEmpty_parts.
Qed.

(** X11: Whatever the encoder, [audioBufferToMp3] hands it every sample of a
    valid buffer exactly once and in order: the left blocks of the calls
    concatenate to the 16-bit samples of channel 0, each call has between
    1 and 1152 samples and every call but the last has 1152.  A mono buffer
    is encoded without a right block; otherwise the right blocks are those
    of channel 1, as long as the left ones.  The Blob is what the calls and
    the final flush returned, in order, without the empty buffers. *)
Theorem audioBufferToMp3_blocks (buffer : AudioBuffer) (channel0 : list jsnum)
  (others : list (list jsnum)) :
  valid_buffer buffer ->
  channelData buffer = channel0 :: others ->
  exists calls : list (list Z * option (list Z)),
    (let '(mp3encoder, mp3Data) :=
       feed Mp3Encoder encodeBuffer calls
         (newMp3Encoder (numberOfChannels buffer) (sampleRate buffer) 128%nat) [] in
     audioBufferToMp3 Mp3Encoder newMp3Encoder encodeBuffer flush buffer
     = Some (pushNonEmpty mp3Data (flush mp3encoder))) /\
    concat (map fst calls) = floatTo16BitPCM channel0 /\
    Forall (fun call => (1 <= length (fst call) <= 1152)%nat) calls /\
    (forall (k : nat) (call : list Z * option (list Z)),
        calls !! k = Some call -> (S k < length calls)%nat ->
        length (fst call) = 1152%nat) /\
    match others with
    | [] => Forall (fun call => snd call = None) calls
    | channel1 :: _ =>
        map snd calls = map Some (blocksOf 1152 (floatTo16BitPCM channel1)) /\
        Forall (fun call => exists samples : list Z,
                    snd call = Some samples /\ length samples = length (fst call)) calls
    end /\
    forall parts : list (list Z),
      audioBufferToMp3 Mp3Encoder newMp3Encoder encodeBuffer flush buffer = Some parts ->
      Forall (fun part => part <> []) parts.
Proof.
  intros (Hc & Hlen & Hall) Hdata.
  set (left := floatTo16BitPCM channel0).
  set (right := match others with
                | [] => None
                | channel1 :: _ => Some (floatTo16BitPCM channel1)
                end).
  exists (encoderCalls (length left) left right 0).
  assert (Hrun : audioBufferToMp3 Mp3Encoder newMp3Encoder encodeBuffer flush buffer
                 = Some (let '(mp3encoder, mp3Data) :=
                           feed Mp3Encoder encodeBuffer (encoderCalls (length left) left right 0)
                             (newMp3Encoder (numberOfChannels buffer) (sampleRate buffer) 128%nat)
                             [] in
                         pushNonEmpty mp3Data (flush mp3encoder))).
  { unfold audioBufferToMp3, getChannelData. cbv zeta.
    rewrite decide_True by lia. rewrite Hdata. cbn [lookup list_lookup]. fold left.
    rewrite Hdata in Hlen.
    destruct (decide (1 < numberOfChannels buffer)%nat) as [H2 | H1].
    - destruct others as [| channel1 others']; [cbn in Hlen; lia |].
      cbn [lookup list_lookup]. fold right.
      rewrite encodeBlocks_feed. now destruct (feed _ _ _ _ _).
    - destruct others as [| channel1 others']; [| cbn in Hlen; lia].
      fold right. rewrite encodeBlocks_feed. now destruct (feed _ _ _ _ _). }
  pose proof (blocksOf_spec 1152 left ltac:(lia)) as (Hcat & Hsz & Hpos & _).
  pose proof (encoderCalls_left (length left) left right 0) as Hleft.
  fold (blocksOf sampleBlockSize left) in Hleft.
  change sampleBlockSize with 1152%nat in Hleft.
  split; [| split; [| split; [| split; [| split]]]].
  - destruct (feed _ _ _ _ _) as [enc data]. exact Hrun.
  - now rewrite Hleft.
  - rewrite <- Hleft in Hsz. apply List.Forall_map in Hsz. exact Hsz.
  - intros k call Hk Hnext.
    assert (Hk' : blocksOf 1152 left !! k = Some (fst call)).
    { rewrite <- Hleft, list_lookup_fmap, Hk. reflexivity. }
    destruct (Hpos k _ Hk') as (_ & Hfull). apply Hfull.
    now rewrite <- Hleft, length_map.
  - destruct others as [| channel1 others'].
    + apply encoderCalls_mono.
    + assert (Hsame : length (floatTo16BitPCM channel1) = length left).
      { unfold left, floatTo16BitPCM. rewrite !length_map.
        rewrite Hdata in Hall. unfold frameCount in Hall. rewrite Hdata in Hall.
        inversion Hall as [| ? ? _ Hrest]; subst.
        inversion Hrest as [| ? ? H1 _]; subst. exact H1. }
      pose proof (encoderCalls_right (length left) left _ 0 Hsame) as Hright.
      assert (Hr : map snd (encoderCalls (length left) left right 0)
                   = map Some (blocksOf 1152 (floatTo16BitPCM channel1))).
      { unfold right, blocksOf. rewrite Hsame. exact Hright. }
      split; [exact Hr |].
      apply Forall_forall. intros call Hin.
      apply list_elem_of_lookup in Hin as (k & Hk).
      assert (Hl : blocksOf 1152 left !! k = Some (fst call)).
      { rewrite <- Hleft, list_lookup_fmap, Hk. reflexivity. }
      assert (Hrk : map Some (blocksOf 1152 (floatTo16BitPCM channel1)) !! k
                    = Some (snd call)).
      { rewrite <- Hr, list_lookup_fmap, Hk. reflexivity. }
      rewrite list_lookup_fmap in Hrk.
      destruct (blocksOf 1152 (floatTo16BitPCM channel1) !! k) as [samples |] eqn:Es;
        [| discriminate].
      cbn in Hrk. injection Hrk as Hrk. exists samples. split; [now symmetry |].
      destruct (Hpos k _ Hl) as (-> & _).
      destruct (blocksOf_spec 1152 (floatTo16BitPCM channel1) ltac:(lia))
        as (_ & _ & Hpos1 & _).
      destruct (Hpos1 k _ Es) as (-> & _).
      rewrite !slice_length. now rewrite Hsame.
  - intros parts Hparts. rewrite Hrun in Hparts. injection Hparts as <-.
    pose proof (feed_parts (encoderCalls (length left) left right 0)
                  (newMp3Encoder (numberOfChannels buffer) (sampleRate buffer) 128%nat) []
                  (List.Forall_nil _)) as Hf.
    destruct (feed _ _ _ _ _) as [enc data]. cbn [snd] in Hf.
    now apply pushNonEmpty_parts.
Qed.

End Mp3Facts.

Lemma audioBufferToMp3_blocks_witness :
  exists calls : list (list Z * option (list Z)),
    concat (map fst calls) = [16383; -32768; 32767] /\
    Forall (fun call => snd call = None) calls.
Proof.
  destruct (audioBufferToMp3_blocks unit (fun _ _ _ => tt) (fun _ samples _ => (tt, samples))
              (fun _ => []) mono_buffer [Fin (1 # 2); Fin (-1); Fin 1] [])
    as (calls & _ & Hcat & _ & _ & Hmono & _).
  - unfold valid_buffer, mono_buffer, frameCount. cbn.
    split; [lia | split; [reflexivity | repeat constructor]].
  - reflexivity.
  - exists calls. split; [exact Hcat | exact Hmono].
Defined.

(** ** The 16-bit conversion in the two writers *)

Lemma wav_sample_read (b : AudioBuffer) (i : nat) (x : jsnum) :
  wavSamples b !! i = Some x ->
  getInt16
    (wavHeader (numberOfChannels b) (sampleRate b) (length (wavSamples b) * 2)
     ++ flat_map (fun x => int16le (sampleToInt16 x)) (wavSamples b))
    (44 + i * 2)
  = Some (sampleToInt16 x).
Proof.
  intros Hx. destruct (payload_split _ _ _ Hx) as (pre & post & -> & L).
  destruct (int16le_read (scaleSample (clampSample x))) as (b0 & b1 & E & Hr).
  fold (sampleToInt16 x) in E, Hr. rewrite E, <- Hr.
  rewrite app_assoc. apply getInt16_at.
  rewrite length_app, wavHeader_length, L. reflexivity.
Qed.

Lemma concat_sliceLoop (samples : list Z) :
  concat (sliceLoop (length samples) sampleBlockSize samples 0) = samples.
Proof.
  destruct (blocksOf_spec sampleBlockSize samples ltac:(unfold sampleBlockSize; lia))
    as (Hcat & _).
  exact Hcat.
Qed.

Section Mp3Conversion.

Variable Mp3Encoder : Type.
Variable newMp3Encoder : nat -> jsnum -> nat -> Mp3Encoder.
Variable encodeBuffer : Mp3Encoder -> list Z -> option (list Z) -> Mp3Encoder * list Z.
Variable flush : Mp3Encoder -> list Z.

(** The calls [audioBufferToMp3] makes on a valid buffer. *)
Lemma audioBufferToMp3_calls (buffer : AudioBuffer) (channel0 : list jsnum)
  (others : list (list jsnum)) :
  valid_buffer buffer ->
  channelData buffer = channel0 :: others ->
  let left := floatTo16BitPCM channel0 in
  let right := match others with
               | [] => None
               | channel1 :: _ => Some (floatTo16BitPCM channel1)
               end in
  audioBufferToMp3 Mp3Encoder newMp3Encoder encodeBuffer flush buffer
  = Some (let '(mp3encoder, mp3Data) :=
            feed Mp3Encoder encodeBuffer (encoderCalls (length left) left right 0)
              (newMp3Encoder (numberOfChannels buffer) (sampleRate buffer) 128%nat) [] in
          pushNonEmpty mp3Data (flush mp3encoder)).
Proof.
  intros (Hc & Hlen & Hall) Hdata left right.
  unfold audioBufferToMp3, getChannelData. cbv zeta.
  rewrite decide_True by lia. rewrite Hdata. cbn [lookup list_lookup]. fold left.
  rewrite Hdata in Hlen.
  destruct (decide (1 < numberOfChannels buffer)%nat) as [H2 | H1].
  - destruct others as [| channel1 others']; [cbn in Hlen; lia |].
    cbn [lookup list_lookup]. fold right.
    rewrite encodeBlocks_feed. now destruct (feed _ _ _ _ _).
  - destruct others as [| channel1 others']; [| cbn in Hlen; lia].
    fold right. rewrite encodeBlocks_feed. now destruct (feed _ _ _ _ _).
Qed.

End Mp3Conversion.

(** C3: the conversion clamps to [-1,1], scales negative values by 32768 and
    the others by 32767, truncates without ever leaving the int16 range and
    maps -1, 0 and 1 to -32768, 0 and 32767.  It is the conversion of both
    writers: every 16-bit value [audioBufferToWav] stores after the header
    is the conversion of the sample at that place, and the samples
    [audioBufferToMp3] hands to the encoder, block after block, are the
    conversions of the samples of channel 0 (and of channel 1 for the
    right blocks). *)
Theorem C3_pcm_conversion :
  (forall q : Q,
      exists c : Q,
        clampSample (Fin q) = Fin c /\ c == Qmax (-1) (Qmin 1 q) /\
        scaleSample (Fin c)
        = Fin (Qred (c * (if Qlt_le_dec c 0 then 32768 else 32767)))) /\
  (forall x : jsnum,
      -32768 <= ToInteger (scaleSample (clampSample x)) <= 32767 /\
      sampleToInt16 x = ToInteger (scaleSample (clampSample x)) /\
      -32768 <= sampleToInt16 x <= 32767) /\
  sampleToInt16 (Fin (-1)) = -32768 /\
  sampleToInt16 (Fin 0) = 0 /\
  sampleToInt16 (Fin 1) = 32767 /\
  (forall input : list jsnum,
      floatTo16BitPCM input = map sampleToInt16 input /\
      Forall (fun v => -32768 <= v <= 32767) (floatTo16BitPCM input)) /\
  (forall x : jsnum,
      (do view <- setInt16 (newArrayBuffer 2) 0 (scaleSample (clampSample x));
       getInt16 view 0) = Some (sampleToInt16 x)) /\
  (forall b : AudioBuffer,
      valid_buffer b ->
      exists bytes : list Z,
        audioBufferToWav b = Some bytes /\
        skipn 44 bytes = flat_map (fun x => int16le (sampleToInt16 x)) (wavSamples b) /\
        forall (i : nat) (x : jsnum),
          wavSamples b !! i = Some x ->
          getInt16 bytes (44 + i * 2) = Some (sampleToInt16 x)) /\
  (forall (Mp3Encoder : Type) (newMp3Encoder : nat -> jsnum -> nat -> Mp3Encoder)
          (encodeBuffer : Mp3Encoder -> list Z -> option (list Z) -> Mp3Encoder * list Z)
          (flush : Mp3Encoder -> list Z)
          (buffer : AudioBuffer) (channel0 : list jsnum) (others : list (list jsnum)),
      valid_buffer buffer ->
      channelData buffer = channel0 :: others ->
      exists calls : list (list Z * option (list Z)),
        audioBufferToMp3 Mp3Encoder newMp3Encoder encodeBuffer flush buffer
        = Some (let '(mp3encoder, mp3Data) :=
                  feed Mp3Encoder encodeBuffer calls
                    (newMp3Encoder (numberOfChannels buffer) (sampleRate buffer) 128%nat) [] in
                pushNonEmpty mp3Data (flush mp3encoder)) /\
        concat (map fst calls) = map sampleToInt16 channel0 /\
        match others with
        | [] => Forall (fun call => snd call = None) calls
        | channel1 :: _ =>
            exists rights : list (list Z),
              map snd calls = map Some rights /\
              concat rights = map sampleToInt16 channel1
        end).
Proof.
  split; [| split; [| split; [| split; [| split; [| split; [| split; [| split]]]]]]].
  - intros q. destruct (clampSample_Fin q) as (c & Hc & Hq).
    exists c. split; [exact Hc | split; [exact Hq | apply scaleSample_Fin]].
  - intros x. pose proof (scaled_in_range x) as H.
    assert (E : sampleToInt16 x = ToInteger (scaleSample (clampSample x))).
    { unfold sampleToInt16, ToInt16. now apply wrapInt16_small. }
    rewrite E. auto.
  - reflexivity.
  - reflexivity.
  - reflexivity.
  - intros input. split; [reflexivity |].
    unfold floatTo16BitPCM. induction input as [| x input IH]; constructor.
    + unfold sampleToInt16, ToInt16. apply wrapInt16_range.
    + exact IH.
  - intros x. apply setInt16_getInt16.
  - intros b Hv. eexists. split; [exact (audioBufferToWav_layout b Hv) |]. split.
    + rewrite <- (wavHeader_length (numberOfChannels b) (sampleRate b)
                    (length (wavSamples b) * 2)) at 1.
      now rewrite drop_app_length.
    + intros i x Hx. now apply wav_sample_read.
  - intros Mp3Encoder newMp3Encoder encodeBuffer flush buffer channel0 others Hv Hdata.
    pose proof (audioBufferToMp3_calls Mp3Encoder newMp3Encoder encodeBuffer flush
                  buffer channel0 others Hv Hdata) as Hrun.
    cbv zeta in Hrun.
    set (left := floatTo16BitPCM channel0) in *.
    set (right := match others with
                  | [] => None
                  | channel1 :: _ => Some (floatTo16BitPCM channel1)
                  end) in *.
    exists (encoderCalls (length left) left right 0).
    split; [exact Hrun | split].
    + rewrite encoderCalls_left. apply concat_sliceLoop.
    + destruct others as [| channel1 others'].
      * apply encoderCalls_mono.
      * assert (Hsame : length (floatTo16BitPCM channel1) = length left).
        { destruct Hv as (_ & _ & Hall).
          unfold left, floatTo16BitPCM. rewrite !length_map.
          unfold frameCount in Hall. rewrite Hdata in Hall.
          inversion Hall as [| ? ? _ Hrest]; subst.
          inversion Hrest as [| ? ? H1 _]; subst. exact H1. }
        exists (sliceLoop (length left) sampleBlockSize (floatTo16BitPCM channel1) 0).
        split; [now apply encoderCalls_right |].
        rewrite <- Hsame. apply concat_sliceLoop.
Qed.

(** Three frames of mono audio, 0.5, -1 and 1: the file holds 16383, -32768
    and 32767 after the header, low byte first. *)
Lemma C3_pcm_conversion_witness :
  exists bytes : list Z,
    audioBufferToWav mono_buffer = Some bytes /\
    skipn 44 bytes = [255; 63; 0; 128; 255; 127] /\
    getInt16 bytes 44 = Some 16383 /\
    getInt16 bytes 46 = Some (-32768) /\
    getInt16 bytes 48 = Some 32767.
Proof.
  destruct C3_pcm_conversion as (_ & _ & _ & _ & _ & _ & _ & Hwav & _).
  destruct (Hwav mono_buffer) as (bytes & Hb & Hp & Hread).
  - unfold valid_buffer, mono_buffer, frameCount. cbn.
    split; [lia | split; [reflexivity | repeat constructor]].
  - exists bytes. split; [exact Hb | split; [exact Hp |]].
    split; [exact (Hread 0%nat (Fin (1 # 2)) eq_refl) |].
    split; [exact (Hread 1%nat (Fin (-1)) eq_refl) | exact (Hread 2%nat (Fin 1) eq_refl)].
Defined.
(** ** Translation of subtitles *)

Lemma insertById_perm (sub : TranslatedCue) (sorted : list TranslatedCue) :
  insertById sub sorted ≡ₚ sub :: sorted.
Proof.
  induction sorted as [| other rest IH]; cbn; [reflexivity |].
  destruct (cue_id sub <=? cue_id other); [reflexivity |].
  rewrite IH. apply Permutation_swap.
Qed.

Lemma sortById_perm (subtitles : list TranslatedCue) : sortById subtitles ≡ₚ subtitles.
Proof.
  induction subtitles as [| s l IH]; cbn; [reflexivity |].
  rewrite insertById_perm. now rewrite IH.
Qed.

Lemma insertById_sorted (sub : TranslatedCue) (sorted : list TranslatedCue) :
  StronglySorted (fun a b => cue_id a <= cue_id b) sorted ->
  StronglySorted (fun a b => cue_id a <= cue_id b) (insertById sub sorted).
Proof.
  induction 1 as [| other rest Hs IH Hall]; cbn.
  - constructor; constructor.
  - destruct (cue_id sub <=? cue_id other) eqn:E.
    + apply Z.leb_le in E. constructor; [now constructor |].
      constructor; [exact E |].
      eapply Forall_impl; [exact Hall |]. cbn. intros; lia.
    + apply Z.leb_gt in E. constructor; [exact IH |].
      rewrite insertById_perm. constructor; [lia | exact Hall].
Qed.

Lemma sortById_sorted (subtitles : list TranslatedCue) :
  StronglySorted (fun a b => cue_id a <= cue_id b) (sortById subtitles).
Proof.
  induction subtitles as [| s l IH]; cbn; [constructor |].
  now apply insertById_sorted.
Qed.

Lemma blocksOf_nonempty {A : Type} (size : nat) (a : list A) :
  (0 < size)%nat -> a <> [] -> blocksOf size a <> [].
Proof.
  intros Hsize Ha E. destruct (blocksOf_spec size a Hsize) as (_ & _ & _ & _ & H).
  rewrite E in H. cbn in H. destruct a; [congruence | cbn in H; lia].
Qed.

Lemma blocksOf_blocks_nonempty {A : Type} (size : nat) (a : list A) :
  (0 < size)%nat -> Forall (fun c => c <> []) (blocksOf size a).
Proof.
  intros Hsize. destruct (blocksOf_spec size a Hsize) as (_ & H & _).
  eapply Forall_impl; [exact H |]. cbn. intros c Hc ->. cbn in Hc. lia.
Qed.

Lemma NoDup_concat_parts {A : Type} (parts : list (list A)) :
  NoDup (concat parts) -> Forall NoDup parts.
Proof.
  induction parts as [| p parts IH]; cbn; [constructor |].
  intros H. apply NoDup_app in H as (Hp & _ & Hrest).
  constructor; [exact Hp | now apply IH].
Qed.

Lemma strictEq_ofZ (x y : Z) : strictEq (ofZ x) (ofZ y) = (x =? y).
Proof.
  unfold strictEq, ofZ.
  destruct (Qeq_bool (inject_Z x) (inject_Z y)) eqn:E;
    destruct (Z.eqb_spec x y) as [-> | Hne]; try reflexivity.
  - apply Qeq_bool_eq in E. rewrite inject_Z_injective in E. contradiction.
  - now rewrite (proj2 (Qeq_bool_iff _ _) (Qeq_refl _)) in E.
Qed.

(** *** One item, one chunk *)

Lemma mergeItem_picked (chunk : list Subtitle) (translated : list TranslatedCue)
  (tItem : json) :
  chunk <> [] ->
  mergeItem chunk translated tItem
  = match tItem with
    | JNull => None
    | _ => Some (translated ++ picked chunk tItem)
    end.
Proof.
  intros Hne. destruct chunk as [| o chunk]; [congruence |].
  unfold mergeItem, picked.
  destruct tItem; cbn [getProperty]; try reflexivity;
    destruct (List.find _ (o :: chunk)); try reflexivity; now rewrite app_nil_r.
Qed.

Lemma fold_thrown {A B : Type} (f : B -> A -> option B) (items : list A) :
  fold_left (fun result item => do acc <- result; f acc item) items None = None.
Proof. induction items as [| item items IH]; [reflexivity | exact IH]. Qed.

Lemma mergeChunk_picked (chunk : list Subtitle) (translated : list TranslatedCue)
  (translatedChunk : json) :
  chunk <> [] ->
  mergeChunk translated chunk translatedChunk
  = if mergeable translatedChunk
    then Some (translated ++ flat_map (picked chunk) (itemsOf translatedChunk))
    else None.
Proof.
  intros Hne. destruct translatedChunk as [| b | n | s | items | fields]; try reflexivity.
  unfold mergeChunk, mergeable, itemsOf. revert translated.
  induction items as [| tItem items IH]; intros translated.
  - cbn. now rewrite app_nil_r.
  - cbn [fold_left forallb flat_map]. rewrite (mergeItem_picked chunk translated tItem Hne).
    destruct tItem; cbn [andb]; try (rewrite IH, <- app_assoc; reflexivity).
    apply fold_thrown.
Qed.

Lemma picked_from (chunk : list Subtitle) (tItem : json) :
  Forall (fun c => exists o, o ∈ chunk /\ cueTiming c = timing o) (picked chunk tItem).
Proof.
  unfold picked. destruct (getProperty _ tItem) as [tItemId |]; [| constructor].
  destruct (List.find _ chunk) as [o |] eqn:E; [| constructor].
  destruct (getProperty _ tItem) as [tItemText |]; [| constructor].
  constructor; [| constructor].
  apply List.find_some in E as (Hin & _). exists o.
  split; [now apply list_elem_of_In | reflexivity].
Qed.

Lemma find_unique (chunk : list Subtitle) (o : Subtitle) :
  NoDup (map id chunk) -> o ∈ chunk ->
  List.find (fun x => sameId (id x) (Some (JNum (ofZ (id o))))) chunk = Some o.
Proof.
  induction chunk as [| x chunk IH]; intros Hnd Hin; [now apply elem_of_nil in Hin |].
  cbn in Hnd. apply NoDup_cons in Hnd as (Hx & Hnd). cbn [List.find sameId].
  rewrite strictEq_ofZ.
  destruct (id x =? id o) eqn:E.
  - apply Z.eqb_eq in E. apply elem_of_cons in Hin as [-> | Hin]; [reflexivity |].
    exfalso. apply Hx. rewrite E. apply list_elem_of_fmap. eauto.
  - apply elem_of_cons in Hin as [-> | Hin]; [now rewrite Z.eqb_refl in E |].
    now apply IH.
Qed.

Lemma picked_own (chunk : list Subtitle) (o : Subtitle) (tItem : json) :
  NoDup (map id chunk) -> o ∈ chunk ->
  itemId tItem = Some (ofZ (id o)) ->
  map cueTiming (picked chunk tItem) = [timing o].
Proof.
  intros Hnd Hin Hid. unfold itemId in Hid. unfold picked.
  destruct (getProperty (str "id") tItem) as [[[| | n | | |] |] |] eqn:E; try discriminate.
  injection Hid as ->. rewrite (find_unique chunk o Hnd Hin).
  destruct tItem; try discriminate E; reflexivity.
Qed.

Lemma faithful_timing (chunk : list Subtitle) (translatedChunk : json) :
  NoDup (map id chunk) ->
  faithful chunk translatedChunk ->
  map cueTiming (flat_map (picked chunk) (itemsOf translatedChunk)) = map timing chunk.
Proof.
  intros Hnd (items & -> & Hids). cbn [itemsOf].
  assert (H : forall (part : list Subtitle) (its : list json),
             Forall (fun o => o ∈ chunk) part ->
             map itemId its = map (fun s => Some (ofZ (id s))) part ->
             map cueTiming (flat_map (picked chunk) its) = map timing part).
  { induction part as [| o part IH]; intros its Hin Hits.
    - destruct its; [reflexivity | discriminate].
    - destruct its as [| tItem its]; [discriminate |].
      cbn [map] in Hits. injection Hits as Hi Hits.
      inversion Hin as [| ? ? Ho Hrest]; subst.
      cbn [flat_map map]. rewrite map_app, (picked_own chunk o tItem Hnd Ho Hi).
      now rewrite (IH its Hrest Hits). }
  apply H; [| exact Hids]. apply Forall_forall. auto.
Qed.

Lemma mergeable_faithful (chunk : list Subtitle) (translatedChunk : json) :
  faithful chunk translatedChunk -> mergeable translatedChunk = true.
Proof.
  intros (items & -> & Hids). cbn [mergeable]. revert chunk Hids.
  induction items as [| tItem items IH]; intros chunk Hids; [reflexivity |].
  destruct chunk as [| o chunk]; [discriminate |].
  cbn [map] in Hids. injection Hids as Hi Hids. cbn [forallb].
  rewrite (IH chunk Hids). now destruct tItem.
Qed.

Lemma originalItems_faithful (chunk : list Subtitle) : faithful chunk (originalItems chunk).
Proof.
  exists (map (fun s => JObj [(str "id", JNum (ofZ (id s))); (str "text", JStr (text s))])
              chunk).
  split; [reflexivity |]. rewrite map_map. reflexivity.
Qed.

(** *** The batch loop *)

Section TranslateFacts.

Variable API_KEY : list ascii.
Variable generateContent : list (Z * list ascii) -> option (list ascii).
Variable JSON_parse : list ascii -> option json.
Variable div64 : jsnum -> jsnum -> jsnum.
Variable mul64 : jsnum -> jsnum -> jsnum.

#[local] Abbreviation reply := (translateChunk generateContent JSON_parse).

#[local] Abbreviation step :=
  (fun (result : option (list TranslatedCue)) (chunk : list Subtitle) =>
     do translated <- result; mergeChunk translated chunk (reply chunk)).

#[local] Abbreviation cuesOf :=
  (fun chunk : list Subtitle => flat_map (picked chunk) (itemsOf (reply chunk))).

Lemma step_thrown (chunks : list (list Subtitle)) : fold_left step chunks None = None.
Proof. induction chunks as [| chunk chunks IH]; [reflexivity | exact IH]. Qed.

Lemma step_fold (chunks : list (list Subtitle)) (translated : list TranslatedCue) :
  Forall (fun chunk => chunk <> []) chunks ->
  fold_left step chunks (Some translated)
  = if forallb (fun chunk => mergeable (reply chunk)) chunks
    then Some (translated ++ concat (map cuesOf chunks))
    else None.
Proof.
  intros Hne. revert translated.
  induction Hne as [| chunk chunks Hc _ IH]; intros translated.
  - cbn. now rewrite app_nil_r.
  - cbn [fold_left forallb map concat]. rewrite (mergeChunk_picked chunk translated _ Hc).
    destruct (mergeable (reply chunk)); cbn [andb].
    + rewrite IH. now rewrite <- app_assoc.
    + apply step_thrown.
Qed.

Lemma batch_fold (batch : list (list Subtitle)) (result : option (list TranslatedCue)) :
  fold_left (fun result '(originalChunk, translatedChunk) =>
               do translated <- result;
               mergeChunk translated originalChunk translatedChunk)
            (combine batch (map reply batch)) result
  = fold_left step batch result.
Proof.
  revert result. induction batch as [| chunk batch IH]; intros result; [reflexivity |].
  cbn [map combine fold_left]. apply IH.
Qed.

Lemma batches_thrown (chunkCount : nat) (batches : list (list (list Subtitle)))
  (state : TranslateState) :
  thrown state = true ->
  fold_left (translateBatch generateContent JSON_parse div64 mul64 chunkCount) batches state
  = state.
Proof.
  intros Ht. induction batches as [| batch batches IH]; [reflexivity |].
  cbn [fold_left]. unfold translateBatch at 2. rewrite Ht. exact IH.
Qed.

Lemma batches_fold (chunkCount : nat) (batches : list (list (list Subtitle))) :
  Forall (fun chunk => chunk <> []) (concat batches) ->
  forall state : TranslateState,
    thrown state = false ->
    let final :=
      fold_left (translateBatch generateContent JSON_parse div64 mul64 chunkCount)
        batches state in
    if forallb (fun chunk => mergeable (reply chunk)) (concat batches)
    then
      thrown final = false /\
      translatedSubtitles final
      = translatedSubtitles state ++ concat (map cuesOf (concat batches)) /\
      processedChunks final = (processedChunks state + length (concat batches))%nat /\
      (batches <> [] ->
       last (reported final)
       = Some (Math_round (mul64 (div64 (ofNat (processedChunks final)) (ofNat chunkCount))
                                 (Fin 100))))
    else thrown final = true.
Proof.
  induction batches as [| batch batches IH]; intros Hne state Hstate; cbv zeta.
  - cbn. rewrite app_nil_r. repeat split; [exact Hstate | lia | congruence].
  - cbn [concat] in Hne. apply Forall_app in Hne as (Hb & Hrest).
    cbn [fold_left concat]. rewrite forallb_app.
    assert (Hstep :
      translateBatch generateContent JSON_parse div64 mul64 chunkCount state batch
      = if forallb (fun chunk => mergeable (reply chunk)) batch
        then
          mkTranslateState (translatedSubtitles state ++ concat (map cuesOf batch))
            (processedChunks state + length batch)
            (reported state
             ++ [Math_round
                   (mul64 (div64 (ofNat (processedChunks state + length batch))
                                 (ofNat chunkCount)) (Fin 100))])
            false
        else
          mkTranslateState (translatedSubtitles state) (processedChunks state)
            (reported state) true).
    { unfold translateBatch. rewrite Hstate. cbv zeta.
      rewrite batch_fold, (step_fold batch _ Hb).
      now destruct (forallb (fun chunk => mergeable (reply chunk)) batch). }
    rewrite Hstep.
    destruct (forallb (fun chunk => mergeable (reply chunk)) batch); cbn [andb].
    + match goal with
      | |- context [fold_left _ batches ?st] =>
          pose proof (IH Hrest st eq_refl) as IH'; cbv zeta in IH'
      end.
      cbn [translatedSubtitles processedChunks reported] in IH'.
      destruct (forallb (fun chunk => mergeable (reply chunk)) (concat batches));
        [| exact IH'].
      destruct IH' as (H1 & H2 & H3 & H4).
      split; [exact H1 | split; [| split; [| intros _]]].
      * rewrite H2, map_app, concat_app. now rewrite <- app_assoc.
      * rewrite H3, length_app. lia.
      * destruct batches as [| b' batches'].
        -- cbn [fold_left reported processedChunks]. apply last_snoc.
        -- apply H4. discriminate.
    + now rewrite batches_thrown.
Qed.

(** X12: Translation never changes when a cue is shown.  The call is
    rejected exactly when the reply for some chunk parses to something
    that is no array or holds a [null]; otherwise every cue returned has
    the id and the times of a cue that was handed in, and the cues come
    back in the order of their ids.  When the replies keep the ids of
    their chunks, and the ids are distinct, the ids and times returned are
    exactly those handed in; a chunk whose request or parsing fails is
    answered with its own items, which are such a reply.  When cues are
    returned, the last progress reported is 100, the quotient of a count
    by itself being 1 and the product of 1 and 100 being 100. *)
Theorem translateSubtitles_keeps_timing (subtitles : list Subtitle) :
  API_KEY <> [] ->
  let chunks := blocksOf CHUNK_SIZE subtitles in
  let result :=
    fst (translateSubtitles API_KEY generateContent JSON_parse div64 mul64 subtitles) in
  let progress :=
    snd (translateSubtitles API_KEY generateContent JSON_parse div64 mul64 subtitles) in
  (result = MergeThrows <-> Exists (fun chunk => mergeable (reply chunk) = false) chunks) /\
  (result = MergeThrows \/ exists cues : list TranslatedCue, result = Translated cues) /\
  (forall chunk : list Subtitle,
      faithful chunk (originalItems chunk) /\
      (generateContent (map (fun s => (id s, text s)) chunk) = None ->
       reply chunk = originalItems chunk)) /\
  (forall cues : list TranslatedCue,
      result = Translated cues ->
      Forall (fun c => exists o, o ∈ subtitles /\ cueTiming c = timing o) cues /\
      StronglySorted (fun a b => cue_id a <= cue_id b) cues /\
      (subtitles <> [] ->
       (forall n : nat, (0 < n)%nat -> div64 (ofNat n) (ofNat n) = Fin 1) ->
       mul64 (Fin 1) (Fin 100) = Fin 100 ->
       last progress = Some (Fin 100)) /\
      (NoDup (map id subtitles) ->
       Forall (fun chunk => faithful chunk (reply chunk)) chunks ->
       map cueTiming cues ≡ₚ map timing subtitles)).
Proof.
  intros Hkey chunks result progress.
  destruct (blocksOf_spec CHUNK_SIZE subtitles ltac:(unfold CHUNK_SIZE; lia))
    as (Hcat & _). fold chunks in Hcat.
  pose proof (blocksOf_blocks_nonempty CHUNK_SIZE subtitles ltac:(unfold CHUNK_SIZE; lia))
    as Hne. fold chunks in Hne.
  destruct (blocksOf_spec CONCURRENCY chunks ltac:(unfold CONCURRENCY; lia))
    as (Hcat3 & _).
  pose proof (batches_fold (length chunks) (blocksOf CONCURRENCY chunks)) as Hrun.
  rewrite Hcat3 in Hrun. specialize (Hrun Hne (mkTranslateState [] 0 [] false) eq_refl).
  cbv zeta in Hrun. cbn [translatedSubtitles processedChunks app Nat.add] in Hrun.
  assert (Hres : (result, progress)
    = (let final :=
         fold_left (translateBatch generateContent JSON_parse div64 mul64 (length chunks))
           (blocksOf CONCURRENCY chunks) (mkTranslateState [] 0 [] false) in
       (if thrown final then MergeThrows
        else Translated (sortById (translatedSubtitles final)),
        reported final))).
  { unfold result, progress, translateSubtitles. destruct API_KEY; [congruence |].
    reflexivity. }
  cbv zeta in Hres. injection Hres as Hresult Hprogress.
  clearbody result progress chunks.
  set (final := fold_left _ _ _) in *.
  assert (Hall : forallb (fun chunk => mergeable (reply chunk)) chunks = false
                 <-> Exists (fun chunk => mergeable (reply chunk) = false) chunks).
  { clear. induction chunks as [| chunk cs IH]; cbn [forallb].
    - split; [discriminate | intros H; inversion H].
    - destruct (mergeable (reply chunk)) eqn:E; cbn [andb].
      + rewrite IH. split; [now right |].
        intros H. inversion H as [? ? H1 | ? ? H1]; subst; [congruence | exact H1].
      + split; [now left | reflexivity]. }
  split; [| split; [| split]].
  - rewrite <- Hall.
    destruct (forallb (fun chunk => mergeable (reply chunk)) chunks).
    + destruct Hrun as (Ht & _). rewrite Ht in Hresult. subst result.
      split; discriminate.
    + rewrite Hrun in Hresult. subst result. split; reflexivity.
  - subst result. destruct (thrown final); [now left | right; eauto].
  - intros chunk. split; [apply originalItems_faithful |].
    intros Hfail. unfold translateChunk. cbv zeta. now rewrite Hfail.
  - intros cues Hcues.
    destruct (forallb (fun chunk => mergeable (reply chunk)) chunks);
      [| rewrite Hrun in Hresult; congruence].
    destruct Hrun as (Ht & Hts & Hp & Hlast).
    rewrite Ht, Hts in Hresult. rewrite Hresult in Hcues. injection Hcues as <-.
    split; [| split; [apply sortById_sorted | split]].
    + apply Forall_forall. intros c Hc.
      rewrite sortById_perm in Hc. apply list_elem_of_In, List.in_concat in Hc.
      destruct Hc as (part & Hpart & Hc).
      apply List.in_map_iff in Hpart as (chunk & <- & Hchunk).
      apply List.in_flat_map in Hc as (tItem & _ & Hc).
      pose proof (picked_from chunk tItem) as Hfrom.
      rewrite List.Forall_forall in Hfrom. destruct (Hfrom c Hc) as (o & Ho & Hto).
      exists o. split; [| exact Hto]. rewrite <- Hcat.
      apply list_elem_of_In, List.in_concat. exists chunk.
      split; [exact Hchunk | now apply list_elem_of_In].
    + intros Hsome Hdiv Hmul.
      assert (Hc : chunks <> []) by (intros ->; cbn in Hcat; congruence).
      rewrite Hprogress.
      rewrite Hlast by (apply blocksOf_nonempty; [unfold CONCURRENCY; lia | exact Hc]).
      rewrite Hp, Hdiv, Hmul; [reflexivity |].
      destruct chunks; [congruence | cbn; lia].
    + intros Hnd Hfaith. rewrite sortById_perm.
      rewrite <- Hcat. rewrite <- Hcat, List.concat_map in Hnd.
      apply NoDup_concat_parts in Hnd.
      clear -Hnd Hfaith.
      assert (E : map cueTiming (concat (map cuesOf chunks)) = map timing (concat chunks));
        [| now rewrite E].
      induction chunks as [| chunk cs IH]; [reflexivity |].
      cbn [map concat]. rewrite !map_app. cbn [map] in Hnd.
      inversion Hnd as [| ? ? H1 H2]; subst. inversion Hfaith as [| ? ? F1 F2]; subst.
      rewrite (IH H2 F2). f_equal. now apply faithful_timing.
Qed.

End TranslateFacts.

(** Two cues, no reply: every request fails, and both cues come back. *)
Lemma translateSubtitles_keeps_timing_witness :
  exists cues : list TranslatedCue,
    fst (translateSubtitles (str "key") (fun _ => None) (fun _ => None) div mul
           [cueB; cueA])
    = Translated cues /\
    map cueTiming cues ≡ₚ [timing cueB; timing cueA] /\
    last (snd (translateSubtitles (str "key") (fun _ => None) (fun _ => None) div mul
                 [cueB; cueA]))
    = Some (Fin 100).
Proof.
  destruct (translateSubtitles_keeps_timing (str "key") (fun _ => None) (fun _ => None)
              div mul [cueB; cueA])
    as (_ & Hend & Hown & Hcues); [discriminate |].
  destruct Hend as [Hthrows | (cues & Hres)]; [discriminate Hthrows |].
  exists cues. split; [exact Hres |].
  destruct (Hcues cues Hres) as (_ & _ & Hlast & Hperm).
  split.
  - apply Hperm.
    + cbn. repeat constructor; rewrite ?elem_of_cons, ?elem_of_nil; intuition discriminate.
    + apply Forall_forall. intros chunk _.
      destruct (Hown chunk) as (Hf & Hr). rewrite (Hr eq_refl). exact Hf.
  - apply Hlast; [discriminate | | reflexivity].
    intros n Hn. unfold ofNat, ofZ. rewrite div_Fin_pos by (unfold Qlt; cbn; lia).
    f_equal. change 1%Q with (Qred 1). apply Qred_complete. unfold Qdiv. rewrite Qmult_inv_r; [reflexivity |].
    unfold Qeq. cbn. lia.
Defined.

(** ** Time strings *)

Lemma is_digit_cases (c : ascii) :
  is_digit c = true ->
  In c ["0"; "1"; "2"; "3"; "4"; "5"; "6"; "7"; "8"; "9"]%char.
Proof.
  destruct c as [[] [] [] [] [] [] [] []]; intros H; try discriminate H; cbn; tauto.
Qed.

Lemma spanDigits_all (ds : list ascii) :
  Forall (fun c => is_digit c = true) ds -> spanDigits ds = (ds, []).
Proof.
  induction 1 as [| c ds Hc _ IH]; [reflexivity |]. cbn [spanDigits].
  now rewrite Hc, IH.
Qed.

Lemma trimStart_no_space (s : list ascii) :
  Forall (fun c => is_space c = false) s -> trimStart s = s.
Proof. destruct 1 as [| c s Hc _]; [reflexivity |]. now apply trimStart_ink. Qed.

Lemma trim_no_space (s : list ascii) :
  Forall (fun c => is_space c = false) s -> trim s = s.
Proof.
  intros H. unfold trim, trimEnd. rewrite (trimStart_no_space s H).
  rewrite trimStart_no_space; [apply rev_involutive |].
  apply List.Forall_forall. intros x Hx. rewrite List.Forall_forall in H. apply H.
  now apply List.in_rev.
Qed.

Lemma is_digit_not_space (c : ascii) : is_digit c = true -> is_space c = false.
Proof.
  intros H. apply is_digit_cases in H. cbn in H.
  repeat (destruct H as [<- | H]; [reflexivity |]). contradiction.
Qed.

Lemma strDecimalLiteral_digits (d : ascii) (rest : list ascii) :
  is_digit d = true -> Forall (fun c => is_digit c = true) rest ->
  strDecimalLiteral (d :: rest) = ofZ (decimalValue (d :: rest)).
Proof.
  intros Hd Hrest.
  assert (Hspan : spanDigits (d :: rest) = (d :: rest, []))
    by (apply spanDigits_all; now constructor).
  assert (Hu : unsignedDecimal (d :: rest)
               = Some (inject_Z (decimalValue (d :: rest)) * pow10 (0 - 0))%Q).
  { unfold unsignedDecimal. rewrite Hspan. cbn [exponentPart app length Z.of_nat].
    rewrite app_nil_r. reflexivity. }
  assert (Hlit : strDecimalLiteral (d :: rest)
                 = match unsignedDecimal (d :: rest) with
                   | Some q => Fin (Qred q)
                   | None => NaN
                   end).
  { apply is_digit_cases in Hd. cbn in Hd.
    repeat (destruct Hd as [<- | Hd]; [reflexivity |]). contradiction. }
  rewrite Hlit, Hu. apply Fin_of_Qeq. cbn [Z.sub Z.add Z.opp]. unfold pow10. cbn.
  apply Qmult_1_r.
Qed.

Lemma Number_digits (ds : list ascii) :
  digitString ds -> Number ds = ofZ (decimalValue ds).
Proof.
  intros (Hne & Hds). unfold Number.
  rewrite trim_no_space
    by (eapply Forall_impl; [exact Hds | apply is_digit_not_space]).
  destruct ds as [| d rest]; [congruence |].
  inversion Hds as [| ? ? Hd Hrest]; subst.
  rewrite <- (strDecimalLiteral_digits d rest Hd Hrest).
  destruct rest as [| d2 rest]; pose proof Hd as Hd'; apply is_digit_cases in Hd'; cbn in Hd'.
  - repeat (destruct Hd' as [<- | Hd']; [reflexivity |]). contradiction.
  - inversion Hrest as [| ? ? Hd2 _]; subst. apply is_digit_cases in Hd2. cbn in Hd2.
    repeat (destruct Hd' as [<- | Hd']; [| ]); try contradiction; try reflexivity.
    repeat (destruct Hd2 as [<- | Hd2]; [reflexivity |]). contradiction.
Qed.

Lemma digitString_exclude (ds : list ascii) (c : ascii) :
  digitString ds -> is_digit c = false -> Forall (fun x => x <> c) ds.
Proof.
  intros (_ & D) Hc. eapply Forall_impl; [exact D |].
  intros x Hx E. subst x. congruence.
Qed.

Lemma replaceFirst_app (a b : ascii) (p rest : list ascii) :
  Forall (fun x => x <> a) p -> replaceFirst a b (p ++ a :: rest) = p ++ b :: rest.
Proof.
  induction 1 as [| x p Hx _ IH]; cbn.
  - now rewrite Ascii.eqb_refl.
  - apply Ascii.eqb_neq in Hx. now rewrite Hx, IH.
Qed.

(** A time part without separator: [timeToSeconds] reads its fields. *)
Lemma timeToSeconds_body (body : list ascii) :
  body <> [] ->
  Forall (fun x => x <> "."%char) body -> Forall (fun x => x <> ","%char) body ->
  timeToSeconds (Some body)
  = timeFromParts (map Number (splitChar ":" body)) (str "0").
Proof.
  intros Hne Hdot Hcomma. destruct body as [| c s]; [congruence |].
  rewrite timeToSeconds_unfold. unfold timeParts, millisecondsPart.
  rewrite replaceFirst_absent by exact Hdot.
  rewrite (splitChar_absent "," (c :: s) Hcomma). reflexivity.
Qed.

(** A time part, a separator and a field of thousandths. *)
Lemma timeToSeconds_body_ms (body K : list ascii) (sep : ascii) :
  sep = ","%char \/ sep = "."%char ->
  Forall (fun x => x <> "."%char) body -> Forall (fun x => x <> ","%char) body ->
  digitString K ->
  timeToSeconds (Some (body ++ sep :: K))
  = timeFromParts (map Number (splitChar ":" body)) K.
Proof.
  intros Hsep Hdot Hcomma HK.
  pose proof (digitString_exclude K "." HK eq_refl) as Kdot.
  pose proof (digitString_exclude K "," HK eq_refl) as Kcomma.
  assert (Hnorm : replaceFirst "." "," (body ++ sep :: K) = body ++ ","%char :: K).
  { destruct Hsep as [-> | ->].
    - apply replaceFirst_absent. apply Forall_app. split; [exact Hdot |].
      constructor; [discriminate | exact Kdot].
    - now apply replaceFirst_app. }
  destruct (body ++ sep :: K) as [| c s] eqn:E; [now destruct body |].
  rewrite timeToSeconds_unfold. unfold timeParts, millisecondsPart.
  rewrite Hnorm, (splitChar_app "," body K Hcomma).
  rewrite (splitChar_absent "," K Kcomma). cbn [nth nth_error].
  destruct HK as (HKne & _). destruct K; [congruence | reflexivity].
Qed.

Lemma timeFromParts_clock (h m s k : Z) (K : list ascii) :
  Number K = ofZ k ->
  timeFromParts [ofZ h; ofZ m; ofZ s] K = clock h m s k.
Proof.
  intros HK. unfold timeFromParts. rewrite HK, or_else_ofZ.
  change (Fin 3600) with (ofZ 3600). change (Fin 60) with (ofZ 60).
  rewrite !mul_ofZ, !add_ofZ. reflexivity.
Qed.

Lemma fields3 (H M S : list ascii) :
  digitString H -> digitString M -> digitString S ->
  map Number (splitChar ":" (H ++ ":"%char :: M ++ ":"%char :: S))
  = [ofZ (decimalValue H); ofZ (decimalValue M); ofZ (decimalValue S)].
Proof.
  intros DH DM DS.
  rewrite splitChar_app by (now apply digitString_exclude).
  rewrite splitChar_app by (now apply digitString_exclude).
  rewrite splitChar_absent by (now apply digitString_exclude).
  cbn [map]. now rewrite !Number_digits.
Qed.

Lemma fields2 (M S : list ascii) :
  digitString M -> digitString S ->
  map Number (splitChar ":" (M ++ ":"%char :: S))
  = [ofZ (decimalValue M); ofZ (decimalValue S)].
Proof.
  intros DM DS.
  rewrite splitChar_app by (now apply digitString_exclude).
  rewrite splitChar_absent by (now apply digitString_exclude).
  cbn [map]. now rewrite !Number_digits.
Qed.

Lemma fields1 (S : list ascii) :
  digitString S -> map Number (splitChar ":" S) = [ofZ (decimalValue S)].
Proof.
  intros DS. rewrite splitChar_absent by (now apply digitString_exclude).
  cbn [map]. now rewrite !Number_digits.
Qed.

Lemma timeFromParts_2 (m s : jsnum) (K : list ascii) :
  timeFromParts [m; s] K = timeFromParts [Fin 0; m; s] K.
Proof. reflexivity. Qed.

Lemma timeFromParts_1 (s : jsnum) (K : list ascii) :
  timeFromParts [s] K = timeFromParts [Fin 0; Fin 0; s] K.
Proof. reflexivity. Qed.

Ltac no_separator :=
  repeat first
    [ apply Forall_app; split
    | apply Forall_cons; split; [discriminate |]
    | now apply digitString_exclude ].



Lemma div_or_else_zero (v : jsnum) :
  isNaN v = false -> div (or_else v (Fin 0)) (Fin 1000) = div v (Fin 1000).
Proof.
  destruct v as [| | | q]; try discriminate; try reflexivity. intros _.
  unfold or_else, truthy. destruct (Qeq_bool q 0) eqn:E; [| reflexivity].
  apply Qeq_bool_eq in E. cbn [negb]. rewrite !div_Fin_pos by reflexivity.
  f_equal. apply Qred_complete. now rewrite E.
Qed.

Lemma parseTimeUI_cases (s : list ascii) :
  parseTimeUI s = if millisecondsNaN s then Fin 0 else timeToSeconds (Some s).
Proof.
  destruct s as [| c s]; [reflexivity |].
  rewrite timeToSeconds_unfold.
  unfold parseTimeUI, millisecondsNaN, timeFromParts, timeParts, millisecondsPart.
  cbv zeta.
  set (parts := splitChar "," (replaceFirst "." "," (c :: s))).
  generalize (match map Number (splitChar ":" (nth 0 parts [])) with
              | [h; m; s0] => (h, m, s0)
              | [m; s0] => (Fin 0, m, s0)
              | [s0] => (Fin 0, Fin 0, s0)
              | _ => (Fin 0, Fin 0, Fin 0)
              end).
  intros [[h m] s0].
  destruct (nth_error parts 1) as [[| x t] |]; try reflexivity.
  destruct (isNaN (Number (x :: t))) eqn:E.
  - destruct (Number (x :: t)); try discriminate. now rewrite add_NaN_r.
  - now rewrite div_or_else_zero.
Qed.

(** X14: The time field of the subtitle editor reads a string as the file
    parser does, with one exception: where the part after the separator is
    there and is no number, the editor gives 0 and the file parser ignores
    that part. *)
Theorem parseTimeUI_timeToSeconds (s : list ascii) :
  parseTimeUI s = if millisecondsNaN s then Fin 0 else timeToSeconds (Some s).
Proof. exact (parseTimeUI_cases s). Qed.

Lemma secondsToTime_parts (q : Q) :
  srtTime q ->
  exists H M S K : list ascii,
    (forall separator : list ascii,
        secondsToTime (Fin q) separator
        = (H ++ ":"%char :: M ++ ":"%char :: S) ++ separator ++ K) /\
    digits 2 H /\ digits 2 M /\ digits 2 S /\ digits 3 K.
Proof.
  intros Hq. pose proof Hq as (H0 & _).
  destruct (srtTime_fields q Hq) as (Bh & Bm & Bs & Bk).
  destruct (secondsToTime_fields q H0) as (Eh & Em & Es & Ek).
  unfold secondsToTime. rewrite Eh, Em, Es, Ek.
  destruct (pad_checked 2 100 _ padCheck_2 Bh) as (Dh & _).
  destruct (pad_checked 2 100 ((Qfloor q mod 3600) / 60) padCheck_2) as (Dm & _); [lia |].
  destruct (pad_checked 2 100 (Qfloor q mod 60) padCheck_2) as (Ds & _); [lia |].
  destruct (pad_checked 3 1000 _ padCheck_3 Bk) as (Dk & _).
  exists (pad (ofZ (Qfloor q / 3600)) 2), (pad (ofZ ((Qfloor q mod 3600) / 60)) 2),
    (pad (ofZ (Qfloor q mod 60)) 2),
    (pad (ofZ (Qfloor ((q - inject_Z (Qfloor q)) * 1000 + (1 # 2)))) 3).
  split; [| repeat (split; [assumption |]); assumption].
  intros separator. rewrite <- !app_assoc. cbn [app str list_ascii_of_string].
  do 2 f_equal. rewrite <- !app_assoc. reflexivity.
Qed.

Lemma digits_digitString (n : nat) (ds : list ascii) : digits (S n) ds -> digitString ds.
Proof. intros (L & D). split; [now destruct ds | exact D]. Qed.

Lemma millisecondsPart_body_ms (body K : list ascii) :
  Forall (fun x => x <> "."%char) body -> Forall (fun x => x <> ","%char) body ->
  digitString K ->
  millisecondsPart (body ++ ","%char :: K) = Some K.
Proof.
  intros Hdot Hcomma HK. unfold millisecondsPart.
  rewrite replaceFirst_absent.
  - rewrite (splitChar_app "," body K Hcomma).
    now rewrite (splitChar_absent "," K (digitString_exclude K "," HK eq_refl)).
  - apply Forall_app. split; [exact Hdot |]. constructor; [discriminate |].
    now apply digitString_exclude.
Qed.

Lemma timeToSeconds_secondsToTime_dot (q : Q) :
  srtTime q ->
  timeToSeconds (Some (secondsToTime (Fin q) (str "."))) = Fin (roundToMs q).
Proof.
  intros Hq. pose proof (timeToSeconds_secondsToTime q Hq) as Hcomma.
  destruct (secondsToTime_parts q Hq) as (H & M & S & K & Hparts & DH & DM & DS & DK).
  assert (Hbody1 : Forall (fun x => x <> "."%char) (H ++ ":"%char :: M ++ ":"%char :: S))
    by (repeat first [apply Forall_app; split | apply Forall_cons; split; [discriminate |]];
        eapply digits_exclude; eauto).
  assert (Hbody2 : Forall (fun x => x <> ","%char) (H ++ ":"%char :: M ++ ":"%char :: S))
    by (repeat first [apply Forall_app; split | apply Forall_cons; split; [discriminate |]];
        eapply digits_exclude; eauto).
  pose proof (digits_digitString _ _ DK) as HK.
  rewrite <- Hcomma, !Hparts. cbn [str list_ascii_of_string app].
  rewrite !timeToSeconds_body_ms by (auto; now right). reflexivity.
Qed.



(** ** Canvas size and the trim loop *)

Lemma rem_2_ofZ (z : Z) : 0 <= z -> rem (ofZ z) (Fin 2) = ofZ (z mod 2).
Proof.
  intros Hz.
  change (rem (ofZ z) (Fin 2))
    with (Fin (Qred (inject_Z z
                     - inject_Z (Zpos 2) * inject_Z (Qtrunc (inject_Z z / inject_Z (Zpos 2)))))).
  rewrite Qtrunc_div_Z by (change 0%Q with (inject_Z 0); rewrite <- Zle_Qle; exact Hz).
  rewrite Qfloor_Z. apply Fin_of_Qeq.
  rewrite (Z.mod_eq z 2) by lia. unfold Z.sub.
  rewrite inject_Z_plus, inject_Z_opp, inject_Z_mult. reflexivity.
Qed.

(** X16: The canvas of the three video exports has even sides: for a video
    side of [z] pixels, the canvas side is the largest even number that is
    at most [z]. *)
Theorem evenDimension_even (z : Z) :
  0 <= z ->
  evenDimension (ofZ z) = ofZ (2 * (z / 2)) /\
  z - 1 <= 2 * (z / 2) <= z.
Proof.
  intros Hz. split; [| pose proof (Z.mod_pos_bound z 2); pose proof (Z.div_mod z 2); lia].
  unfold evenDimension. rewrite rem_2_ofZ by exact Hz.
  pose proof (Z.mod_pos_bound z 2 ltac:(lia)) as Hm.
  pose proof (Z.div_mod z 2 ltac:(lia)) as Hd.
  assert (Hcase : z mod 2 = 0 \/ z mod 2 = 1) by lia.
  destruct Hcase as [E | E]; rewrite E.
  - cbn [strictEq ofZ Qeq_bool]. cbn. f_equal. f_equal. lia.
  - replace (strictEq (ofZ 1) (Fin 0)) with false by reflexivity.
    change (Fin 1) with (ofZ 1). rewrite sub_ofZ. f_equal. lia.
Qed.

Lemma evenDimension_even_witness :
  evenDimension (Fin 1081) = Fin 1080 /\ evenDimension (Fin 1920) = Fin 1920.
Proof.
  split.
  - exact (proj1 (evenDimension_even 1081 ltac:(lia))).
  - exact (proj1 (evenDimension_even 1920 ltac:(lia))).
Defined.

Lemma trim_before_end (startTime endTime : jsnum) (video : VideoState) :
  playing video = true -> ge (currentTime video) endTime = false ->
  trim_renderFrame startTime endTime video = trimStep startTime endTime video.
Proof.
  unfold playing, trim_renderFrame, trimStep. intros Hp Hg.
  apply negb_true_iff in Hp. now rewrite Hp, Hg.
Qed.

Lemma trim_loop_prefix (startTime endTime : jsnum) (before rest : list VideoState) :
  Forall (fun v => playing v = true /\ ge (currentTime v) endTime = false) before ->
  renderLoop (trim_renderFrame startTime endTime) (before ++ rest)
  = flat_map (trimStep startTime endTime) before
    ++ renderLoop (trim_renderFrame startTime endTime) rest.
Proof.
  induction 1 as [| v before (Hp & Hg) _ IH]; [reflexivity |].
  cbn [app renderLoop flat_map]. cbv zeta.
  rewrite (trim_before_end _ _ _ Hp Hg). unfold trimStep at 2.
  cbn [existsb isRequestFrame orb]. rewrite IH. now rewrite app_assoc.
Qed.

Lemma trimStep_no_stop (startTime endTime : jsnum) (before : list VideoState) :
  stopsNow (flat_map (trimStep startTime endTime) before) = false.
Proof. induction before as [| v before IH]; [reflexivity | exact IH]. Qed.

(** X17: The trim loop ends in one of three ways.  At the first playing frame
    at or after the end offset it draws that frame, pauses the source,
    stops the recorder and reports 100; the frames after it are not
    looked at.  If instead the source is paused or has ended at a frame
    before any such frame, the loop ends there without stopping the
    recorder and without reporting 100 (the function has no [onended]
    handler).  And as long as neither happens the recorder is not
    stopped. *)
Theorem trim_loop_end (startTime endTime : jsnum) (before after : list VideoState)
  (video : VideoState) :
  Forall (fun v => playing v = true /\ ge (currentTime v) endTime = false) before ->
  let loop := renderLoop (trim_renderFrame startTime endTime) in
  let steps := flat_map (trimStep startTime endTime) before in
  (loop before = steps /\ stopsNow (loop before) = false) /\
  (playing video = true -> ge (currentTime video) endTime = true ->
   loop (before ++ video :: after)
   = steps ++ [DrawImage; VideoPause; RecorderStop; OnProgress (Fin 100)]) /\
  (playing video = false ->
   loop (before ++ video :: after) = steps /\
   stopsNow (loop (before ++ video :: after)) = false).
Proof.
  intros Hbefore loop steps. unfold loop, steps.
  split; [| split].
  - pose proof (trim_loop_prefix startTime endTime before [] Hbefore) as H.
    cbn [renderLoop] in H. rewrite !app_nil_r in H. rewrite H.
    split; [reflexivity | apply trimStep_no_stop].
  - intros Hp Hg. rewrite (trim_loop_prefix _ _ _ _ Hbefore). f_equal.
    cbn [renderLoop]. cbv zeta. unfold trim_renderFrame, playing in *.
    apply negb_true_iff in Hp. rewrite Hp, Hg. reflexivity.
  - intros Hp. rewrite (trim_loop_prefix _ _ _ _ Hbefore).
    cbn [renderLoop]. cbv zeta. unfold trim_renderFrame, playing in *.
    apply negb_false_iff in Hp. rewrite Hp. cbn [existsb app]. rewrite app_nil_r.
    split; [reflexivity | apply trimStep_no_stop].
Qed.

Lemma trim_loop_end_witness :
  stopsNow
    (renderLoop (trim_renderFrame (Fin 0) (Fin 10))
       [mkVideoState (Fin 9) (Fin 10) false false; mkVideoState (Fin 10) (Fin 10) true true])
  = false.
Proof.
  destruct (trim_loop_end (Fin 0) (Fin 10) [mkVideoState (Fin 9) (Fin 10) false false] []
              (mkVideoState (Fin 10) (Fin 10) true true)) as (_ & _ & H).
  - repeat constructor.
  - exact (proj2 (H eq_refl)).
Defined.

(** ** The WebVTT round trip *)

Lemma vttTimestamp_app (H M S K rest : list ascii) :
  vttTimestamp H M S K ++ rest
  = H ++ ":"%char :: M ++ ":"%char :: S ++ "."%char :: K ++ rest.
Proof.
  unfold vttTimestamp. rewrite <- app_assoc. cbn [app]. f_equal. f_equal.
  rewrite <- app_assoc. cbn [app]. f_equal. f_equal.
  rewrite <- app_assoc. reflexivity.
Qed.

Lemma timestampRe_match_vtt {R : Type} (H M S K rest : list ascii)
  (caps : list (list ascii)) (k : list ascii -> list (list ascii) -> option R) (r : R) :
  digits 2 H -> digits 2 M -> digits 2 S -> digits 3 K ->
  k rest caps = Some r ->
  rmatch timestampRe (vttTimestamp H M S K ++ rest) caps k = Some r.
Proof.
  intros (LH & DH) (LM & DM) (LS & DS) (LK & DK) Hk.
  rewrite vttTimestamp_app. unfold timestampRe. cbn [rmatch].
  apply repP_greedy; [exact DH | lia | left; exact LH |].
  cbv beta iota. rewrite Ascii.eqb_refl.
  apply repP_greedy; [exact DM | lia | left; exact LM |].
  cbv beta iota. rewrite Ascii.eqb_refl.
  apply repP_greedy; [exact DS | lia | left; exact LS |].
  cbv beta iota.
  replace (Ascii.eqb "." "," || Ascii.eqb "." ".")%char with true by reflexivity.
  rewrite (repP_greedy is_digit K 1 3 rest (fun s' => k s' caps) r); auto; lia.
Qed.

Lemma Grp_timestampRe_match_vtt {R : Type} (H M S K rest : list ascii)
  (caps : list (list ascii)) (k : list ascii -> list (list ascii) -> option R) (r : R) :
  digits 2 H -> digits 2 M -> digits 2 S -> digits 3 K ->
  k rest (caps ++ [vttTimestamp H M S K]) = Some r ->
  rmatch (Grp timestampRe) (vttTimestamp H M S K ++ rest) caps k = Some r.
Proof.
  intros HH HM HS HK Hk. cbn [rmatch].
  apply timestampRe_match_vtt; auto. now rewrite firstn_consumed.
Qed.

Lemma arrow_tail_match_vtt (H2 M2 S2 K2 : list ascii) (caps : list (list ascii)) :
  digits 2 H2 -> digits 2 M2 -> digits 2 S2 -> digits 3 K2 ->
  rmatch
    (Seq (Star is_space) (Seq (Chr "-") (Seq (Chr "-") (Seq (Chr ">")
    (Seq (Star is_space) (Grp timestampRe))))))
    (str " --> " ++ vttTimestamp H2 M2 S2 K2) caps
    (fun s' caps' => Some (s', caps'))
  = Some ([], caps ++ [vttTimestamp H2 M2 S2 K2]).
Proof.
  intros B1 B2 B3 B4. rewrite rmatch_Seq.
  change (str " --> " ++ vttTimestamp H2 M2 S2 K2)
    with ([" "%char] ++ "-"%char :: "-"%char :: ">"%char :: " "%char
          :: vttTimestamp H2 M2 S2 K2).
  apply rmatch_Star_greedy; [repeat constructor | reflexivity |].
  rewrite rmatch_Seq, rmatch_Chr_hit.
  rewrite rmatch_Seq, rmatch_Chr_hit.
  rewrite rmatch_Seq, rmatch_Chr_hit.
  rewrite rmatch_Seq.
  change (" "%char :: vttTimestamp H2 M2 S2 K2) with ([" "%char] ++ vttTimestamp H2 M2 S2 K2).
  apply rmatch_Star_greedy; [repeat constructor | |].
  - rewrite <- (app_nil_r (vttTimestamp H2 M2 S2 K2)), vttTimestamp_app.
    exact (digits_head_not_space 1 H2 _ B1).
  - rewrite <- (app_nil_r (vttTimestamp H2 M2 S2 K2)) at 1.
    exact (Grp_timestampRe_match_vtt H2 M2 S2 K2 [] caps _ _ B1 B2 B3 B4 eq_refl).
Qed.

Lemma timeLineRe_match_vtt (H1 M1 S1 K1 H2 M2 S2 K2 : list ascii) :
  digits 2 H1 -> digits 2 M1 -> digits 2 S1 -> digits 3 K1 ->
  digits 2 H2 -> digits 2 M2 -> digits 2 S2 -> digits 3 K2 ->
  regexMatch timeLineRe
    (vttTimestamp H1 M1 S1 K1 ++ str " --> " ++ vttTimestamp H2 M2 S2 K2)
  = Some [vttTimestamp H1 M1 S1 K1; vttTimestamp H2 M2 S2 K2].
Proof.
  intros A1 A2 A3 A4 B1 B2 B3 B4.
  assert (E : matchAt timeLineRe
                (vttTimestamp H1 M1 S1 K1 ++ str " --> " ++ vttTimestamp H2 M2 S2 K2)
              = Some ([], [vttTimestamp H1 M1 S1 K1; vttTimestamp H2 M2 S2 K2])).
  { unfold matchAt, timeLineRe. rewrite rmatch_Seq.
    apply (Grp_timestampRe_match_vtt H1 M1 S1 K1 _ [] _ _ A1 A2 A3 A4).
    exact (arrow_tail_match_vtt H2 M2 S2 K2 ([] ++ [vttTimestamp H1 M1 S1 K1])
             B1 B2 B3 B4). }
  generalize dependent
    (vttTimestamp H1 M1 S1 K1 ++ str " --> " ++ vttTimestamp H2 M2 S2 K2).
  intros s E. destruct s; cbn [regexMatch]; now rewrite E.
Qed.

Lemma secondsToTime_vtt (q : Q) :
  srtTime q ->
  exists H M S K : list ascii,
    secondsToTime (Fin q) (str ".") = vttTimestamp H M S K /\
    digits 2 H /\ digits 2 M /\ digits 2 S /\ digits 3 K.
Proof.
  intros Hq.
  destruct (secondsToTime_parts q Hq) as (H & M & S & K & Hparts & DH & DM & DS & DK).
  exists H, M, S, K. split; [| auto]. rewrite Hparts. unfold vttTimestamp.
  rewrite <- app_assoc. cbn [app]. do 2 f_equal. rewrite <- app_assoc. reflexivity.
Qed.

Lemma digit_vttTimeChar (c : ascii) : is_digit c = true -> vttTimeChar c = true.
Proof. intros H. unfold vttTimeChar. now rewrite H. Qed.

Lemma vttTimestamp_chars (H M S K : list ascii) :
  digits 2 H -> digits 2 M -> digits 2 S -> digits 3 K ->
  Forall (fun c => vttTimeChar c = true) (vttTimestamp H M S K).
Proof.
  intros (_ & DH) (_ & DM) (_ & DS) (_ & DK). unfold vttTimestamp.
  repeat first [apply Forall_app; split | apply Forall_cons; split; [reflexivity |]];
    (eapply Forall_impl; [eassumption | exact digit_vttTimeChar]).
Qed.

Section GeneratedVttBlock.

Variables (sub : Subtitle) (a b : Q).
Hypothesis start_a : startTime sub = Fin a.
Hypothesis end_b : endTime sub = Fin b.
Hypothesis time_a : srtTime a.
Hypothesis time_b : srtTime b.
Hypothesis text_ok : srtText (text sub).

Let T1 : list ascii := secondsToTime (Fin a) (str ".").
Let T2 : list ascii := secondsToTime (Fin b) (str ".").

Lemma vtt_shape : vttBlock sub = timeLine T1 T2 ++ LF :: text sub.
Proof.
  unfold vttBlock, timeLine. rewrite start_a, end_b. fold T1 T2.
  rewrite <- !app_assoc. reflexivity.
Qed.

Lemma vtt_text_nonempty : text sub <> [].
Proof.
  destruct text_ok as (_ & _ & Hlines). intros E. rewrite E in Hlines.
  cbn in Hlines. inversion Hlines as [| ? ? H _]; subst. discriminate H.
Qed.

Lemma vtt_timeLine_chars : Forall (fun c => vttTimeChar c = true) (timeLine T1 T2).
Proof.
  destruct (secondsToTime_vtt a time_a) as (H1 & M1 & S1 & K1 & E1 & D1 & D2 & D3 & D4).
  destruct (secondsToTime_vtt b time_b) as (H2 & M2 & S2 & K2 & E2 & D5 & D6 & D7 & D8).
  unfold timeLine, T1, T2. rewrite E1, E2.
  apply Forall_app; split; [now apply vttTimestamp_chars |].
  apply Forall_app; split; [repeat constructor | now apply vttTimestamp_chars].
Qed.

Lemma vtt_lines :
  splitChar LF (vttBlock sub) = timeLine T1 T2 :: splitChar LF (text sub).
Proof.
  rewrite vtt_shape.
  rewrite splitChar_app
    by (eapply class_exclude; [exact vtt_timeLine_chars | reflexivity]).
  reflexivity.
Qed.

Lemma vtt_no_CR : Forall (fun c => c <> CR) (vttBlock sub).
Proof.
  rewrite vtt_shape. apply Forall_app; split.
  - eapply class_exclude; [exact vtt_timeLine_chars | reflexivity].
  - apply Forall_cons; split; [discriminate | exact (proj1 text_ok)].
Qed.

Lemma vtt_head : exists d t, timeLine T1 T2 = d :: t /\ is_digit d = true.
Proof.
  destruct (secondsToTime_vtt a time_a)
    as (H1 & M1 & S1 & K1 & E1 & (L1 & D1) & _).
  unfold timeLine, T1. rewrite E1. unfold vttTimestamp.
  destruct H1 as [| d H1]; [discriminate |]. inversion D1; subst.
  eexists d, _. split; [reflexivity | assumption].
Qed.

Lemma vtt_trimmed : trim (vttBlock sub) = vttBlock sub.
Proof.
  rewrite vtt_shape.
  destruct vtt_head as (d & t & -> & Hd).
  destruct (trimmed_ends (text sub) (proj1 (proj2 text_ok)) vtt_text_nonempty)
    as (_ & (u & z & -> & Hz)).
  replace ((d :: t) ++ LF :: u ++ [z]) with (d :: (t ++ LF :: u) ++ [z]).
  - apply trim_ink_both_ends; [now apply digit_not_space | exact Hz].
  - cbn [app]. f_equal. rewrite <- app_assoc. reflexivity.
Qed.

Lemma vtt_solid : solid (vttBlock sub).
Proof.
  apply lines_ink_solid. rewrite vtt_lines.
  constructor; [| exact (proj2 (proj2 text_ok))].
  destruct vtt_head as (d & t & -> & Hd). cbn [hasInk existsb].
  now rewrite digit_not_space.
Qed.

Lemma vtt_timeLine_match : regexMatch timeLineRe (timeLine T1 T2) = Some [T1; T2].
Proof.
  destruct (secondsToTime_vtt a time_a) as (H1 & M1 & S1 & K1 & E1 & D1 & D2 & D3 & D4).
  destruct (secondsToTime_vtt b time_b) as (H2 & M2 & S2 & K2 & E2 & D5 & D6 & D7 & D8).
  unfold timeLine, T1, T2. rewrite E1, E2. now apply timeLineRe_match_vtt.
Qed.

(** Parsing one generated block appends the cue, numbered by its place,
    with its times rounded to milliseconds. *)
Lemma parseBlock_vttBlock (subtitles : list Subtitle) :
  parseBlock subtitles (vttBlock sub)
  = subtitles ++
    [mkSubtitle (Z.of_nat (length subtitles) + 1) (Fin (roundToMs a)) (Fin (roundToMs b))
       (text sub)].
Proof.
  unfold parseBlock. rewrite vtt_trimmed, vtt_lines.
  assert (Htl : includesStr (str "-->") (timeLine T1 T2) = true).
  { unfold timeLine. apply includesStr_app.
    change (str " --> " ++ T2) with (" "%char :: str "-->" ++ " "%char :: T2).
    apply (includesStr_app _ [" "%char]). apply includesStr_here. }
  cbn [findTimeLine]. rewrite Htl. cbn [nth].
  rewrite vtt_timeLine_match.
  unfold T1, T2. rewrite !timeToSeconds_secondsToTime_dot by assumption.
  cbn [Nat.add skipn].
  change (skipn 0 (splitChar LF (text sub))) with (splitChar LF (text sub)).
  rewrite join_splitChar, (proj1 (proj2 text_ok)).
  generalize vtt_text_nonempty. generalize (text sub). intros l Hne.
  destruct l; [contradiction | reflexivity].
Qed.

End GeneratedVttBlock.

Lemma parse_vtt_blocks (cues : list Subtitle) :
  Forall srtCue cues ->
  forall subtitles : list Subtitle,
    fold_left parseBlock (map vttBlock cues) subtitles
    = subtitles ++ mapi reparsed (length subtitles) cues.
Proof.
  induction 1 as [| sub cues ((a & Ha & Ta) & (b & Hb & Tb) & Htext) _ IH]; intros subtitles.
  - cbn. now rewrite app_nil_r.
  - cbn [map mapi fold_left].
    rewrite (parseBlock_vttBlock sub a b Ha Hb Ta Tb Htext subtitles).
    rewrite (reparsed_srtCue _ sub a b Ha Hb).
    specialize (IH (subtitles ++
      [mkSubtitle (Z.of_nat (length subtitles) + 1) (Fin (roundToMs a)) (Fin (roundToMs b))
         (text sub)])).
    rewrite length_app in IH. cbn [length] in IH.
    replace (length subtitles + 1)%nat with (S (length subtitles)) in IH by lia.
    rewrite IH, <- app_assoc. reflexivity.
Qed.

Lemma vtt_blocks_solid (cues : list Subtitle) :
  Forall srtCue cues ->
  Forall solid (map vttBlock cues) /\
  Forall (Forall (fun c => c <> CR)) (map vttBlock cues).
Proof.
  induction 1 as [| sub cues ((a & Ha & Ta) & (b & Hb & Tb) & Htext) _ (IH1 & IH2)].
  - split; constructor.
  - cbn [map]. split; constructor; auto.
    + exact (vtt_solid sub a b Ha Hb Ta Tb Htext).
    + exact (vtt_no_CR sub a b Ha Hb Ta Tb Htext).
Qed.

Lemma header_solid : solid (str "WEBVTT").
Proof. apply lines_ink_solid. repeat constructor. Qed.

Lemma parseSRT_generateVTT (cues : list Subtitle) :
  Forall srtCue cues -> parseSRT (generateVTT cues) = mapi reparsed 0 cues.
Proof.
  intros Hcues. destruct cues as [| sub cues]; [reflexivity |].
  unfold parseSRT, generateVTT. cbv zeta.
  destruct (vtt_blocks_solid (sub :: cues) Hcues) as (Hsolid & Hcr).
  assert (E : (str "WEBVTT" ++ [LF; LF]) ++ join [LF; LF] (map vttBlock (sub :: cues))
              = join [LF; LF] (str "WEBVTT" :: map vttBlock (sub :: cues))).
  { cbn [map]. rewrite join_cons2. now rewrite <- app_assoc. }
  rewrite E.
  assert (Hno : Forall (fun c => c <> CR)
                  (join [LF; LF] (str "WEBVTT" :: map vttBlock (sub :: cues)))).
  { apply Forall_join; [repeat constructor; discriminate |].
    constructor; [repeat constructor; discriminate | exact Hcr]. }
  rewrite replaceCRLF_absent, replaceCR_absent by assumption.
  rewrite splitRegex_join;
    [| discriminate | constructor; [exact header_solid | exact Hsolid]].
  cbn [fold_left].
  change (parseBlock [] (str "WEBVTT")) with (@nil Subtitle).
  exact (parse_vtt_blocks (sub :: cues) Hcues []).
Qed.

Lemma trim_ink_ends (s t t' : list ascii) (c z : ascii) :
  s = c :: t -> s = t' ++ [z] -> is_space c = false -> is_space z = false ->
  trim s = s.
Proof.
  intros E1 E2 Hc Hz. unfold trim, trimEnd.
  rewrite E1 at 1. rewrite trimStart_ink by exact Hc. rewrite <- E1.
  rewrite E2 at 1. rewrite rev_app_distr. cbn [rev app].
  rewrite trimStart_ink by exact Hz.
  change (z :: rev t') with (rev [z] ++ rev t'). rewrite <- rev_app_distr, <- E2.
  apply rev_involutive.
Qed.

Lemma join_last (sep : list ascii) (blocks : list (list ascii)) (b : list ascii) :
  Forall (fun x => exists t z, x = t ++ [z] /\ is_space z = false) (b :: blocks) ->
  exists t z, join sep (b :: blocks) = t ++ [z] /\ is_space z = false.
Proof.
  revert b. induction blocks as [| b2 blocks IH]; intros b Hall.
  - inversion Hall; subst. assumption.
  - inversion Hall as [| ? ? _ Hrest]; subst.
    destruct (IH b2 Hrest) as (t & z & E & Hz).
    rewrite join_cons2, E. exists (b ++ sep ++ t), z.
    split; [now rewrite <- !app_assoc | exact Hz].
Qed.

Lemma vtt_body_trimmed (sub : Subtitle) (cues : list Subtitle) :
  Forall srtCue (sub :: cues) ->
  exists (d : ascii) (t : list ascii),
    join [LF; LF] (map vttBlock (sub :: cues)) = d :: t /\
    is_space d = false /\
    trim (join [LF; LF] (map vttBlock (sub :: cues)))
    = join [LF; LF] (map vttBlock (sub :: cues)).
Proof.
  intros Hcues.
  assert (Hends : Forall (fun x => (exists d t, x = d :: t /\ is_space d = false) /\
                                   (exists t z, x = t ++ [z] /\ is_space z = false))
                    (map vttBlock (sub :: cues))).
  { apply List.Forall_forall. intros x Hx.
    apply List.in_map_iff in Hx as (cue & <- & Hin).
    rewrite List.Forall_forall in Hcues.
    destruct (Hcues cue Hin) as ((a & Ha & Ta) & (b & Hb & Tb) & Htext).
    apply trimmed_ends.
    - exact (vtt_trimmed cue a b Ha Hb Ta Htext).
    - rewrite (vtt_shape cue a b Ha Hb).
      destruct (vtt_head a b Ta) as (d & t & -> & _). discriminate. }
  cbn [map] in *.
  assert (Hfirst : exists d t, join [LF; LF] (vttBlock sub :: map vttBlock cues) = d :: t
                               /\ is_space d = false).
  { inversion Hends as [| ? ? ((d & t & E & Hd) & _) _]; subst.
    destruct (map vttBlock cues) as [| b2 rest].
    - cbn [join]. eauto.
    - rewrite join_cons2, E. cbn [app]. eauto. }
  destruct Hfirst as (d & t & E & Hd).
  destruct (join_last [LF; LF] (map vttBlock cues) (vttBlock sub)) as (t' & z & E' & Hz).
  { eapply Forall_impl; [exact Hends |]. cbn. intros x (_ & H). exact H. }
  exists d, t. split; [exact E |]. split; [exact Hd |].
  exact (trim_ink_ends _ t t' d z E E' Hd Hz).
Qed.

Lemma stripVttHeader_generateVTT (sub : Subtitle) (cues : list Subtitle) :
  Forall srtCue (sub :: cues) ->
  stripVttHeader (generateVTT (sub :: cues)) = join [LF; LF] (map vttBlock (sub :: cues)).
Proof.
  intros Hcues. destruct (vtt_body_trimmed sub cues Hcues) as (d & t & E & Hd & Htrim).
  unfold stripVttHeader, generateVTT. cbv zeta.
  set (body := join [LF; LF] (map vttBlock (sub :: cues))) in *.
  assert (Hm : matchAt vttHeaderRe ((str "WEBVTT" ++ [LF; LF]) ++ body) = Some (body, [])).
  { unfold matchAt, vttHeaderRe.
    change ((str "WEBVTT" ++ [LF; LF]) ++ body)
      with ("W"%char :: "E"%char :: "B"%char :: "V"%char :: "T"%char :: "T"%char
            :: LF :: [LF] ++ body).
    do 6 rewrite rmatch_Seq, rmatch_Chr_hit.
    rewrite rmatch_Seq. cbn [rmatch]. rewrite is_space_LF.
    apply (starP_greedy is_space [LF] body); [repeat constructor | | reflexivity].
    rewrite E. exact Hd. }
  rewrite Hm. exact Htrim.
Qed.

Lemma reparsed_reread_dot (cues : list Subtitle) :
  Forall srtCue cues ->
  forall k : nat, mapi reparsed k cues = mapi (reread (str ".")) k cues.
Proof.
  induction 1 as [| sub cues ((a & Ha & Ta) & (b & Hb & Tb) & _) _ IH]; intros k;
    [reflexivity |].
  cbn [mapi]. rewrite (IH (S k)). f_equal.
  unfold reparsed, reread. rewrite Ha, Hb. cbn [roundTime].
  now rewrite !timeToSeconds_secondsToTime_dot.
Qed.



(** ** Pauses in the render loops *)

Lemma burn_requests_next (subtitles : list Subtitle) (video : VideoState) :
  v_ended video = false ->
  existsb isRequestFrame (burn_renderFrame subtitles video) = true.
Proof.
  intros He. unfold burn_renderFrame. rewrite He.
  rewrite existsb_app. cbn. apply orb_true_r.
Qed.

Lemma convert_playing (hasCanvas : bool) (video : VideoState) :
  playing video = true ->
  existsb isRequestFrame (convert_renderFrame hasCanvas video) = true.
Proof.
  unfold playing, convert_renderFrame. intros Hp. apply negb_true_iff in Hp. rewrite Hp.
  rewrite !existsb_app. cbn. now rewrite !orb_true_r.
Qed.

Lemma convert_loop_prefix (hasCanvas : bool) (before rest : list VideoState) :
  Forall (fun v => playing v = true) before ->
  renderLoop (convert_renderFrame hasCanvas) (before ++ rest)
  = flat_map (convert_renderFrame hasCanvas) before
    ++ renderLoop (convert_renderFrame hasCanvas) rest.
Proof.
  induction 1 as [| v before Hp _ IH]; [reflexivity |].
  cbn [app renderLoop flat_map]. cbv zeta.
  rewrite (convert_playing hasCanvas v Hp), IH. now rewrite app_assoc.
Qed.

(** X19: A pause of the source is survived by the burn-in loop only.  While the
    source has not ended, the burn-in loop handles every delivered frame,
    paused or not, and asks for the next one; it ends at the first ended
    frame.  The convert loop ends for good at the first frame at which
    the source is paused or has ended: nothing is drawn and no progress
    is reported for any later frame, even if the source plays again. *)
Theorem pause_in_render_loops (subtitles : list Subtitle) (hasCanvas : bool)
  (before after : list VideoState) (video : VideoState) :
  (Forall (fun v => v_ended v = false) before ->
   renderLoop (burn_renderFrame subtitles) before
   = flat_map (burn_renderFrame subtitles) before /\
   (v_ended video = true ->
    renderLoop (burn_renderFrame subtitles) (before ++ video :: after)
    = flat_map (burn_renderFrame subtitles) before)) /\
  (Forall (fun v => playing v = true) before ->
   playing video = false ->
   renderLoop (convert_renderFrame hasCanvas) (before ++ video :: after)
   = flat_map (convert_renderFrame hasCanvas) before).
Proof.
  split.
  - intros Hbefore.
    assert (H : forall rest,
               renderLoop (burn_renderFrame subtitles) (before ++ rest)
               = flat_map (burn_renderFrame subtitles) before
                 ++ renderLoop (burn_renderFrame subtitles) rest).
    { intros rest. induction Hbefore as [| v before He _ IH]; [reflexivity |].
      cbn [app renderLoop flat_map]. cbv zeta.
      rewrite (burn_requests_next subtitles v He), IH. now rewrite app_assoc. }
    split.
    + specialize (H []). cbn [renderLoop] in H. now rewrite !app_nil_r in H.
    + intros He. rewrite H. cbn [renderLoop]. cbv zeta.
      assert (E : burn_renderFrame subtitles video = [])
        by (unfold burn_renderFrame; now rewrite He).
      rewrite E. cbn. apply app_nil_r.
  - intros Hbefore Hp. rewrite (convert_loop_prefix hasCanvas before _ Hbefore).
    cbn [renderLoop]. cbv zeta.
    assert (E : convert_renderFrame hasCanvas video = []).
    { unfold convert_renderFrame. unfold playing in Hp.
      apply negb_false_iff in Hp. now rewrite Hp. }
    rewrite E. cbn. apply app_nil_r.
Qed.

Lemma pause_in_render_loops_witness :
  renderLoop (convert_renderFrame true)
    [ mkVideoState (Fin 1) (Fin 10) false false;
      mkVideoState (Fin 2) (Fin 10) true false;
      mkVideoState (Fin 3) (Fin 10) false false ]
  = [DrawImage; OnProgress (Fin 10); RequestFrame].
Proof.
  destruct (pause_in_render_loops [] true [mkVideoState (Fin 1) (Fin 10) false false]
              [mkVideoState (Fin 3) (Fin 10) false false]
              (mkVideoState (Fin 2) (Fin 10) true false)) as (_ & H).
  exact (eq_trans (H ltac:(repeat constructor) eq_refl) eq_refl).
Defined.

(** ** Colours *)

Lemma is_hex_value (c : ascii) :
  is_hex c = true -> digitValue 16 c = Some (hexDigit c) /\ 0 <= hexDigit c < 16.
Proof.
  destruct c as [[] [] [] [] [] [] [] []]; intros H; try discriminate H;
    vm_compute; repeat split; congruence.
Qed.

Lemma is_hex_not_hash (c : ascii) : is_hex c = true -> Ascii.eqb c "#" = false.
Proof.
  intros H. destruct (Ascii.eqb c "#") eqn:E; [| reflexivity].
  apply Ascii.eqb_eq in E. subst c. discriminate H.
Qed.

Lemma grp1_step {R : Type} (s : list ascii) (caps : list (list ascii))
  (k : list ascii -> list (list ascii) -> option R) :
  rmatch (Grp (Cls is_hex)) s caps k
  = match s with
    | a :: s' => if is_hex a then k s' (caps ++ [[a]]) else None
    | [] => None
    end.
Proof.
  destruct s as [| a s']; [reflexivity |]. cbn [rmatch].
  destruct (is_hex a); [| reflexivity].
  assert (E : firstn (length (a :: s') - length s') (a :: s') = [a])
    by exact (firstn_consumed [a] s').
  now rewrite E.
Qed.

Lemma grp2_step {R : Type} (s : list ascii) (caps : list (list ascii))
  (k : list ascii -> list (list ascii) -> option R) :
  rmatch (Grp (Rep is_hex 2 2)) s caps k
  = match s with
    | a :: b :: s' => if is_hex a && is_hex b then k s' (caps ++ [[a; b]]) else None
    | _ => None
    end.
Proof.
  destruct s as [| a [| b s']]; cbn [rmatch repP pred].
  - reflexivity.
  - now destruct (is_hex a).
  - destruct (is_hex a); [| reflexivity]. destruct (is_hex b); [| reflexivity].
    cbn [andb].
    assert (E : firstn (length (a :: b :: s') - length s') (a :: b :: s') = [a; b])
      by exact (firstn_consumed [a; b] s').
    rewrite E. now destruct (k s' (caps ++ [[a; b]])).
Qed.

Lemma opt_hash_step {R : Type} (r : regex) (s : list ascii)
  (k : list ascii -> list (list ascii) -> option R) :
  (forall t, rmatch r ("#"%char :: t) [] k = None) ->
  rmatch (Seq (Opt (Chr "#")) r) s [] k
  = rmatch r (match s with "#"%char :: t => t | _ => s end) [] k.
Proof.
  intros Hhash. rewrite rmatch_Seq. cbn [rmatch].
  destruct s as [| c t]; [reflexivity |].
  destruct (Ascii.eqb c "#") eqn:E.
  - apply Ascii.eqb_eq in E. subst c.
    rewrite (Hhash t). now destruct (rmatch r t [] k).
  - assert (Hs : match c with
                 | "#"%char => t
                 | _ => c :: t
                 end = c :: t).
    { destruct c as [[] [] [] [] [] [] [] []]; try reflexivity. discriminate E. }
    now rewrite Hs.
Qed.

Lemma execWhole_colour (s : list ascii) :
  execWhole colourRegex s
  = match (match s with "#"%char :: t => t | _ => s end) with
    | [r1; r2; g1; g2; b1; b2] =>
        if is_hex r1 && is_hex r2 && is_hex g1 && is_hex g2 && is_hex b1 && is_hex b2
        then Some [[r1; r2]; [g1; g2]; [b1; b2]]
        else None
    | _ => None
    end.
Proof.
  unfold execWhole, colourRegex.
  rewrite opt_hash_step by (intros t; rewrite rmatch_Seq, grp2_step; now destruct t).
  generalize (match s with "#"%char :: t => t | _ => s end). clear s. intros s.
  rewrite rmatch_Seq, grp2_step.
  destruct s as [| r1 [| r2 s]]; try reflexivity.
  destruct (is_hex r1); [| destruct s as [| ? [| ? [| ? [| ? [| ? ?]]]]]; reflexivity].
  destruct (is_hex r2); [| destruct s as [| ? [| ? [| ? [| ? [| ? ?]]]]]; reflexivity].
  cbn [andb]. rewrite rmatch_Seq, grp2_step.
  destruct s as [| g1 [| g2 s]]; try reflexivity.
  destruct (is_hex g1); [| destruct s as [| ? [| ? [| ? ?]]]; reflexivity].
  destruct (is_hex g2); [| destruct s as [| ? [| ? [| ? ?]]]; reflexivity].
  cbn [andb]. rewrite grp2_step.
  destruct s as [| b1 [| b2 s]]; try reflexivity.
  destruct (is_hex b1); [| destruct s; reflexivity].
  destruct (is_hex b2); [| destruct s; reflexivity].
  cbn [andb app]. now destruct s.
Qed.

Lemma execWhole_shorthand (s : list ascii) :
  execWhole shorthandRegex s
  = match (match s with "#"%char :: t => t | _ => s end) with
    | [r; g; b] =>
        if is_hex r && is_hex g && is_hex b then Some [[r]; [g]; [b]] else None
    | _ => None
    end.
Proof.
  unfold execWhole, shorthandRegex.
  rewrite opt_hash_step by (intros t; rewrite rmatch_Seq, grp1_step; reflexivity).
  generalize (match s with "#"%char :: t => t | _ => s end). clear s. intros s.
  rewrite rmatch_Seq, grp1_step.
  destruct s as [| r s]; try reflexivity.
  destruct (is_hex r); [| destruct s as [| ? [| ? [| ? ?]]]; reflexivity].
  cbn [andb]. rewrite rmatch_Seq, grp1_step.
  destruct s as [| g s]; try reflexivity.
  destruct (is_hex g); [| destruct s as [| ? [| ? ?]]; reflexivity].
  cbn [andb]. rewrite grp1_step.
  destruct s as [| b s]; try reflexivity.
  destruct (is_hex b); [| destruct s; reflexivity].
  cbn [andb app]. now destruct s.
Qed.

Lemma parseInt16_pair (a b : ascii) :
  is_hex a = true -> is_hex b = true ->
  numberToString (parseInt16 [a; b]) = natToString (Z.to_nat (16 * hexDigit a + hexDigit b)) /\
  0 <= 16 * hexDigit a + hexDigit b <= 255.
Proof.
  intros Ha Hb. destruct (is_hex_value a Ha) as (Va & Ba).
  destruct (is_hex_value b Hb) as (Vb & Bb).
  split; [| lia].
  unfold parseInt16. cbn [hexPrefix]. rewrite Ha, Hb. cbn [digitsValue].
  rewrite Va. cbn [Z.mul Z.add]. rewrite Vb.
  unfold numberToString, ofZ. rewrite Qfloor_Z.
  replace (16 * 0 + hexDigit a) with (hexDigit a) by lia.
  now rewrite (proj2 (Z.ltb_ge _ _)) by lia.
Qed.

Lemma strip_not_hash (c : ascii) (t : list ascii) :
  is_hex c = true ->
  match c :: t with "#"%char :: t' => t' | _ => c :: t end = c :: t.
Proof.
  intros H. destruct c as [[] [] [] [] [] [] [] []]; try reflexivity. discriminate H.
Qed.

Lemma colour_of_six (r1 r2 g1 g2 b1 b2 : ascii) (alpha : list ascii) :
  is_hex r1 = true -> is_hex r2 = true -> is_hex g1 = true -> is_hex g2 = true ->
  is_hex b1 = true -> is_hex b2 = true ->
  str "rgba(" ++ numberToString (parseInt16 [r1; r2]) ++ str ", "
  ++ numberToString (parseInt16 [g1; g2]) ++ str ", "
  ++ numberToString (parseInt16 [b1; b2]) ++ str ", " ++ alpha ++ str ")"
  = rgbaText (16 * hexDigit r1 + hexDigit r2) (16 * hexDigit g1 + hexDigit g2)
      (16 * hexDigit b1 + hexDigit b2) alpha.
Proof.
  intros R1 R2 G1 G2 B1 B2. unfold rgbaText.
  rewrite (proj1 (parseInt16_pair r1 r2 R1 R2)), (proj1 (parseInt16_pair g1 g2 G1 G2)),
    (proj1 (parseInt16_pair b1 b2 B1 B2)).
  reflexivity.
Qed.

(** X20: [hexToRgba] decodes a colour as [hexColour] describes it: after an
    optional [#], six hexadecimal digits of either case give the three
    bytes, three digits give the bytes with each digit doubled, and every
    other string (a colour name, an [rgba(...)] string, a wrong length)
    gives black at the given opacity.  Each component is between 0 and
    255. *)
Theorem hexToRgba_decodes (hex alpha : list ascii) :
  hexToRgba hex alpha
  = match hexColour hex with
    | Some (r, g, b) => rgbaText r g b alpha
    | None => str "rgba(0,0,0," ++ alpha ++ str ")"
    end /\
  match hexColour hex with
  | Some (r, g, b) => 0 <= r <= 255 /\ 0 <= g <= 255 /\ 0 <= b <= 255
  | None => True
  end.
Proof.
  unfold hexToRgba, hexColour. cbv zeta.
  rewrite execWhole_shorthand.
  destruct (match hex with "#"%char :: t => t | _ => hex end)
    as [| c1 [| c2 [| c3 [| c4 [| c5 [| c6 [| c7 body]]]]]]] eqn:Ebody;
    try (cbv beta iota; rewrite execWhole_colour, Ebody; split; [reflexivity | exact I]).
  - destruct (is_hex c1) eqn:H1;
      [| cbn [andb]; cbv beta iota; rewrite execWhole_colour, Ebody; split; [reflexivity | exact I]].
    destruct (is_hex c2) eqn:H2;
      [| cbn [andb]; cbv beta iota; rewrite execWhole_colour, Ebody; split; [reflexivity | exact I]].
    destruct (is_hex c3) eqn:H3;
      [| cbn [andb]; cbv beta iota; rewrite execWhole_colour, Ebody; split; [reflexivity | exact I]].
    cbn [andb app]. cbv beta iota. cbn [app].
    rewrite execWhole_colour, (strip_not_hash c1 _ H1).
    rewrite H1, H2, H3. cbn [andb].
    rewrite (colour_of_six c1 c1 c2 c2 c3 c3 alpha) by assumption.
    replace (16 * hexDigit c1 + hexDigit c1) with (17 * hexDigit c1) by lia.
    replace (16 * hexDigit c2 + hexDigit c2) with (17 * hexDigit c2) by lia.
    replace (16 * hexDigit c3 + hexDigit c3) with (17 * hexDigit c3) by lia.
    split; [reflexivity |].
    pose proof (proj2 (is_hex_value c1 H1)). pose proof (proj2 (is_hex_value c2 H2)).
    pose proof (proj2 (is_hex_value c3 H3)). lia.
  - cbv beta iota. rewrite execWhole_colour, Ebody.
    destruct (is_hex c1) eqn:H1; [| split; [reflexivity | exact I]].
    destruct (is_hex c2) eqn:H2; [| split; [reflexivity | exact I]].
    destruct (is_hex c3) eqn:H3; [| split; [reflexivity | exact I]].
    destruct (is_hex c4) eqn:H4; [| split; [reflexivity | exact I]].
    destruct (is_hex c5) eqn:H5; [| split; [reflexivity | exact I]].
    destruct (is_hex c6) eqn:H6; [| split; [reflexivity | exact I]].
    cbn [andb]. rewrite (colour_of_six c1 c2 c3 c4 c5 c6 alpha) by assumption.
    split; [reflexivity |].
    pose proof (proj2 (is_hex_value c1 H1)). pose proof (proj2 (is_hex_value c2 H2)).
    pose proof (proj2 (is_hex_value c3 H3)). pose proof (proj2 (is_hex_value c4 H4)).
    pose proof (proj2 (is_hex_value c5 H5)). pose proof (proj2 (is_hex_value c6 H6)).
    lia.
Qed.

(** ** The PDF export *)

Section PdfFacts.

Variable splitTextToSize : list ascii -> jsnum -> list (list ascii).

Lemma pdfCue_step (h q : Q) (ops : list pdfOp) (cue : Subtitle) :
  (10 <= q)%Q ->
  exists (place : bool * Q) (q' : Q),
    pdfCue splitTextToSize (Fin h) (Fin q, ops) cue
    = (Fin q', ops ++ placedCue splitTextToSize cue place) /\
    placeOk h place /\ (10 <= q')%Q.
Proof.
  intros Hq. unfold pdfCue. cbv zeta.
  set (n := length (splitTextToSize (text cue) (Fin 180))).
  assert (Hnext : forall y : Q, (10 <= y)%Q ->
            exists q' : Q,
              add (add (Fin y) (Fin 6)) (add (mul (ofNat n) (Fin 6)) (Fin 4)) = Fin q' /\
              (10 <= q')%Q).
  { intros y Hy. unfold ofNat, ofZ. cbn [add mul]. eexists. split; [reflexivity |].
    rewrite !Qred_correct.
    assert (H0 : (0 <= inject_Z (Z.of_nat n))%Q)
      by (change 0%Q with (inject_Z 0); rewrite <- Zle_Qle; lia).
    nra. }
  cbn [mul add JS.sub neg]. unfold gt.
  destruct (lt (Fin (Qred (h + Qred (- (10))))) (Fin (Qred (q + Qred (10 * 2))))) eqn:E.
  - destruct (Hnext 10%Q ltac:(lra)) as (q' & Eq & Hq').
    exists (true, 10%Q), q'. split; [| split; [| exact Hq']].
    + unfold placedCue. cbn [fst snd]. rewrite <- !app_assoc. cbn [app].
      fold n. now rewrite Eq.
    + split; cbn [fst snd]; [lra | reflexivity].
  - apply lt_Fin_false in E. rewrite !Qred_correct in E.
    destruct (Hnext q Hq) as (q' & Eq & Hq').
    exists (false, q), q'. split; [| split; [| exact Hq']].
    + unfold placedCue. cbn [fst snd app]. rewrite <- !app_assoc. cbn [app].
      fold n. now rewrite Eq.
    + split; cbn [fst snd]; [exact Hq | lra].
Qed.

Lemma pdf_fold (h : Q) (subtitles : list Subtitle) :
  forall (q : Q) (ops : list pdfOp),
    (10 <= q)%Q ->
    exists places : list (bool * Q),
      length places = length subtitles /\
      snd (fold_left (pdfCue splitTextToSize (Fin h)) subtitles (Fin q, ops))
      = ops ++ concat (zip_with (placedCue splitTextToSize) subtitles places) /\
      Forall (placeOk h) places.
Proof.
  induction subtitles as [| cue subtitles IH]; intros q ops Hq.
  - exists []. cbn. rewrite app_nil_r. repeat split. constructor.
  - cbn [fold_left].
    destruct (pdfCue_step h q ops cue Hq) as (place & q' & -> & Hp & Hq').
    destruct (IH q' (ops ++ placedCue splitTextToSize cue place) Hq')
      as (places & Hlen & -> & Hall).
    exists (place :: places). cbn [length zip_with concat].
    split; [now rewrite Hlen |]. split; [now rewrite <- app_assoc |].
    now constructor.
Qed.

(** X21: The PDF export places the cues one after the other: for each cue, an
    optional page break, the time line at the left margin and the text six
    units below it.  A cue that follows a page break starts at height 10;
    any other cue starts only where 20 units below it are still 10 units
    above the bottom of the page.  The page is never broken inside a cue,
    however many lines its text has. *)
Theorem pdfOps_layout (h : Q) (subtitles : list Subtitle) :
  exists places : list (bool * Q),
    length places = length subtitles /\
    pdfOps splitTextToSize (Fin h) subtitles
    = concat (zip_with (placedCue splitTextToSize) subtitles places) /\
    Forall (placeOk h) places.
Proof.
  unfold pdfOps.
  destruct (pdf_fold h subtitles 10 [] ltac:(lra)) as (places & Hlen & E & Hall).
  exists places. split; [exact Hlen |]. split; [exact E | exact Hall].
Qed.

End PdfFacts.

(** ** Cleaning a reply *)

Lemma removeGo_absent (p : list ascii) (q : ascii) (s : list ascii) :
  Forall (fun c => c <> q) s -> removeGo (q :: p) 0 s = s.
Proof.
  induction 1 as [| c s Hc _ IH]; [reflexivity |]. cbn [removeGo startsWith].
  assert (E : Ascii.eqb q c = false) by (apply Ascii.eqb_neq; congruence).
  rewrite E. cbn [andb]. now rewrite IH.
Qed.

Lemma removeGo_skip (p pre rest : list ascii) :
  removeGo p (length pre) (pre ++ rest) = removeGo p 0 rest.
Proof.
  induction pre as [| c pre IH]; [reflexivity |]. cbn [length app removeGo]. exact IH.
Qed.

Lemma removeGo_copy (p : list ascii) (q : ascii) (body rest : list ascii) :
  Forall (fun c => c <> q) body ->
  removeGo (q :: p) 0 (body ++ rest) = body ++ removeGo (q :: p) 0 rest.
Proof.
  induction 1 as [| c s Hc _ IH]; [reflexivity |]. cbn [app removeGo startsWith].
  assert (E : Ascii.eqb q c = false) by (apply Ascii.eqb_neq; congruence).
  rewrite E. cbn [andb]. now rewrite IH.
Qed.

Lemma startsWith_fence_false (p body t : list ascii) :
  Forall (fun c => c <> "`"%char) p ->
  startsWith p body = false ->
  startsWith p (body ++ "`"%char :: t) = false.
Proof.
  intros Hp. revert body. induction Hp as [| x p Hx _ IH]; intros body H; [discriminate |].
  destruct body as [| c body]; cbn [app startsWith] in *.
  - assert (E : Ascii.eqb x "`" = false) by (apply Ascii.eqb_neq; congruence).
    now rewrite E.
  - destruct (Ascii.eqb x c); [| reflexivity]. cbn [andb] in *. now apply IH.
Qed.

Lemma removeGo_keep (p : list ascii) (x : ascii) (s : list ascii) :
  startsWith p (x :: s) = false -> removeGo p 0 (x :: s) = x :: removeGo p 0 s.
Proof. intros H. cbn [removeGo]. now rewrite H. Qed.

Lemma removeGo_hit (p : list ascii) (x : ascii) (s : list ascii) :
  startsWith p (x :: s) = true -> removeGo p 0 (x :: s) = removeGo p (length p - 1) s.
Proof. intros H. cbn [removeGo]. now rewrite H. Qed.

Lemma first_pass_plain_fence (body : list ascii) :
  Forall (fun c => c <> "`"%char) body ->
  startsWith (str "json") body = false ->
  removeGo (str "```json") 0 (str "```" ++ body ++ str "```")
  = str "```" ++ body ++ str "```".
Proof.
  intros Hbody Hjson. destruct body as [| c body']; [reflexivity |].
  pose proof (startsWith_fence_false (str "json") (c :: body') (str "``")
                ltac:(repeat constructor; discriminate) Hjson) as Hj.
  change ("`"%char :: str "``") with (str "```") in Hj.
  inversion Hbody as [| ? ? Hc _]; subst.
  assert (E : Ascii.eqb "`" c = false) by (apply Ascii.eqb_neq; congruence).
  change (str "```" ++ (c :: body') ++ str "```")
    with ("`"%char :: "`"%char :: "`"%char :: (c :: body') ++ str "```").
  rewrite removeGo_keep.
  2:{ change (str "```json") with ("`"%char :: "`"%char :: "`"%char :: str "json").
      cbn [startsWith]. rewrite !Ascii.eqb_refl. cbn [andb]. exact Hj. }
  rewrite removeGo_keep.
  2:{ change (str "```json") with ("`"%char :: "`"%char :: "`"%char :: str "json").
      cbn [startsWith app]. rewrite !Ascii.eqb_refl, E. reflexivity. }
  rewrite removeGo_keep.
  2:{ change (str "```json") with ("`"%char :: "`"%char :: "`"%char :: str "json").
      cbn [startsWith app]. rewrite !Ascii.eqb_refl, E. reflexivity. }
  change (str "```json") with ("`"%char :: str "``json").
  rewrite removeGo_copy by exact Hbody. reflexivity.
Qed.

(** X22: [cleanJsonResponse] on the replies it is written for: a text without
    back-quotes is only trimmed, and a text between an opening fence,
    [```json] or plain, and a closing fence comes back without the
    fences, trimmed.  The result never starts or ends with white
    space. *)
Theorem cleanJsonResponse_fences (body : list ascii) :
  Forall (fun c => c <> "`"%char) body ->
  cleanJsonResponse body = trim body /\
  cleanJsonResponse (str "```json" ++ body ++ str "```") = trim body /\
  (startsWith (str "json") body = false ->
   cleanJsonResponse (str "```" ++ body ++ str "```") = trim body) /\
  forall text : list ascii, trim (cleanJsonResponse text) = cleanJsonResponse text.
Proof.
  intros Hbody. unfold cleanJsonResponse, removeAll. cbv zeta.
  assert (Hsecond : removeGo (str "```") 0 (str "```" ++ body ++ str "```") = body).
  { change (str "```" ++ body ++ str "```") with ("`"%char :: str "``" ++ body ++ str "```").
    rewrite removeGo_hit by exact (startsWith_app (str "```") (body ++ str "```")).
    change (length (str "```") - 1)%nat with (length (str "``")).
    rewrite removeGo_skip. change (str "```") with ("`"%char :: str "``") at 1.
    rewrite removeGo_copy by exact Hbody. cbn. apply app_nil_r. }
  split; [| split; [| split]].
  - change (str "```json") with ("`"%char :: str "``json").
    change (str "```") with ("`"%char :: str "``").
    rewrite (removeGo_absent (str "``json") "`" body Hbody).
    rewrite (removeGo_absent (str "``") "`" body Hbody). reflexivity.
  - assert (E1 : removeGo (str "```json") 0 (str "```json" ++ body ++ str "```")
                 = body ++ str "```").
    { change (str "```json" ++ body ++ str "```")
        with ("`"%char :: str "``json" ++ body ++ str "```").
      rewrite removeGo_hit by exact (startsWith_app (str "```json") (body ++ str "```")).
      change (length (str "```json") - 1)%nat with (length (str "``json")).
      rewrite removeGo_skip.
      change (str "```json") with ("`"%char :: str "``json").
      rewrite removeGo_copy by exact Hbody. reflexivity. }
    rewrite E1. change (str "```") with ("`"%char :: str "``") at 1.
    rewrite removeGo_copy by exact Hbody. cbn. now rewrite app_nil_r.
  - intros Hjson. rewrite (first_pass_plain_fence body Hbody Hjson).
    now rewrite Hsecond.
  - intros text. apply trim_idempotent.
Qed.

Lemma cleanJsonResponse_fences_witness :
  cleanJsonResponse (str "```json" ++ LF :: str "[1]" ++ LF :: str "```") = str "[1]" /\
  cleanJsonResponse (str "```" ++ LF :: str "[]" ++ str "```") = str "[]".
Proof.
  split.
  - destruct (cleanJsonResponse_fences (LF :: str "[1]" ++ [LF])) as (_ & H & _).
    + repeat constructor; discriminate.
    + exact H.
  - destruct (cleanJsonResponse_fences (LF :: str "[]")) as (_ & _ & H & _).
    + repeat constructor; discriminate.
    + exact (H eq_refl).
Defined.

(** ** Line ends *)

Lemma replaceCRLF_toCRLF (s : list ascii) :
  Forall (fun c => c <> CR) s -> replaceCRLF (toCRLF s) = s.
Proof.
  induction 1 as [| c s Hc _ IH]; [reflexivity |].
  unfold toCRLF in *. cbn [flat_map].
  destruct (Ascii.eqb c LF) eqn:E.
  - apply Ascii.eqb_eq in E. subst c. cbn [app replaceCRLF].
    rewrite !Ascii.eqb_refl. cbn [andb]. now rewrite IH.
  - apply Ascii.eqb_neq in Hc. cbn [app].
    destruct (flat_map _ s) as [| y t] eqn:Et.
    + cbn in IH. now subst s.
    + change (replaceCRLF (c :: y :: t))
        with (if Ascii.eqb c CR && Ascii.eqb y LF then LF :: replaceCRLF t
              else c :: replaceCRLF (y :: t)).
      rewrite Hc. cbn [andb]. now rewrite IH.
Qed.

Lemma replaceCRLF_no_LF (s : list ascii) :
  Forall (fun c => c <> LF) s -> replaceCRLF s = s.
Proof.
  induction 1 as [| c s Hc Hs IH]; [reflexivity |]. cbn [replaceCRLF].
  destruct s as [| y s]; [reflexivity |].
  inversion Hs as [| ? ? Hy _]; subst.
  assert (E : Ascii.eqb y LF = false) by now apply Ascii.eqb_neq.
  rewrite E, andb_false_r. now rewrite IH.
Qed.

Lemma toCR_no_LF (s : list ascii) : Forall (fun c => c <> LF) (toCR s).
Proof.
  unfold toCR. apply List.Forall_forall. intros x Hx.
  apply List.in_map_iff in Hx as (c & <- & _).
  destruct (Ascii.eqb c LF) eqn:E; [discriminate | now apply Ascii.eqb_neq].
Qed.

Lemma replaceCR_toCR (s : list ascii) :
  Forall (fun c => c <> CR) s -> replaceCR (toCR s) = s.
Proof.
  unfold replaceCR, toCR. induction 1 as [| c s Hc _ IH]; [reflexivity |].
  cbn [map]. rewrite IH. f_equal.
  destruct (Ascii.eqb c LF) eqn:E.
  - apply Ascii.eqb_eq in E. now subst c.
  - apply Ascii.eqb_neq in Hc. now rewrite Hc.
Qed.

(** X23: The line ends of a subtitle file do not matter to [parseSRT]: a text
    gives the same cues with the line ends of Unix, of Windows and of the
    old Mac. *)
Theorem parseSRT_line_ends (srtContent : list ascii) :
  Forall (fun c => c <> CR) srtContent ->
  parseSRT (toCRLF srtContent) = parseSRT srtContent /\
  parseSRT (toCR srtContent) = parseSRT srtContent.
Proof.
  intros H. unfold parseSRT. cbv zeta.
  rewrite (replaceCRLF_toCRLF srtContent H).
  rewrite (replaceCRLF_no_LF (toCR srtContent) (toCR_no_LF srtContent)).
  rewrite (replaceCR_toCR srtContent H).
  rewrite (replaceCRLF_absent srtContent H), (replaceCR_absent srtContent H).
  split; reflexivity.
Qed.

Lemma parseSRT_line_ends_witness :
  parseSRT (toCRLF (generateSRT [hello_cue; cueB])) = parseSRT (generateSRT [hello_cue; cueB]).
Proof.
  apply (parseSRT_line_ends (generateSRT [hello_cue; cueB])).
  apply List.Forall_forall. intros c Hc.
  assert (E : forallb (fun c => negb (Ascii.eqb c CR)) (generateSRT [hello_cue; cueB]) = true)
    by (vm_compute; reflexivity).
  rewrite List.forallb_forall in E. specialize (E c Hc).
  apply negb_true_iff in E. now apply Ascii.eqb_neq.
Defined.
